(** * A byte pair encoding tokenizer: model of [bpe_tokenizer.py] and its properties

    The development embeds the class [BPETokenizer] of [src/bpe_tokenizer.py]:
    the two static helpers [_get_stats] and [_merge], the training loop, the
    priority-ordered encoder, the decoder and the save/load pair.

    Conventions of the embedding.
    - A Python [int] is a [Z]; a [bytes] object is a [list byte]; a [str]
      given to [train] or [encode], or returned by [decode], is the list of
      its code points; the keys and hexadecimal values of the persisted
      documents are [string]s of characters below 256.
    - A Python [dict] is an insertion-ordered association list ([dict_get],
      [dict_set]): iteration order decides ties in [max] and [min], and the
      merge table's insertion order is the merge priority.
    - A method is a function from the tokenizer to an outcome and the
      tokenizer it leaves behind; an exception is the outcome [Raise e]. *)

From Stdlib Require Import ZArith Lia List Strings.String Strings.Ascii Strings.Byte.
From stdpp Require Import base decidable option list numbers strings.

Local Open Scope Z_scope.

(* ===================================================================== *)
(** ** Python dictionaries *)
(* ===================================================================== *)

Section pydict.
Context {K V : Type} `{EqDecision K}.

(** [d.get(k)] *)
Fixpoint dict_get (d : list (K * V)) (k : K) : option V :=
  match d with
  | [] => None
  | (k', v) :: d' => if decide (k' = k) then Some v else dict_get d' k
  end.

(** [d[k] = v]: an existing key keeps its position, a new key goes last. *)
Fixpoint dict_set (d : list (K * V)) (k : K) (v : V) : list (K * V) :=
  match d with
  | [] => [(k, v)]
  | (k', v') :: d' =>
      if decide (k' = k) then (k', v) :: d' else (k', v') :: dict_set d' k v
  end.

(** iteration over a dict yields its keys in insertion order *)
Definition dict_keys (d : list (K * V)) : list K := d.*1.
Definition dict_values (d : list (K * V)) : list V := d.*2.

(** [{key(x): val(x) for x in l}]: later items overwrite earlier ones. *)
Definition dict_of_items (l : list (K * V)) : list (K * V) :=
  fold_left (fun d kv => dict_set d kv.1 kv.2) l [].
End pydict.

(* ===================================================================== *)
(** ** [_get_stats] and [_merge] *)
(* ===================================================================== *)

(** [zip(ids, ids[1:])] *)
Definition adjacent_pairs (ids : list Z) : list (Z * Z) := zip ids (drop 1 ids).

(** One turn of the loop of [_get_stats]:
    [counts[pair] = counts.get(pair, 0) + 1]. *)
Definition count_pair (counts : list ((Z * Z) * Z)) (pair : Z * Z) : list ((Z * Z) * Z) :=
  dict_set counts pair (default 0 (dict_get counts pair) + 1).

Definition _get_stats (ids : list Z) : list ((Z * Z) * Z) :=
  fold_left count_pair (adjacent_pairs ids) [].

(** How often the pair [p] stands in a list of pairs. *)
Definition occurrences (p : Z * Z) (l : list (Z * Z)) : Z :=
  Z.of_nat (length (filter (fun q => q = p) l)).

(** The [while i < len(ids)] loop of [_merge], with the index [i] and the
    accumulator [newids] of the source.  Every turn advances [i], so
    [len(ids)] turns reach the exit; [fuel] counts the turns that remain. *)
Fixpoint merge_loop (fuel : nat) (ids : list Z) (pair : Z * Z) (idx : Z)
    (i : nat) (newids : list Z) : list Z :=
  match fuel with
  | O => newids
  | S fuel' =>
      match ids !! i with
      | None => newids (* i >= len(ids): the loop is left *)
      | Some x =>
          if bool_decide (i < length ids - 1)%nat
             && bool_decide (x = pair.1)
             && bool_decide (ids !! (i + 1)%nat = Some pair.2)
          then merge_loop fuel' ids pair idx (i + 2)%nat (newids ++ [idx])
          else merge_loop fuel' ids pair idx (i + 1)%nat (newids ++ [x])
      end
  end.

Definition _merge (ids : list Z) (pair : Z * Z) (idx : Z) : list Z :=
  merge_loop (length ids) ids pair idx 0%nat [].

(** The merge pass in the words of the specification: scan from the left;
    where the pair stands, emit the replacement and resume two places on;
    elsewhere copy one token and resume one place on. *)
Fixpoint greedy_replace (pair : Z * Z) (idx : Z) (ids : list Z) : list Z :=
  match ids with
  | [] => []
  | a :: rest =>
      match rest with
      | [] => [a]
      | b :: rest' =>
          if bool_decide (a = pair.1) && bool_decide (b = pair.2)
          then idx :: greedy_replace pair idx rest'
          else a :: greedy_replace pair idx rest
      end
  end.

(* ===================================================================== *)
(** ** [max] and [min] with a key function *)
(* ===================================================================== *)

(** Python's [max(xs, key=f)] and [min(xs, key=f)] walk [xs] once and replace
    the running choice only by a strictly better item, so the first of several
    best items is returned.  Both raise [ValueError] on an empty [xs]
    ([None] here). *)
Section extremum.
Context {A B : Type} (key : A -> B) (better : B -> B -> bool).

Fixpoint first_best (best : A) (xs : list A) : A :=
  match xs with
  | [] => best
  | x :: xs' => first_best (if better (key x) (key best) then x else best) xs'
  end.

Definition first_extremum (xs : list A) : option A :=
  match xs with
  | [] => None
  | x :: xs' => Some (first_best x xs')
  end.
End extremum.

(** [max(stats, key=stats.get)]: the keys of [stats] are walked in insertion
    order and compared by their counts. *)
Definition stats_count (stats : list ((Z * Z) * Z)) (p : Z * Z) : Z :=
  default 0 (dict_get stats p).

Definition max_pair (stats : list ((Z * Z) * Z)) : option (Z * Z) :=
  first_extremum (stats_count stats) (fun a b => b <? a) (dict_keys stats).

(** The key of [encode]'s [min] is [self.merges.get(p, float("inf"))]: an
    integer, or infinity ([None]) which no integer exceeds and which is not
    below itself. *)
Definition rank_lt (a b : option Z) : bool :=
  match a, b with
  | Some x, Some y => x <? y
  | Some _, None => true
  | None, _ => false
  end.

Definition min_pair (merges : list ((Z * Z) * Z)) (stats : list ((Z * Z) * Z)) : option (Z * Z) :=
  first_extremum (dict_get merges) rank_lt (dict_keys stats).

(* ===================================================================== *)
(** ** Bytes and UTF-8 *)
(* ===================================================================== *)

Definition byte_to_Z (b : byte) : Z := Z.of_N (Byte.to_N b).

(** [bytes([z])] for [z] in [range(256)] *)
Definition byte_of_Z (z : Z) : byte := default x00 (Byte.of_N (Z.to_N z)).

Definition is_surrogate (c : Z) : bool := (0xD800 <=? c) && (c <=? 0xDFFF).

(** A [str] holds code points [0 .. 0x10FFFF]. *)
Definition is_code_point (c : Z) : bool := (0 <=? c) && (c <=? 0x10FFFF).

(** The UTF-8 bytes of one code point, as integers; a surrogate has none
    ([str.encode] raises [UnicodeEncodeError]). *)
Definition utf8_encode_char (c : Z) : option (list Z) :=
  if negb (is_code_point c) || is_surrogate c then None
  else if c <? 0x80 then Some [c]
  else if c <? 0x800 then Some [0xC0 + c / 64; 0x80 + c mod 64]
  else if c <? 0x10000 then
    Some [0xE0 + c / 4096; 0x80 + (c / 64) mod 64; 0x80 + c mod 64]
  else
    Some [0xF0 + c / 262144; 0x80 + (c / 4096) mod 64;
          0x80 + (c / 64) mod 64; 0x80 + c mod 64].

Fixpoint utf8_encode (text : list Z) : option (list Z) :=
  match text with
  | [] => Some []
  | c :: text' =>
      match utf8_encode_char c, utf8_encode text' with
      | Some bs, Some rest => Some (bs ++ rest)
      | _, _ => None
      end
  end.

Definition REPLACEMENT : Z := 0xFFFD.

Definition is_continuation (b : Z) : bool := (0x80 <=? b) && (b <=? 0xBF).

(** The second byte a three-byte lead accepts: a continuation byte, but not
    below [0xA0] after [0xE0] (overlong) and not from [0xA0] on after [0xED]
    (surrogates). *)
Definition second_of_three (ch ch2 : Z) : bool :=
  is_continuation ch2 && negb (if ch2 <? 0xA0 then ch =? 0xE0 else ch =? 0xED).

(** The second byte a four-byte lead accepts: not below [0x90] after [0xF0]
    (overlong) and not from [0x90] on after [0xF4] (beyond [0x10FFFF]). *)
Definition second_of_four (ch ch2 : Z) : bool :=
  is_continuation ch2 && negb (if ch2 <? 0x90 then ch =? 0xF0 else ch =? 0xF4).

(** [bytes.decode("utf-8", errors="replace")] on the integer values of the
    bytes.  The decoder reads a lead byte and the continuation bytes it
    announces.  At the first byte that cannot continue the sequence it emits
    one U+FFFD for the bytes accepted so far (at least the lead) and resumes
    at the offending byte; a sequence cut short by the end of the input
    gives one U+FFFD as well. *)
Fixpoint utf8_decode_replace (bs : list Z) : list Z :=
  match bs with
  | [] => []
  | ch :: r1 =>
      if ch <? 0x80 then ch :: utf8_decode_replace r1
      else if ch <? 0xC2 then REPLACEMENT :: utf8_decode_replace r1
      else if ch <? 0xE0 then
        match r1 with
        | [] => [REPLACEMENT]
        | ch2 :: r2 =>
            if is_continuation ch2
            then (ch * 64 + ch2 - (0xC0 * 64 + 0x80)) :: utf8_decode_replace r2
            else REPLACEMENT :: utf8_decode_replace r1
        end
      else if ch <? 0xF0 then
        match r1 with
        | [] => [REPLACEMENT]
        | ch2 :: r2 =>
            if negb (second_of_three ch ch2) then REPLACEMENT :: utf8_decode_replace r1
            else
              match r2 with
              | [] => [REPLACEMENT]
              | ch3 :: r3 =>
                  if is_continuation ch3
                  then (ch * 4096 + ch2 * 64 + ch3
                        - (0xE0 * 4096 + 0x80 * 64 + 0x80)) :: utf8_decode_replace r3
                  else REPLACEMENT :: utf8_decode_replace r2
              end
        end
      else if ch <? 0xF5 then
        match r1 with
        | [] => [REPLACEMENT]
        | ch2 :: r2 =>
            if negb (second_of_four ch ch2) then REPLACEMENT :: utf8_decode_replace r1
            else
              match r2 with
              | [] => [REPLACEMENT]
              | ch3 :: r3 =>
                  if negb (is_continuation ch3) then REPLACEMENT :: utf8_decode_replace r2
                  else
                    match r3 with
                    | [] => [REPLACEMENT]
                    | ch4 :: r4 =>
                        if is_continuation ch4
                        then (ch * 262144 + ch2 * 4096 + ch3 * 64 + ch4
                              - (0xF0 * 262144 + 0x80 * 4096 + 0x80 * 64 + 0x80))
                             :: utf8_decode_replace r4
                        else REPLACEMENT :: utf8_decode_replace r3
                    end
              end
        end
      else REPLACEMENT :: utf8_decode_replace r1
  end.

(* ===================================================================== *)
(** ** Lossy decoding in the words of the specification *)
(* ===================================================================== *)

(** Valid UTF-8 is what the encoder writes: [w] is well formed when it is
    the byte sequence of a code point. *)
Definition well_formed (w : list Z) : Prop :=
  exists c, utf8_encode_char c = Some w.

(** [p] begins a well-formed sequence. *)
Definition starts_well_formed (p : list Z) : Prop :=
  exists s, well_formed (p ++ s).

(** No well-formed sequence stands at the head of [bs]. *)
Definition ill_formed_at (bs : list Z) : Prop :=
  forall w rest, bs = w ++ rest -> ~ well_formed w.

(** The maximal invalid subsequence at the head of [m ++ rest]: the longest
    non-empty [m] that begins a well-formed sequence, or one byte when not
    even that byte begins one. *)
Definition maximal_subpart (m rest : list Z) : Prop :=
  (m <> [] /\ starts_well_formed m
   /\ forall b rest', rest = b :: rest' -> ~ starts_well_formed (m ++ [b]))
  \/ (exists b, m = [b] /\ ~ starts_well_formed [b]).

(** [lossy_decoding bs out]: [bs] is cut, from the left, into well-formed
    sequences and maximal invalid subsequences; [out] has the code point of
    each well-formed sequence and one U+FFFD for each invalid one. *)
Inductive lossy_decoding : list Z -> list Z -> Prop :=
  | lossy_end : lossy_decoding [] []
  | lossy_char c w rest out :
      utf8_encode_char c = Some w ->
      lossy_decoding rest out ->
      lossy_decoding (w ++ rest) (c :: out)
  | lossy_replace m rest out :
      ill_formed_at (m ++ rest) ->
      maximal_subpart m rest ->
      lossy_decoding rest out ->
      lossy_decoding (m ++ rest) (REPLACEMENT :: out).

(** The well-formed byte sequences by their shape (the table of the Unicode
    standard), as a test on the bytes. *)
Definition well_formed_shape (w : list Z) : bool :=
  match w with
  | [b0] => (0 <=? b0) && (b0 <? 0x80)
  | [b0; b1] => (0xC2 <=? b0) && (b0 <? 0xE0) && is_continuation b1
  | [b0; b1; b2] =>
      (0xE0 <=? b0) && (b0 <? 0xF0) && second_of_three b0 b1 && is_continuation b2
  | [b0; b1; b2; b3] =>
      (0xF0 <=? b0) && (b0 <? 0xF5) && second_of_four b0 b1
      && is_continuation b2 && is_continuation b3
  | _ => false
  end.

(* ===================================================================== *)
(** ** Outcomes and the tokenizer monad *)
(* ===================================================================== *)

Inductive exn : Set :=
  | ValueError | RuntimeError | KeyError | ZeroDivisionError
  | UnicodeEncodeError | TypeError | AttributeError | OSError | JSONDecodeError.

(** [Untyped] marks a run that raises nothing and leaves the annotated types
    of the class: a [load] of a merges document whose keys [int] all
    accepts and which has an entry that is not a pair of integers mapped to
    an integer.  The model follows such a run no further and no theorem
    speaks of it. *)
Inductive result (A : Type) : Type :=
  | Ok (a : A)
  | Raise (e : exn)
  | Untyped.
Arguments Ok {A} a.
Arguments Raise {A} e.
Arguments Untyped {A}.

(** [self.vocab] and [self.merges] *)
Record tokenizer : Type := Tokenizer {
  vocab : list (Z * list byte);
  merges : list ((Z * Z) * Z)
}.

(** [BPETokenizer()] *)
Definition fresh : tokenizer := Tokenizer [] [].

Definition M (A : Type) : Type := tokenizer -> result A * tokenizer.

Definition ret {A} (a : A) : M A := fun self => (Ok a, self).
Definition raise {A} (e : exn) : M A := fun self => (Raise e, self).
Definition bind {A B} (m : M A) (k : A -> M B) : M B :=
  fun self =>
    match m self with
    | (Ok a, self') => k a self'
    | (Raise e, self') => (Raise e, self')
    | (Untyped, self') => (Untyped, self')
    end.
Definition lift {A} (r : result A) : M A := fun self => (r, self).

Definition get_vocab : M (list (Z * list byte)) := fun self => (Ok (vocab self), self).
Definition get_merges : M (list ((Z * Z) * Z)) := fun self => (Ok (merges self), self).
Definition set_vocab (v : list (Z * list byte)) : M unit :=
  fun self => (Ok tt, Tokenizer v (merges self)).
Definition set_merges (m : list ((Z * Z) * Z)) : M unit :=
  fun self => (Ok tt, Tokenizer (vocab self) m).

Notation "x <- m ;; k" := (bind m (fun x => k))
  (at level 90, m at level 89, right associativity).
Notation "m ;;; k" := (bind m (fun _ => k))
  (at level 90, right associativity).

(** [d[k]] raises [KeyError] on a missing key. *)
Definition subscript {K V} `{EqDecision K} (d : list (K * V)) (k : K) : result V :=
  match dict_get d k with
  | Some v => Ok v
  | None => Raise KeyError
  end.

(** [list(text.encode("utf-8"))] *)
Definition encode_utf8 (text : list Z) : result (list Z) :=
  match utf8_encode text with
  | Some bs => Ok bs
  | None => Raise UnicodeEncodeError
  end.

(* ===================================================================== *)
(** ** [train], [encode], [decode] *)
(* ===================================================================== *)

(** [{idx: bytes([idx]) for idx in range(256)}] *)
Definition initial_vocab : list (Z * list byte) :=
  dict_of_items ((fun idx => (idx, [byte_of_Z idx])) <$> seqZ 0 256).

(** [self.merges[pair] = idx] and
    [self.vocab[idx] = self.vocab[pair[0]] + self.vocab[pair[1]]] *)
Definition record_merge (pr : Z * Z) (idx : Z) : M unit :=
  m <- get_merges ;;
  set_merges (dict_set m pr idx) ;;;
  v <- get_vocab ;;
  left <- lift (subscript v pr.1) ;;
  right <- lift (subscript v pr.2) ;;
  set_vocab (dict_set v idx (left ++ right)).

(** The body of [for i in range(num_merges)], [n] turns from index [i] on. *)
Fixpoint train_loop (n : nat) (i : Z) (ids : list Z) : M (list Z) :=
  match n with
  | O => ret ids
  | S n' =>
      let stats := _get_stats ids in
      match stats with
      | [] => ret ids (* if not stats: break *)
      | _ :: _ =>
          match max_pair stats with
          | None => raise ValueError
          | Some pr =>
              let idx := 256 + i in
              let ids' := _merge ids pr idx in
              record_merge pr idx ;;;
              train_loop n' (i + 1) ids'
          end
      end
  end.

(** [train] ends by printing [len(tokens) / len(ids)], a division that raises
    [ZeroDivisionError] when [ids] is empty; the other prints cannot fail. *)
Definition train (text : list Z) (vocab_size : Z) : M unit :=
  if vocab_size <? 256 then raise ValueError
  else
    tokens <- lift (encode_utf8 text) ;;
    let num_merges := vocab_size - 256 in
    set_vocab initial_vocab ;;;
    set_merges [] ;;;
    ids <- train_loop (Z.to_nat num_merges) 0 tokens ;;
    if bool_decide (length ids = 0%nat) then raise ZeroDivisionError else ret tt.

(** The [while len(tokens) >= 2] loop of [encode].  A turn that does not
    leave the loop shortens [tokens], so [len(tokens)] turns reach the exit;
    [fuel] counts the turns that remain. *)
Fixpoint encode_loop (fuel : nat) (merges : list ((Z * Z) * Z)) (tokens : list Z)
    : result (list Z) :=
  match fuel with
  | O => Ok tokens
  | S fuel' =>
      if bool_decide (2 <= length tokens)%nat then
        match min_pair merges (_get_stats tokens) with
        | None => Raise ValueError
        | Some pr =>
            match dict_get merges pr with
            | None => Ok tokens (* pair not in self.merges: break *)
            | Some idx => encode_loop fuel' merges (_merge tokens pr idx)
            end
        end
      else Ok tokens
  end.

Definition encode (text : list Z) : M (list Z) :=
  m <- get_merges ;;
  match m with
  | [] => raise RuntimeError
  | _ :: _ =>
      tokens <- lift (encode_utf8 text) ;;
      lift (encode_loop (length tokens) m tokens)
  end.

(** The bytes [self.vocab[idx] for idx in ids], joined with nothing between
    them. *)
Fixpoint join_vocab (v : list (Z * list byte)) (ids : list Z) : result (list byte) :=
  match ids with
  | [] => Ok []
  | idx :: ids' =>
      match subscript v idx with
      | Ok b =>
          match join_vocab v ids' with
          | Ok rest => Ok (b ++ rest)
          | r => r
          end
      | Raise e => Raise e
      | Untyped => Untyped
      end
  end.

Definition decode (ids : list Z) : M (list Z) :=
  v <- get_vocab ;;
  match v with
  | [] => raise RuntimeError
  | _ :: _ =>
      tokens <- lift (join_vocab v ids) ;;
      ret (utf8_decode_replace (byte_to_Z <$> tokens))
  end.

(* ===================================================================== *)
(** ** Text forms used by [save] and [load] *)
(* ===================================================================== *)

Definition code (c : ascii) : Z := Z.of_N (N_of_ascii c).
Definition chr (z : Z) : ascii := ascii_of_N (Z.to_N z).

(** [str(n)] for an integer: decimal digits, [-] before a negative one.
    (The interpreter's optional cap on the number of digits it converts is
    not part of the model.) *)
Fixpoint digits_of (fuel : nat) (n : Z) (acc : string) : string :=
  match fuel with
  | O => acc
  | S fuel' =>
      let acc' := String (chr (48 + n mod 10)) acc in
      if n <? 10 then acc' else digits_of fuel' (n / 10) acc'
  end.

Definition py_str (z : Z) : string :=
  if z <? 0
  then String "-" (digits_of (S (Z.to_nat (Z.log2 (- z)))) (- z) EmptyString)
  else digits_of (S (Z.to_nat (Z.log2 z))) z EmptyString.

(** The white space [int] skips at both ends of a string, for characters
    below 256: tab to carriage return and the blank, and the two white space
    characters from 128 on (U+0085, U+00A0), which [int] reads as blanks.
    The separators U+001C to U+001F are not among them. *)
Definition is_space (c : ascii) : bool :=
  let n := code c in
  ((9 <=? n) && (n <=? 13)) || (n =? 32) || (n =? 133) || (n =? 160).

Definition is_digit (c : ascii) : bool := (48 <=? code c) && (code c <=? 57).

(** A character of a printed integer: a digit or the sign. *)
Definition numeral (c : ascii) : Prop := is_digit c = true \/ c = "-"%char.

Fixpoint lstrip (s : string) : string :=
  match s with
  | EmptyString => EmptyString
  | String c s' => if is_space c then lstrip s' else s
  end.

Fixpoint rstrip (s : string) : string :=
  match s with
  | EmptyString => EmptyString
  | String c s' =>
      match rstrip s' with
      | EmptyString => if is_space c then EmptyString else String c EmptyString
      | t => String c t
      end
  end.

(** Decimal digits, where one underscore may stand between two digits. *)
Fixpoint digits_value (acc : Z) (after_digit : bool) (s : string) : option Z :=
  match s with
  | EmptyString => if after_digit then Some acc else None
  | String c s' =>
      if is_digit c then digits_value (10 * acc + (code c - 48)) true s'
      else if bool_decide (c = "_"%char) && after_digit then digits_value acc false s'
      else None
  end.

(** [int(s)] for a string: [None] is [ValueError]. *)
Definition py_int (s : string) : option Z :=
  match rstrip (lstrip s) with
  | String "-" s' => Z.opp <$> digits_value 0 false s'
  | String "+" s' => digits_value 0 false s'
  | s' => digits_value 0 false s'
  end.

(** [s.split(",")] *)
Fixpoint split_comma (s : string) : list string :=
  match s with
  | EmptyString => [EmptyString]
  | String c s' =>
      if bool_decide (c = ","%char) then EmptyString :: split_comma s'
      else
        match split_comma s' with
        | h :: t => String c h :: t
        | [] => [String c EmptyString]
        end
  end.

Definition hex_char (d : Z) : ascii := if d <? 10 then chr (48 + d) else chr (87 + d).

Definition hex_val (c : ascii) : option Z :=
  let n := code c in
  if (48 <=? n) && (n <=? 57) then Some (n - 48)
  else if (97 <=? n) && (n <=? 102) then Some (n - 87)
  else if (65 <=? n) && (n <=? 70) then Some (n - 55)
  else None.

(** [b.hex()] *)
Fixpoint bytes_hex (b : list byte) : string :=
  match b with
  | [] => EmptyString
  | x :: b' =>
      String (hex_char (byte_to_Z x / 16))
        (String (hex_char (byte_to_Z x mod 16)) (bytes_hex b'))
  end.

Definition is_ascii_space (c : ascii) : bool :=
  let n := code c in ((9 <=? n) && (n <=? 13)) || (n =? 32).

(** [bytes.fromhex(s)]: two hexadecimal digits per byte, ASCII white space
    allowed between bytes; [None] is [ValueError]. *)
Fixpoint bytes_fromhex (s : string) : option (list byte) :=
  match s with
  | EmptyString => Some []
  | String c s' =>
      if is_ascii_space c then bytes_fromhex s'
      else
        match s' with
        | EmptyString => None
        | String c2 s'' =>
            match hex_val c, hex_val c2, bytes_fromhex s'' with
            | Some h, Some l, Some rest => Some (byte_of_Z (16 * h + l) :: rest)
            | _, _, _ => None
            end
        end
  end.

(* ===================================================================== *)
(** ** [save] and [load] *)
(* ===================================================================== *)

(** What [json.load] returns; strings are taken with characters below 256. *)
#[local] Unset Elimination Schemes.
Inductive json : Type :=
  | JNull
  | JBool (b : bool)
  | JInt (z : Z)
  | JFloat (repr : string)
  | JStr (s : string)
  | JArr (items : list json)
  | JObj (members : list (string * json)).
#[local] Set Elimination Schemes.

(** A path holds a file that cannot be opened, text that is not JSON, or a
    JSON document; a path the disk does not list has no file. *)
Inductive file : Type :=
  | Denied
  | Garbage
  | Json (j : json).

(** [with open(path, 'w') as f: json.dump(doc, f, indent=2)] *)
Definition dump_to (path : string) (doc : json) (disk : list (string * file))
    : result unit * list (string * file) :=
  match dict_get disk path with
  | Some Denied => (Raise OSError, disk)
  | _ => (Ok tt, dict_set disk path (Json doc))
  end.

(** [with open(path, 'r') as f: json.load(f)] *)
Definition json_load (path : string) (disk : list (string * file)) : result json :=
  match dict_get disk path with
  | None | Some Denied => Raise OSError
  | Some Garbage => Raise JSONDecodeError
  | Some (Json j) => Ok j
  end.

(** [doc.items()]: the members of an object, a repeated key keeping its last
    value; anything but an object has no [items]. *)
Definition json_items (j : json) : result (list (string * json)) :=
  match j with
  | JObj members => Ok (dict_of_items members)
  | _ => Raise AttributeError
  end.

(** [{str(k): v.hex() for k, v in self.vocab.items()}] *)
Definition vocab_serializable (v : list (Z * list byte)) : list (string * json) :=
  dict_of_items ((fun kv => (py_str kv.1, JStr (bytes_hex kv.2))) <$> v).

(** [{f"{k[0]},{k[1]}": v for k, v in self.merges.items()}] *)
Definition merges_serializable (m : list ((Z * Z) * Z)) : list (string * json) :=
  dict_of_items
    ((fun kv => (py_str kv.1.1 +:+ "," +:+ py_str kv.1.2, JInt kv.2)) <$> m).

Definition save (vocab_path merges_path : string) (disk : list (string * file))
    (self : tokenizer) : result unit * tokenizer * list (string * file) :=
  let vs := vocab_serializable (vocab self) in
  let ms := merges_serializable (merges self) in
  match dump_to vocab_path (JObj vs) disk with
  | (Ok _, disk1) =>
      match dump_to merges_path (JObj ms) disk1 with
      | (r, disk2) => (r, self, disk2)
      end
  | (r, disk1) => (r, self, disk1)
  end.

(** [{int(k): bytes.fromhex(v) for k, v in vocab_serializable.items()}] *)
Fixpoint vocab_of_items (items : list (string * json)) (acc : list (Z * list byte))
    : result (list (Z * list byte)) :=
  match items with
  | [] => Ok acc
  | (k, v) :: items' =>
      match py_int k with
      | None => Raise ValueError
      | Some key =>
          match v with
          | JStr s =>
              match bytes_fromhex s with
              | Some b => vocab_of_items items' (dict_set acc key b)
              | None => Raise ValueError
              end
          | _ => Raise TypeError
          end
      end
  end.

(** [tuple(map(int, k.split(',')))] *)
Definition key_tuple (k : string) : option (list Z) := mapM py_int (split_comma k).

(** The rest of the comprehension below after an entry that is not a pair of
    integers mapped to an integer: such an entry raises nothing, and the
    comprehension goes on to the first key [int] refuses, if there is one. *)
Fixpoint merges_untyped {A} (items : list (string * json)) : result A :=
  match items with
  | [] => Untyped
  | (k, _) :: items' =>
      match key_tuple k with
      | None => Raise ValueError
      | Some _ => merges_untyped items'
      end
  end.

(** [{tuple(map(int, k.split(','))): v for k, v in merges_serializable.items()}] *)
Fixpoint merges_of_items (items : list (string * json)) (acc : list ((Z * Z) * Z))
    : result (list ((Z * Z) * Z)) :=
  match items with
  | [] => Ok acc
  | (k, v) :: items' =>
      match key_tuple k with
      | None => Raise ValueError
      | Some [a; b] =>
          match v with
          | JInt z => merges_of_items items' (dict_set acc (a, b) z)
          | _ => merges_untyped items'
          end
      | Some _ => merges_untyped items'
      end
  end.

Definition load (vocab_path merges_path : string) (disk : list (string * file)) : M unit :=
  vocab_doc <- lift (json_load vocab_path disk) ;;
  vocab_items <- lift (json_items vocab_doc) ;;
  v <- lift (vocab_of_items vocab_items []) ;;
  set_vocab v ;;;
  merges_doc <- lift (json_load merges_path disk) ;;
  merges_items <- lift (json_items merges_doc) ;;
  m <- lift (merges_of_items merges_items []) ;;
  set_merges m.

(* ===================================================================== *)
(** ** Calls and their failures *)
(* ===================================================================== *)

Inductive call : Type :=
  | CallTrain (text : list Z) (vocab_size : Z)
  | CallEncode (text : list Z)
  | CallDecode (ids : list Z)
  | CallSave (vocab_path merges_path : string)
  | CallLoad (vocab_path merges_path : string).

(** The exception a call ended with, if any. *)
Definition failure {A} (r : result A) : option exn :=
  match r with
  | Raise e => Some e
  | _ => None
  end.

(** A call on a tokenizer and a disk: its failure and the tokenizer after. *)
Definition run (c : call) (disk : list (string * file)) (self : tokenizer)
    : option exn * tokenizer :=
  match c with
  | CallTrain text vocab_size =>
      let (r, self') := train text vocab_size self in (failure r, self')
  | CallEncode text => let (r, self') := encode text self in (failure r, self')
  | CallDecode ids => let (r, self') := decode ids self in (failure r, self')
  | CallSave vocab_path merges_path =>
      let '(r, self', _) := save vocab_path merges_path disk self in (failure r, self')
  | CallLoad vocab_path merges_path =>
      let (r, self') := load vocab_path merges_path disk self in (failure r, self')
  end.

(* ===================================================================== *)
(** ** Worked runs *)
(* ===================================================================== *)

Definition text_of (s : string) : list Z := code <$> list_ascii_of_string s.

(* ===================================================================== *)
(** ** Invariants *)
(* ===================================================================== *)

(** A text that [str.encode] accepts: code points, none of them a
    surrogate. *)
Definition valid_text (text : list Z) : Prop :=
  Forall (fun c => is_code_point c && negb (is_surrogate c) = true) text.

(** The tables after [k] merges: the vocabulary has the IDs [0 .. 255 + k],
    the raw bytes expand to themselves, the merge table holds the values
    [256 .. 255 + k] in the order they were recorded, and every merged ID
    expands to the expansions of the two earlier IDs it was made of. *)
Record trained (k : Z) (self : tokenizer) : Prop := Trained {
  trained_nonneg : 0 <= k;
  trained_vocab_keys : dict_keys (vocab self) = seqZ 0 (256 + k);
  trained_bytes : forall b, 0 <= b < 256 -> dict_get (vocab self) b = Some [byte_of_Z b];
  trained_merge_values : dict_values (merges self) = seqZ 256 k;
  trained_merge_keys : NoDup (dict_keys (merges self));
  trained_expansion : forall p v, dict_get (merges self) p = Some v ->
    0 <= p.1 < v /\ 0 <= p.2 < v
    /\ exists l r, dict_get (vocab self) p.1 = Some l
         /\ dict_get (vocab self) p.2 = Some r
         /\ dict_get (vocab self) v = Some (l ++ r)
}.

(** The loop invariant of [train] before turn [k]: the tables are as above,
    the tokens are IDs of the vocabulary, and no pair merged so far stands in
    the token sequence any more. *)
Definition training (k : Z) (ids : list Z) (self : tokenizer) : Prop :=
  trained k self
  /\ Forall (fun t => 0 <= t < 256 + k) ids
  /\ forall p, is_Some (dict_get (merges self) p) -> p ∉ adjacent_pairs ids.


(* ===================================================================== *)
(** ** The constructor, [__repr__] and the scripts *)
(* ===================================================================== *)

(** [BPETokenizer(vocab, merges)]: an argument that is [None] gives an empty
    table. *)
Definition init (vocab : option (list (Z * list byte)))
    (merges : option (list ((Z * Z) * Z))) : tokenizer :=
  Tokenizer (default [] vocab) (default [] merges).

(** [__repr__] *)
Definition repr (self : tokenizer) : string :=
  "BPETokenizer(vocab_size=" +:+ py_str (Z.of_nat (length (vocab self)))
  +:+ ", num_merges=" +:+ py_str (Z.of_nat (length (merges self))) +:+ ")".

(** The sum of a list of counts. *)
Definition total (counts : list Z) : Z := foldr Z.add 0 counts.

(** Tables that fit together, however they were obtained: every raw byte
    expands to itself, and an ID merged from two IDs that have expansions
    expands to both, one after the other. *)
Definition consistent (self : tokenizer) : Prop :=
  (forall b, 0 <= b < 256 -> dict_get (vocab self) b = Some [byte_of_Z b])
  /\ forall p v l r,
       dict_get (merges self) p = Some v ->
       dict_get (vocab self) p.1 = Some l ->
       dict_get (vocab self) p.2 = Some r ->
       dict_get (vocab self) v = Some (l ++ r).

(** The outcome of a failed step, at the result type of the whole run. *)
Definition fail_as {A B} (r : result A) : result B :=
  match r with
  | Raise e => Raise e
  | _ => Untyped
  end.

(** The script at the end of [bpe_tokenizer.py], with its sample text and
    its test text as parameters (the script has literals there): train with
    [vocab_size=276], encode and decode the test text, save, load into a new
    tokenizer, encode and decode again.  The result holds what the script
    prints: the IDs, the decoded text and the two comparisons with the test
    text. *)
Definition main_block (sample_text test_text : list Z) (disk : list (string * file))
    : result (list Z * list Z * bool * bool) * list (string * file) :=
  let tokenizer := init None None in
  match train sample_text 276 tokenizer with
  | (Ok _, tokenizer) =>
      match encode test_text tokenizer with
      | (Ok encoded, tokenizer) =>
          match decode encoded tokenizer with
          | (Ok decoded, tokenizer) =>
              match save "vocab.json" "merges.json" disk tokenizer with
              | (Ok _, _, disk) =>
                  let new_tokenizer := init None None in
                  match load "vocab.json" "merges.json" disk new_tokenizer with
                  | (Ok _, new_tokenizer) =>
                      match encode test_text new_tokenizer with
                      | (Ok encoded2, new_tokenizer) =>
                          match decode encoded2 new_tokenizer with
                          | (Ok decoded2, _) =>
                              (Ok (encoded, decoded,
                                   bool_decide (test_text = decoded),
                                   bool_decide (test_text = decoded2)), disk)
                          | (r, _) => (fail_as r, disk)
                          end
                      | (r, _) => (fail_as r, disk)
                      end
                  | (r, _) => (fail_as r, disk)
                  end
              | (r, _, disk) => (fail_as r, disk)
              end
          | (r, _) => (fail_as r, disk)
          end
      | (r, _) => (fail_as r, disk)
      end
  | (r, _) => (fail_as r, disk)
  end.

(** [example_train_and_save] of [example_usage.py], with its training text
    as a parameter. *)
Definition example_train_and_save (training_text : list Z) (disk : list (string * file))
    : result unit * list (string * file) :=
  let tokenizer := init None None in
  match train training_text 280 tokenizer with
  | (Ok _, tokenizer) =>
      match save "my_vocab.json" "my_merges.json" disk tokenizer with
      | (r, _, disk) => (r, disk)
      end
  | (r, _) => (fail_as r, disk)
  end.

(** The loop of [example_load_and_use]: for every text the IDs, the decoded
    text and whether it equals the text. *)
Fixpoint encode_decode_each (test_texts : list (list Z))
    : M (list (list Z * list Z * bool)) :=
  match test_texts with
  | [] => ret []
  | text :: rest =>
      encoded <- encode text ;;
      decoded <- decode encoded ;;
      more <- encode_decode_each rest ;;
      ret ((encoded, decoded, bool_decide (text = decoded)) :: more)
  end.

(** [example_load_and_use], with its test texts as a parameter. *)
Definition example_load_and_use (test_texts : list (list Z)) (disk : list (string * file))
    : result (list (list Z * list Z * bool)) :=
  ((load "vocab.json" "merges.json" disk ;;; encode_decode_each test_texts)
     (init None None)).1.

(** The loop of [example_compare_compression]: for every text the number of
    its UTF-8 bytes, the number of its tokens, and whether the ratio is
    computed by the division ([tokens > 0]) or set to [0]. *)
Fixpoint measure_each (texts : list (list Z)) : M (list (Z * Z * bool)) :=
  match texts with
  | [] => ret []
  | text :: rest =>
      utf8 <- lift (encode_utf8 text) ;;
      encoded <- encode text ;;
      let utf8_bytes := Z.of_nat (length utf8) in
      let tokens := Z.of_nat (length encoded) in
      more <- measure_each rest ;;
      ret ((utf8_bytes, tokens, 0 <? tokens) :: more)
  end.

(** [example_compare_compression], with its texts as a parameter. *)
Definition example_compare_compression (texts : list (list Z)) (disk : list (string * file))
    : result (list (Z * Z * bool)) :=
  ((load "vocab.json" "merges.json" disk ;;; measure_each texts) (init None None)).1.


(* ===================================================================== *)
(** * Properties *)
(* ===================================================================== *)

(* ===================================================================== *)
(** ** Dictionaries: lookups after an assignment *)
(* ===================================================================== *)

Section pydict_facts.
Context {K V : Type} `{EqDecision K}.
Implicit Types (d : list (K * V)) (k : K) (v : V).

Lemma dict_get_set_eq d k v : dict_get (dict_set d k v) k = Some v.
Proof.
  induction d as [|[k' v'] d IH]; simpl.
  - by rewrite decide_True.
  - destruct (decide (k' = k)) as [->|Hne]; simpl.
    + by rewrite decide_True.
    + by rewrite decide_False.
Qed.

Lemma dict_get_set_ne d k k' v :
  k ≠ k' -> dict_get (dict_set d k v) k' = dict_get d k'.
Proof.
  intros Hne. induction d as [|[k0 v0] d IH]; simpl.
  - by rewrite decide_False.
  - destruct (decide (k0 = k)) as [->|Hk]; simpl.
    + by rewrite !decide_False.
    + destruct (decide (k0 = k')); done.
Qed.

Lemma dict_get_None d k : dict_get d k = None <-> k ∉ dict_keys d.
Proof.
  unfold dict_keys. induction d as [|[k' v'] d IH]; simpl.
  - split; [intros _; apply not_elem_of_nil | done].
  - rewrite not_elem_of_cons. destruct (decide (k' = k)) as [->|Hne].
    + split; [done | intros [? _]; done].
    + rewrite IH. split; [by intros ?; split | by intros [_ ?]].
Qed.

Lemma dict_get_Some_elem d k v : dict_get d k = Some v -> (k, v) ∈ d.
Proof.
  induction d as [|[k' v'] d IH]; simpl; [done|].
  destruct (decide (k' = k)) as [->|Hne].
  - intros [= ->]. apply list_elem_of_here.
  - intros Hg. apply list_elem_of_further. auto.
Qed.

Lemma dict_get_is_Some d k : is_Some (dict_get d k) <-> k ∈ dict_keys d.
Proof.
  destruct (dict_get d k) as [v|] eqn:E.
  - split; [intros _ | eauto].
    apply dict_get_Some_elem in E. unfold dict_keys.
    apply list_elem_of_fmap. by exists (k, v).
  - split; [intros [? ?]; done|]. intros Hin.
    apply dict_get_None in E. done.
Qed.

Lemma dict_elem_get d k v :
  NoDup (dict_keys d) -> (k, v) ∈ d -> dict_get d k = Some v.
Proof.
  unfold dict_keys. induction d as [|[k' v'] d IH]; simpl.
  - intros _ Hin. by apply elem_of_nil in Hin.
  - rewrite NoDup_cons. intros [Hk Hnd] Hin.
    apply elem_of_cons in Hin as [[= -> ->]|Hin].
    + by rewrite decide_True.
    + destruct (decide (k' = k)) as [->|Hne]; [|auto].
      exfalso. apply Hk. apply list_elem_of_fmap. by exists (k, v).
Qed.

(** An assignment to a new key appends the item. *)
Lemma dict_set_fresh d k v : dict_get d k = None -> dict_set d k v = d ++ [(k, v)].
Proof.
  induction d as [|[k' v'] d IH]; simpl; [done|].
  destruct (decide (k' = k)); [done|]. intros Hg. by rewrite IH.
Qed.

Lemma dict_set_keys_present d k v :
  is_Some (dict_get d k) -> dict_keys (dict_set d k v) = dict_keys d.
Proof.
  unfold dict_keys. induction d as [|[k' v'] d IH]; simpl.
  - intros [? ?]; done.
  - destruct (decide (k' = k)); simpl; [done|]. intros Hs. f_equal. auto.
Qed.

(** A comprehension over items with distinct keys keeps them all, in order. *)
Lemma dict_of_items_app (acc l : list (K * V)) :
  NoDup (dict_keys (acc ++ l)) ->
  fold_left (fun d kv => dict_set d kv.1 kv.2) l acc = acc ++ l.
Proof.
  revert acc. induction l as [|[k v] l IH]; intros acc Hnd; simpl.
  - by rewrite app_nil_r.
  - rewrite dict_set_fresh.
    + rewrite IH; rewrite <- app_assoc; done.
    + apply dict_get_None. unfold dict_keys in *.
      rewrite fmap_app in Hnd. apply NoDup_app in Hnd as (_ & Hdis & _).
      intros Hin. apply (Hdis k Hin). simpl. apply list_elem_of_here.
Qed.

Lemma dict_of_items_NoDup (l : list (K * V)) :
  NoDup (dict_keys l) -> dict_of_items l = l.
Proof. intros Hnd. unfold dict_of_items. by rewrite dict_of_items_app. Qed.
End pydict_facts.

(* ===================================================================== *)
(** ** The merge pass *)
(* ===================================================================== *)

(** Lists two at a time, the way the merge pass consumes them. *)
Lemma list_ind2 {A} (P : list A -> Prop) :
  P [] -> (forall a, P [a]) ->
  (forall a b l, P l -> P (b :: l) -> P (a :: b :: l)) ->
  forall l, P l.
Proof.
  intros H0 H1 H2 l.
  assert (P l /\ forall a, P (a :: l)) as [? _]; [|done].
  induction l as [|b l [IH1 IH2]]; split; auto.
Qed.

Lemma greedy_replace_length pair idx ids :
  (length (greedy_replace pair idx ids) <= length ids)%nat.
Proof.
  induction ids as [| a | a b l IH1 IH2] using list_ind2; simpl; [lia..|].
  destruct (bool_decide (a = pair.1) && bool_decide (b = pair.2)); simpl in *; lia.
Qed.

(** The index loop, started at position [length pre] with [acc] collected,
    finishes the greedy scan of what is left. *)
Lemma merge_loop_scan fuel pre suf pair idx acc :
  (length suf <= fuel)%nat ->
  merge_loop fuel (pre ++ suf) pair idx (length pre) acc
  = acc ++ greedy_replace pair idx suf.
Proof.
  revert pre suf acc. induction fuel as [|fuel IH]; intros pre suf acc Hlen.
  - destruct suf; simpl in *; [by rewrite app_nil_r | lia].
  - simpl. destruct suf as [|a suf].
    { rewrite app_nil_r, lookup_ge_None_2 by lia. simpl. by rewrite app_nil_r. }
    rewrite lookup_app_r, Nat.sub_diag by lia. simpl lookup.
    destruct suf as [|b suf].
    { rewrite bool_decide_eq_false_2.
      2:{ rewrite length_app. simpl. lia. }
      simpl.
      replace (pre ++ [a]) with ((pre ++ [a]) ++ []) by apply app_nil_r.
      replace (length pre + 1)%nat with (length (pre ++ [a]))
        by (rewrite length_app; simpl; lia).
      rewrite IH by (simpl; lia). simpl. by rewrite app_nil_r. }
    rewrite bool_decide_eq_true_2.
    2:{ rewrite length_app. simpl. lia. }
    replace ((pre ++ a :: b :: suf) !! (length pre + 1)%nat) with (Some b).
    2:{ rewrite lookup_app_r by lia.
        replace (length pre + 1 - length pre)%nat with 1%nat by lia. done. }
    assert (bool_decide (Some b = Some pair.2) = bool_decide (b = pair.2)) as ->.
    { apply bool_decide_ext. naive_solver. }
    simpl. destruct (bool_decide (a = pair.1) && bool_decide (b = pair.2)).
    + replace (pre ++ a :: b :: suf) with ((pre ++ [a; b]) ++ suf)
        by (rewrite <- app_assoc; done).
      replace (length pre + 2)%nat with (length (pre ++ [a; b]))
        by (rewrite length_app; simpl; lia).
      rewrite IH by (simpl in *; lia). by rewrite <- app_assoc.
    + replace (pre ++ a :: b :: suf) with ((pre ++ [a]) ++ b :: suf)
        by (rewrite <- app_assoc; done).
      replace (length pre + 1)%nat with (length (pre ++ [a]))
        by (rewrite length_app; simpl; lia).
      rewrite IH by (simpl in *; lia). by rewrite <- app_assoc.
Qed.

Lemma merge_greedy ids pair idx : _merge ids pair idx = greedy_replace pair idx ids.
Proof. unfold _merge. by rewrite (merge_loop_scan _ [] ids). Qed.

(** More turns than [len(ids)] change nothing: the loop has left by itself. *)
Lemma merge_loop_enough fuel ids pair idx :
  (length ids <= fuel)%nat -> merge_loop fuel ids pair idx 0 [] = _merge ids pair idx.
Proof.
  intros Hlen. rewrite merge_greedy. by rewrite (merge_loop_scan _ [] ids).
Qed.

(** C4. [_merge] returns the greedy left-to-right scan of its input: where the
    pair [(a, b)] stands at positions [i], [i+1] the output gets one
    replacement ID and the scan resumes at [i+2] (so an occurrence starting at
    [i+1] is passed over); elsewhere one token is copied and the scan resumes
    at [i+1].  The result is a new list; the argument [ids] is only read. *)
Theorem C4_merge_is_greedy_scan (ids : list Z) (pair : Z * Z) (idx : Z) :
  _merge ids pair idx = greedy_replace pair idx ids
  /\ _merge [] pair idx = []
  /\ (forall x, _merge [x] pair idx = [x])
  /\ (forall rest, _merge (pair.1 :: pair.2 :: rest) pair idx
                   = idx :: _merge rest pair idx)
  /\ (forall x y rest, (x, y) <> pair ->
        _merge (x :: y :: rest) pair idx = x :: _merge (y :: rest) pair idx).
Proof.
  split; [apply merge_greedy|]. split; [by rewrite merge_greedy|].
  split; [intros x; by rewrite merge_greedy|]. split.
  - intros rest. rewrite !merge_greedy.
    change (greedy_replace pair idx (pair.1 :: pair.2 :: rest))
      with (if bool_decide (pair.1 = pair.1) && bool_decide (pair.2 = pair.2)
            then idx :: greedy_replace pair idx rest
            else pair.1 :: greedy_replace pair idx (pair.2 :: rest)).
    by rewrite !bool_decide_eq_true_2.
  - intros x y rest Hne. rewrite !merge_greedy.
    change (greedy_replace pair idx (x :: y :: rest))
      with (if bool_decide (x = pair.1) && bool_decide (y = pair.2)
            then idx :: greedy_replace pair idx rest
            else x :: greedy_replace pair idx (y :: rest)).
    destruct (bool_decide (x = pair.1) && bool_decide (y = pair.2)) eqn:E; [|done].
    apply andb_true_iff in E as [E1 E2].
    apply bool_decide_eq_true in E1, E2. destruct pair; simpl in *; congruence.
Qed.

Example merge_overlap : _merge [1; 1; 1; 2; 1; 1] (1, 1) 9 = [9; 1; 2; 9].
Proof. reflexivity. Qed.

(* ===================================================================== *)
(** ** Pair statistics *)
(* ===================================================================== *)

Lemma adjacent_pairs_cons a b l : adjacent_pairs (a :: b :: l) = (a, b) :: adjacent_pairs (b :: l).
Proof. reflexivity. Qed.

Lemma adjacent_pairs_lookup ids j a b :
  adjacent_pairs ids !! j = Some (a, b) <-> ids !! j = Some a /\ ids !! S j = Some b.
Proof.
  unfold adjacent_pairs. rewrite lookup_zip_with_Some. rewrite lookup_drop. simpl.
  split.
  - intros (x & y & [= -> ->] & ? & ?). done.
  - intros [? ?]. by exists a, b.
Qed.

Lemma adjacent_pairs_length ids : length (adjacent_pairs ids) = (length ids - 1)%nat.
Proof. unfold adjacent_pairs. rewrite length_zip_with, length_drop. lia. Qed.

Lemma adjacent_pairs_elem ids a b :
  (a, b) ∈ adjacent_pairs ids -> a ∈ ids /\ b ∈ ids.
Proof.
  intros [j Hj]%list_elem_of_lookup. apply adjacent_pairs_lookup in Hj as [H1 H2].
  split; eapply list_elem_of_lookup_2; eauto.
Qed.

Lemma occurrences_nonneg p l : 0 <= occurrences p l.
Proof. unfold occurrences. lia. Qed.

Lemma occurrences_snoc p q l :
  occurrences p (l ++ [q]) = occurrences p l + (if decide (q = p) then 1 else 0).
Proof.
  unfold occurrences. rewrite filter_app, length_app.
  rewrite filter_cons, filter_nil. destruct (decide (q = p)); simpl; lia.
Qed.

Lemma occurrences_pos p l : p ∈ l <-> 0 < occurrences p l.
Proof.
  unfold occurrences. split.
  - intros Hin. assert (p ∈ filter (fun q => q = p) l) as Hf
      by (apply list_elem_of_filter; done).
    destruct (filter _ l); [by apply elem_of_nil in Hf | simpl; lia].
  - intros Hpos. destruct (filter (fun q => q = p) l) as [|x f] eqn:E; [simpl in *; lia|].
    assert (x ∈ filter (fun q => q = p) l) as Hx by (rewrite E; apply list_elem_of_here).
    apply list_elem_of_filter in Hx as [-> ?]. done.
Qed.

Lemma count_pair_get_eq counts p :
  dict_get (count_pair counts p) p = Some (default 0 (dict_get counts p) + 1).
Proof. apply dict_get_set_eq. Qed.

Lemma count_pair_get_ne counts p q :
  p <> q -> dict_get (count_pair counts p) q = dict_get counts q.
Proof. apply dict_get_set_ne. Qed.

Lemma stats_snoc l p :
  fold_left count_pair (l ++ [p]) [] = count_pair (fold_left count_pair l []) p.
Proof. by rewrite fold_left_app. Qed.

(** The count stored for a pair is the number of its occurrences; a pair
    that does not occur has no entry. *)
Lemma stats_lookup l q :
  dict_get (fold_left count_pair l []) q
  = if decide (q ∈ l) then Some (occurrences q l) else None.
Proof.
  induction l as [|p l IH] using rev_ind.
  - simpl. destruct (decide (q ∈ [])) as [Hin|_]; [by apply elem_of_nil in Hin | done].
  - rewrite stats_snoc, occurrences_snoc.
    destruct (decide (p = q)) as [->|Hne].
    + rewrite count_pair_get_eq, IH.
      destruct (decide (q ∈ l ++ [q])) as [_|Hn].
      2:{ exfalso. apply Hn, elem_of_app. right. apply list_elem_of_here. }
      destruct (decide (q ∈ l)) as [Hin|Hnin]; simpl; [done|].
      apply (not_iff_compat (occurrences_pos q l)) in Hnin.
      pose proof (occurrences_nonneg q l). f_equal. lia.
    + rewrite count_pair_get_ne, IH by done.
      rewrite Z.add_0_r.
      destruct (decide (q ∈ l)) as [Hin|Hnin]; destruct (decide (q ∈ l ++ [p])) as [Hin'|Hnin'];
        try done.
      * exfalso. apply Hnin', elem_of_app. by left.
      * exfalso. apply elem_of_app in Hin' as [?|Hin']; [done|].
        apply list_elem_of_singleton in Hin'. congruence.
Qed.

Lemma stats_count_occurrences ids q :
  stats_count (_get_stats ids) q = occurrences q (adjacent_pairs ids).
Proof.
  unfold stats_count, _get_stats. rewrite stats_lookup.
  destruct (decide (q ∈ adjacent_pairs ids)) as [Hin|Hnin]; simpl; [done|].
  apply (not_iff_compat (occurrences_pos q _)) in Hnin.
  pose proof (occurrences_nonneg q (adjacent_pairs ids)). lia.
Qed.

Lemma stats_keys_elem l q : q ∈ dict_keys (fold_left count_pair l []) <-> q ∈ l.
Proof.
  rewrite <- dict_get_is_Some, stats_lookup.
  destruct (decide (q ∈ l)); split; intros H; try done; eauto; by destruct H.
Qed.

(** A pair seen for the first time goes to the end of the statistics; a pair
    seen before keeps its place. *)
Lemma stats_keys_snoc l p :
  dict_keys (fold_left count_pair (l ++ [p]) [])
  = if decide (p ∈ l) then dict_keys (fold_left count_pair l [])
    else dict_keys (fold_left count_pair l []) ++ [p].
Proof.
  rewrite stats_snoc. pose proof (stats_lookup l p) as Hl.
  destruct (decide (p ∈ l)) as [Hin|Hnin].
  - apply dict_set_keys_present. rewrite Hl. eauto.
  - unfold count_pair at 1. rewrite dict_set_fresh by done.
    unfold dict_keys. by rewrite fmap_app.
Qed.

(** The statistics list the pairs in the order of their first occurrence:
    whatever comes before the first occurrence of a key comes before the
    key in the statistics. *)
Lemma stats_keys_split l K1 p K2 :
  dict_keys (fold_left count_pair l []) = K1 ++ p :: K2 ->
  exists l1 l2, l = l1 ++ p :: l2 /\ (p ∉ l1) /\ (forall x, x ∈ l1 -> x ∈ K1).
Proof.
  revert K2. induction l as [|x l IH] using rev_ind; intros K2 HK.
  - simpl in HK. by destruct K1.
  - rewrite stats_keys_snoc in HK. destruct (decide (x ∈ l)) as [Hin|Hnin].
    + destruct (IH _ HK) as (l1 & l2 & -> & Hp & Hsub).
      exists l1, (l2 ++ [x]). by rewrite <- app_assoc.
    + destruct K2 as [|k K2 _] using rev_ind.
      * apply app_inj_tail in HK as [HK ->].
        exists l, []. split; [done|]. split; [done|].
        intros y Hy. rewrite <- HK. by apply stats_keys_elem.
      * rewrite app_comm_cons, app_assoc in HK. apply app_inj_tail in HK as [HK ->].
        destruct (IH _ HK) as (l1 & l2 & -> & Hp & Hsub).
        exists l1, (l2 ++ [k]). by rewrite <- app_assoc.
Qed.

Lemma stats_nonempty ids : (2 <= length ids)%nat -> _get_stats ids <> [].
Proof.
  intros Hlen. destruct ids as [|a [|b ids]]; simpl in Hlen; try lia.
  intros Hnil. assert ((a, b) ∈ dict_keys (_get_stats (a :: b :: ids))) as Hin.
  { apply stats_keys_elem. rewrite adjacent_pairs_cons. apply list_elem_of_here. }
  rewrite Hnil in Hin. by apply elem_of_nil in Hin.
Qed.

Lemma stats_empty ids : (length ids < 2)%nat -> _get_stats ids = [].
Proof. destruct ids as [|a [|b ids]]; simpl; intros; try done; lia. Qed.

(* ===================================================================== *)
(** ** The first best item *)
(* ===================================================================== *)

Section extremum_facts.
Context {A B : Type} (key : A -> B) (better : B -> B -> bool).
Hypothesis better_trans :
  forall a b c, better a b = true -> better b c = true -> better a c = true.
Hypothesis better_negtrans :
  forall a b c, better a b = false -> better b c = false -> better a c = false.

Lemma better_left a b c : better a b = true -> better c b = false -> better a c = true.
Proof.
  intros Hab Hcb. destruct (better a c) eqn:E; [done|].
  by rewrite (better_negtrans _ _ _ E Hcb) in Hab.
Qed.

Lemma first_best_split best xs :
  let r := first_best key better best xs in
  (r = best /\ forall q, q ∈ xs -> better (key q) (key best) = false)
  \/ (exists K1 K2, xs = K1 ++ r :: K2
        /\ better (key r) (key best) = true
        /\ (forall q, q ∈ K1 -> better (key r) (key q) = true)
        /\ (forall q, q ∈ K2 -> better (key q) (key r) = false)).
Proof.
  revert best. induction xs as [|x xs IH]; intros best; simpl.
  - left. split; [done|]. intros q Hq. by apply elem_of_nil in Hq.
  - destruct (better (key x) (key best)) eqn:E.
    + right. destruct (IH x) as [[Hr Hall]|(K1 & K2 & Hxs & Hb & H1 & H2)].
      * exists [], xs. simpl. rewrite Hr. auto using elem_of_nil.
        split; [done|]. split; [done|]. split; [|done].
        intros q Hq. by apply elem_of_nil in Hq.
      * exists (x :: K1), K2. split; [by rewrite Hxs at 1|].
        split; [eauto|]. split; [|done].
        intros q [->|Hq]%elem_of_cons; auto.
    + destruct (IH best) as [[Hr Hall]|(K1 & K2 & Hxs & Hb & H1 & H2)].
      * left. split; [done|]. intros q [->|Hq]%elem_of_cons; auto.
      * right. exists (x :: K1), K2. split; [by rewrite Hxs at 1|].
        split; [done|]. split; [|done].
        intros q [->|Hq]%elem_of_cons; [|auto]. eapply better_left; eauto.
Qed.

(** [first_extremum] returns an item that beats every item before it and
    that no item after it beats. *)
Lemma first_extremum_split xs r :
  first_extremum key better xs = Some r ->
  exists K1 K2, xs = K1 ++ r :: K2
    /\ (forall q, q ∈ K1 -> better (key r) (key q) = true)
    /\ (forall q, q ∈ K2 -> better (key q) (key r) = false).
Proof.
  destruct xs as [|x xs]; simpl; [done|]. intros [= <-].
  destruct (first_best_split x xs) as [[Hr Hall]|(K1 & K2 & Hxs & Hb & H1 & H2)].
  - exists [], xs. simpl. rewrite Hr. split; [done|]. split; [|done].
    intros q Hq. by apply elem_of_nil in Hq.
  - exists (x :: K1), K2. split; [by rewrite Hxs at 1|]. split; [|done].
    intros q [->|Hq]%elem_of_cons; auto.
Qed.

Lemma first_extremum_is_Some xs : xs <> [] -> is_Some (first_extremum key better xs).
Proof. destruct xs; [done | eauto]. Qed.
End extremum_facts.

Lemma max_pair_split stats p :
  max_pair stats = Some p ->
  exists K1 K2, dict_keys stats = K1 ++ p :: K2
    /\ (forall q, q ∈ K1 -> stats_count stats q < stats_count stats p)
    /\ (forall q, q ∈ K2 -> stats_count stats q <= stats_count stats p).
Proof.
  intros Hmax. apply first_extremum_split in Hmax as (K1 & K2 & HK & H1 & H2).
  - exists K1, K2. split; [done|]. split; intros q Hq.
    + specialize (H1 q Hq). simpl in H1. lia.
    + specialize (H2 q Hq). simpl in H2. lia.
  - intros a b c. simpl. lia.
  - intros a b c. simpl. lia.
Qed.

Lemma rank_lt_trans a b c : rank_lt a b = true -> rank_lt b c = true -> rank_lt a c = true.
Proof. destruct a, b, c; simpl; try done; lia. Qed.

Lemma rank_lt_negtrans a b c :
  rank_lt a b = false -> rank_lt b c = false -> rank_lt a c = false.
Proof. destruct a, b, c; simpl; try done; lia. Qed.

Lemma min_pair_split mg stats p :
  min_pair mg stats = Some p ->
  p ∈ dict_keys stats
  /\ forall q, q ∈ dict_keys stats -> rank_lt (dict_get mg q) (dict_get mg p) = false.
Proof.
  intros Hmin.
  apply (first_extremum_split _ _ rank_lt_trans rank_lt_negtrans)
    in Hmin as (K1 & K2 & HK & H1 & H2).
  rewrite HK. split.
  - apply elem_of_app. right. apply list_elem_of_here.
  - intros q [Hq|[->|Hq]%elem_of_cons]%elem_of_app.
    + specialize (H1 q Hq). destruct (dict_get mg q), (dict_get mg p); simpl in *; try done; lia.
    + destruct (dict_get mg p); simpl; [lia | done].
    + auto.
Qed.

(* ===================================================================== *)
(** ** The pair chosen by a training turn and by an encoding turn *)
(* ===================================================================== *)

Lemma max_pair_is_Some ids :
  (2 <= length ids)%nat -> exists p, max_pair (_get_stats ids) = Some p.
Proof.
  intros Hlen. apply stats_nonempty in Hlen.
  unfold max_pair. destruct (_get_stats ids) as [|[k v] s]; [done|]. simpl. eauto.
Qed.

Lemma train_loop_turn n i ids p :
  max_pair (_get_stats ids) = Some p ->
  train_loop (S n) i ids
  = (record_merge p (256 + i) ;;; train_loop n (i + 1) (_merge ids p (256 + i))).
Proof.
  intros Hmax. simpl. rewrite Hmax.
  destruct (_get_stats ids); [done|]. done.
Qed.

(** C3. A training turn on a sequence of at least two tokens merges the pair
    [p] that [max] picks from the statistics: [p] stands at some position [k];
    its count is the number of its adjacent occurrences and no pair has a
    larger count; and every position where a pair with the same count stands
    is at or after [k], so among the most frequent pairs [p] is the one whose
    first occurrence is leftmost. *)
Theorem C3_train_selects_most_frequent_leftmost
    (ids : list Z) (n : nat) (i : Z) :
  (2 <= length ids)%nat ->
  exists (p : Z * Z) (k : nat),
    max_pair (_get_stats ids) = Some p
    /\ train_loop (S n) i ids
       = (record_merge p (256 + i) ;;; train_loop n (i + 1) (_merge ids p (256 + i)))
    /\ ids !! k = Some p.1 /\ ids !! S k = Some p.2
    /\ dict_get (_get_stats ids) p = Some (occurrences p (adjacent_pairs ids))
    /\ (forall q c, dict_get (_get_stats ids) q = Some c ->
          c = occurrences q (adjacent_pairs ids)
          /\ c <= occurrences p (adjacent_pairs ids))
    /\ (forall j a b, ids !! j = Some a -> ids !! S j = Some b ->
          occurrences (a, b) (adjacent_pairs ids) = occurrences p (adjacent_pairs ids) ->
          (k <= j)%nat).
Proof.
  intros Hlen. destruct (max_pair_is_Some ids Hlen) as [p Hmax].
  destruct (max_pair_split _ _ Hmax) as (K1 & K2 & HK & Hbefore & Hafter).
  destruct (stats_keys_split _ _ _ _ HK) as (l1 & l2 & Hl & Hp1 & Hsub).
  assert (p ∈ adjacent_pairs ids) as Hpin.
  { rewrite Hl. apply elem_of_app. right. apply list_elem_of_here. }
  assert (forall q, q ∈ adjacent_pairs ids ->
            occurrences q (adjacent_pairs ids) <= occurrences p (adjacent_pairs ids)) as Hmaxocc.
  { intros q Hq. apply (proj2 (stats_keys_elem _ _)) in Hq. fold (_get_stats ids) in Hq.
    rewrite HK in Hq. rewrite <- !stats_count_occurrences.
    apply elem_of_app in Hq as [Hq|[->|Hq]%elem_of_cons].
    - specialize (Hbefore q Hq). lia.
    - lia.
    - auto. }
  exists p, (length l1). split; [done|]. split; [by apply train_loop_turn|].
  assert (adjacent_pairs ids !! length l1 = Some p) as Hk.
  { rewrite Hl. rewrite lookup_app_r, Nat.sub_diag by lia. done. }
  destruct p as [pa pb]. apply adjacent_pairs_lookup in Hk as [Hk1 Hk2].
  split; [done|]. split; [done|]. split.
  { unfold _get_stats. rewrite stats_lookup. by rewrite decide_True. }
  split.
  - intros q c Hq. unfold _get_stats in Hq. rewrite stats_lookup in Hq.
    destruct (decide (q ∈ adjacent_pairs ids)) as [Hin|]; [|done].
    injection Hq as <-. split; [done|]. auto.
  - intros j a b Ha Hb Hocc.
    destruct (decide (length l1 <= j)%nat) as [|Hlt]; [done|]. exfalso.
    assert (adjacent_pairs ids !! j = Some (a, b)) as Hj
      by (apply adjacent_pairs_lookup; done).
    rewrite Hl in Hj. rewrite lookup_app_l in Hj by lia.
    apply list_elem_of_lookup_2, Hsub, Hbefore in Hj.
    rewrite !stats_count_occurrences in Hj. lia.
Qed.

Lemma C3_witness :
  exists (p : Z * Z) (k : nat),
    max_pair (_get_stats [1; 2; 3; 4; 3; 4; 1; 2]) = Some p
    /\ train_loop 1 0 [1; 2; 3; 4; 3; 4; 1; 2]
       = (record_merge p (256 + 0) ;;;
          train_loop 0 (0 + 1) (_merge [1; 2; 3; 4; 3; 4; 1; 2] p (256 + 0)))
    /\ [1; 2; 3; 4; 3; 4; 1; 2] !! k = Some p.1
    /\ [1; 2; 3; 4; 3; 4; 1; 2] !! S k = Some p.2
    /\ dict_get (_get_stats [1; 2; 3; 4; 3; 4; 1; 2]) p
       = Some (occurrences p (adjacent_pairs [1; 2; 3; 4; 3; 4; 1; 2]))
    /\ (forall q c, dict_get (_get_stats [1; 2; 3; 4; 3; 4; 1; 2]) q = Some c ->
          c = occurrences q (adjacent_pairs [1; 2; 3; 4; 3; 4; 1; 2])
          /\ c <= occurrences p (adjacent_pairs [1; 2; 3; 4; 3; 4; 1; 2]))
    /\ (forall j a b, [1; 2; 3; 4; 3; 4; 1; 2] !! j = Some a ->
          [1; 2; 3; 4; 3; 4; 1; 2] !! S j = Some b ->
          occurrences (a, b) (adjacent_pairs [1; 2; 3; 4; 3; 4; 1; 2])
          = occurrences p (adjacent_pairs [1; 2; 3; 4; 3; 4; 1; 2]) ->
          (k <= j)%nat).
Proof.
  apply (C3_train_selects_most_frequent_leftmost [1; 2; 3; 4; 3; 4; 1; 2] 0 0).
  simpl. lia.
Defined.

(** Ties go to the pair met first: [(1, 2)] and [(3, 4)] both occur twice. *)
Example max_pair_tie : max_pair (_get_stats [1; 2; 3; 4; 3; 4; 1; 2]) = Some (1, 2).
Proof. reflexivity. Qed.

Lemma min_pair_is_Some mg tokens :
  (2 <= length tokens)%nat -> exists p, min_pair mg (_get_stats tokens) = Some p.
Proof.
  intros Hlen. apply stats_nonempty in Hlen.
  unfold min_pair. destruct (_get_stats tokens) as [|[k v] s]; [done|]. simpl. eauto.
Qed.

(** The earliest-learned merge wins although [(5, 6)] is the more frequent
    pair of this input. *)
Example min_pair_priority :
  min_pair [((1, 2), 256); ((5, 6), 257)] (_get_stats [5; 6; 5; 6; 1; 2]) = Some (1, 2).
Proof. reflexivity. Qed.

(* ===================================================================== *)
(** ** UTF-8: encoding, then decoding *)
(* ===================================================================== *)

Ltac split_tests :=
  repeat match goal with
    | |- context [?a <? ?b] => destruct (Z.ltb_spec a b); try lia
    | |- context [?a <=? ?b] => destruct (Z.leb_spec a b); try lia
    | |- context [?a =? ?b] => destruct (Z.eqb_spec a b); try lia
    | H : context [?a <? ?b] |- _ => destruct (Z.ltb_spec a b); try lia
    | H : context [?a <=? ?b] |- _ => destruct (Z.leb_spec a b); try lia
    | H : context [?a =? ?b] |- _ => destruct (Z.eqb_spec a b); try lia
    end; simpl in *.

Lemma utf8_encode_char_range c bs :
  utf8_encode_char c = Some bs -> Forall (fun b => 0 <= b < 256) bs.
Proof.
  unfold utf8_encode_char, is_code_point, is_surrogate.
  intros H. split_tests; try done; injection H as <-;
    repeat (apply Forall_cons; split); try (by constructor);
    Z.div_mod_to_equations; lia.
Qed.

Lemma utf8_encode_range text bs :
  utf8_encode text = Some bs -> Forall (fun b => 0 <= b < 256) bs.
Proof.
  revert bs. induction text as [|c text IH]; intros bs; simpl.
  - intros [= <-]. constructor.
  - destruct (utf8_encode_char c) as [w|] eqn:Ew; [|done].
    destruct (utf8_encode text) as [rest|]; [|done]. intros [= <-].
    apply Forall_app. split; [by eapply utf8_encode_char_range | auto].
Qed.

(** The decoder reads back the bytes of one code point and goes on behind
    them. *)
Lemma utf8_decode_encode_char c w rest :
  utf8_encode_char c = Some w ->
  utf8_decode_replace (w ++ rest) = c :: utf8_decode_replace rest.
Proof.
  unfold utf8_encode_char, is_code_point, is_surrogate.
  intros H. split_tests; try done; injection H as <-;
    cbn [app utf8_decode_replace];
    unfold second_of_three, second_of_four, is_continuation;
    Z.div_mod_to_equations; split_tests; f_equal; lia.
Qed.

Lemma utf8_decode_encode text bs :
  utf8_encode text = Some bs -> utf8_decode_replace bs = text.
Proof.
  revert bs. induction text as [|c text IH]; intros bs; simpl.
  - by intros [= <-].
  - destruct (utf8_encode_char c) as [w|] eqn:Ew; [|done].
    destruct (utf8_encode text) as [rest|]; [|done]. intros [= <-].
    rewrite (utf8_decode_encode_char c) by done. f_equal. auto.
Qed.

(* ===================================================================== *)
(** ** What a merge pass does to the sequence *)
(* ===================================================================== *)

Lemma dict_get_app {K V} `{EqDecision K} (d e : list (K * V)) k :
  dict_get (d ++ e) k
  = match dict_get d k with Some v => Some v | None => dict_get e k end.
Proof.
  induction d as [|[k' v'] d IH]; simpl; [done|].
  destruct (decide (k' = k)); done.
Qed.

Lemma greedy_replace_cons2 pair idx a b l :
  greedy_replace pair idx (a :: b :: l)
  = if bool_decide (a = pair.1) && bool_decide (b = pair.2)
    then idx :: greedy_replace pair idx l
    else a :: greedy_replace pair idx (b :: l).
Proof. reflexivity. Qed.

Lemma pair_test (pair : Z * Z) a b :
  bool_decide (a = pair.1) && bool_decide (b = pair.2) = bool_decide ((a, b) = pair).
Proof.
  destruct pair as [x y]. simpl.
  destruct (decide (a = x)) as [->|]; destruct (decide (b = y)) as [->|];
    repeat first [rewrite bool_decide_eq_true_2 by congruence
                 | rewrite bool_decide_eq_false_2 by congruence]; done.
Qed.

Lemma greedy_replace_elem pair idx ids x :
  x ∈ greedy_replace pair idx ids -> x = idx \/ x ∈ ids.
Proof.
  induction ids as [| a | a b l IH1 IH2] using list_ind2.
  - simpl. auto.
  - simpl. auto.
  - rewrite greedy_replace_cons2.
    destruct (bool_decide (a = pair.1) && bool_decide (b = pair.2)).
    + intros [->|Hx]%elem_of_cons; [by left|].
      destruct (IH1 Hx) as [?|?]; [by left|]. right.
      by do 2 apply list_elem_of_further.
    + intros [->|Hx]%elem_of_cons; [right; apply list_elem_of_here|].
      destruct (IH2 Hx) as [?|?]; [by left|]. right. by apply list_elem_of_further.
Qed.

Lemma greedy_replace_nil pair idx ids : greedy_replace pair idx ids = [] <-> ids = [].
Proof.
  destruct ids as [|a [|b l]]; simpl; [done | done |].
  destruct (bool_decide (a = pair.1) && bool_decide (b = pair.2)); done.
Qed.

(** A pass over a sequence in which the pair stands makes it shorter. *)
Lemma greedy_replace_shorter pair idx ids :
  pair ∈ adjacent_pairs ids ->
  (length (greedy_replace pair idx ids) < length ids)%nat.
Proof.
  induction ids as [| a | a b l IH1 IH2] using list_ind2.
  - intros H. by apply elem_of_nil in H.
  - intros H. by apply elem_of_nil in H.
  - rewrite adjacent_pairs_cons, greedy_replace_cons2, pair_test.
    destruct (decide ((a, b) = pair)) as [Heq|Hne].
    + intros _. rewrite bool_decide_eq_true_2 by done. simpl.
      pose proof (greedy_replace_length pair idx l). lia.
    + rewrite bool_decide_eq_false_2 by done.
      intros [?|Hin]%elem_of_cons; [congruence|]. specialize (IH2 Hin). simpl in *. lia.
Qed.

Lemma adjacent_pairs_head x l q :
  q ∈ adjacent_pairs (x :: l) ->
  (exists y l', l = y :: l' /\ q = (x, y)) \/ q ∈ adjacent_pairs l.
Proof.
  destruct l as [|y l']; [intros H; by apply elem_of_nil in H|].
  rewrite adjacent_pairs_cons. intros [->|Hin]%elem_of_cons; eauto.
Qed.

Lemma adjacent_pairs_further x l q :
  q ∈ adjacent_pairs l -> q ∈ adjacent_pairs (x :: l).
Proof.
  destruct l as [|y l']; [done|]. rewrite adjacent_pairs_cons.
  apply list_elem_of_further.
Qed.

Lemma greedy_replace_head pair idx b l y l' :
  greedy_replace pair idx (b :: l) = y :: l' -> y = idx \/ y = b.
Proof.
  destruct l as [|c l]; simpl.
  - intros [= <- _]. by right.
  - destruct (bool_decide (b = pair.1) && bool_decide (c = pair.2));
      intros [= <- _]; auto.
Qed.

(** Two tokens that stand side by side after a pass, neither of them the new
    ID, stood side by side before it, and they are not the merged pair. *)
Lemma adjacent_after_merge pair idx ids q :
  q ∈ adjacent_pairs (greedy_replace pair idx ids) ->
  q.1 <> idx -> q.2 <> idx ->
  q ∈ adjacent_pairs ids /\ q <> pair.
Proof.
  intros Hq H1 H2. revert Hq.
  induction ids as [| a | a b l IH1 IH2] using list_ind2.
  - intros H. by apply elem_of_nil in H.
  - intros H. by apply elem_of_nil in H.
  - rewrite greedy_replace_cons2, pair_test, adjacent_pairs_cons.
    destruct (decide ((a, b) = pair)) as [Heq|Hne].
    + rewrite bool_decide_eq_true_2 by done.
      intros [(y & l' & _ & ->)|Hin]%adjacent_pairs_head; [done|].
      destruct (IH1 Hin) as [Hin' Hne]. split; [|done].
      by apply list_elem_of_further, adjacent_pairs_further.
    + rewrite bool_decide_eq_false_2 by done.
      intros [(y & l' & Hg & ->)|Hin]%adjacent_pairs_head.
      * apply greedy_replace_head in Hg as [->| ->]; [done|].
        split; [apply list_elem_of_here | congruence].
      * destruct (IH2 Hin) as [Hin' Hne']. split; [|done].
        by apply list_elem_of_further.
Qed.

(* ===================================================================== *)
(** ** The training loop keeps its invariant *)
(* ===================================================================== *)

Lemma seqZ_snoc m n : 0 <= n -> seqZ m (n + 1) = seqZ m n ++ [m + n].
Proof. intros Hn. rewrite seqZ_app by lia. done. Qed.

Lemma dict_keys_fmap_key {V} (f : Z -> V) (l : list Z) :
  dict_keys ((fun i => (i, f i)) <$> l) = l.
Proof. unfold dict_keys. induction l; simpl; [done | by f_equal]. Qed.

Lemma initial_vocab_items :
  initial_vocab = (fun idx => (idx, [byte_of_Z idx])) <$> seqZ 0 256.
Proof.
  unfold initial_vocab. apply dict_of_items_NoDup.
  rewrite (dict_keys_fmap_key (fun i => [byte_of_Z i])). apply NoDup_seqZ.
Qed.

Lemma dict_get_fmap_key {V} (f : Z -> V) (l : list Z) b :
  b ∈ l -> dict_get ((fun i => (i, f i)) <$> l) b = Some (f b).
Proof.
  induction l as [|x l IH]; [intros H; by apply elem_of_nil in H|].
  simpl. destruct (decide (x = b)) as [->|Hne]; [done|].
  intros [?|Hin]%elem_of_cons; [congruence | auto].
Qed.

Lemma trained_initial : trained 0 (Tokenizer initial_vocab []).
Proof.
  split; cbn [vocab merges].
  - lia.
  - rewrite initial_vocab_items.
    by rewrite (dict_keys_fmap_key (fun i => [byte_of_Z i])).
  - intros b Hb. rewrite initial_vocab_items.
    apply (dict_get_fmap_key (fun i => [byte_of_Z i])). apply elem_of_seqZ. lia.
  - done.
  - apply NoDup_nil_2.
  - intros p v Hp. done.
Qed.

Lemma trained_in_vocab k self t :
  trained k self -> 0 <= t < 256 + k -> is_Some (dict_get (vocab self) t).
Proof.
  intros Ht Hr. apply dict_get_is_Some. rewrite (trained_vocab_keys _ _ Ht).
  apply elem_of_seqZ. lia.
Qed.

Lemma trained_fresh_id k self : trained k self -> dict_get (vocab self) (256 + k) = None.
Proof.
  intros Ht. apply dict_get_None. rewrite (trained_vocab_keys _ _ Ht).
  rewrite elem_of_seqZ. lia.
Qed.

(** One recorded merge: both tables grow by one item at their end. *)
Lemma record_merge_training k ids self p :
  training k ids self -> p ∈ adjacent_pairs ids ->
  exists l r,
    dict_get (vocab self) p.1 = Some l /\ dict_get (vocab self) p.2 = Some r
    /\ record_merge p (256 + k) self
       = (Ok tt, Tokenizer (vocab self ++ [(256 + k, l ++ r)])
                           (merges self ++ [(p, 256 + k)]))
    /\ training (k + 1) (_merge ids p (256 + k))
         (Tokenizer (vocab self ++ [(256 + k, l ++ r)]) (merges self ++ [(p, 256 + k)])).
Proof.
  intros (Ht & Hids & Hgone) Hp.
  pose proof (trained_nonneg _ _ Ht) as Hk.
  destruct p as [a b]. destruct (adjacent_pairs_elem _ _ _ Hp) as [Ha Hb].
  rewrite Forall_forall in Hids.
  pose proof (Hids a Ha) as Hra. pose proof (Hids b Hb) as Hrb.
  destruct (trained_in_vocab _ _ a Ht Hra) as [l Hl].
  destruct (trained_in_vocab _ _ b Ht Hrb) as [r Hr].
  assert (dict_get (merges self) (a, b) = None) as Hnew.
  { destruct (dict_get (merges self) (a, b)) eqn:E; [|done].
    exfalso. apply (Hgone (a, b)); eauto. }
  pose proof (trained_fresh_id _ _ Ht) as Hfresh.
  exists l, r. split; [done|]. split; [done|]. split.
  { unfold record_merge, bind, get_merges, set_merges, get_vocab, set_vocab, lift, subscript.
    simpl. rewrite Hl, Hr. simpl. by rewrite !dict_set_fresh. }
  split; [split; simpl|split].
  - lia.
  - unfold dict_keys. rewrite fmap_app, Z.add_assoc, seqZ_snoc by lia.
    f_equal. apply (trained_vocab_keys _ _ Ht).
  - intros c Hc. rewrite dict_get_app, (trained_bytes _ _ Ht) by done. done.
  - unfold dict_values. rewrite fmap_app, seqZ_snoc by lia.
    f_equal. apply (trained_merge_values _ _ Ht).
  - unfold dict_keys. rewrite fmap_app. apply NoDup_app. split; [apply Ht|].
    split; [|apply NoDup_singleton].
    intros q Hq [= ->]%list_elem_of_singleton. by apply dict_get_None in Hnew.
  - intros q v. rewrite dict_get_app.
    destruct (dict_get (merges self) q) as [v'|] eqn:Eq.
    + intros [= <-]. destruct (trained_expansion _ _ Ht _ _ Eq) as (H1 & H2 & l' & r' & E1 & E2 & E3).
      split; [done|]. split; [done|]. exists l', r'.
      rewrite !dict_get_app, E1, E2, E3. done.
    + simpl. destruct (decide ((a, b) = q)) as [<-|]; [|done]. intros [= <-].
      simpl. split; [lia|]. split; [lia|]. exists l, r.
      rewrite !dict_get_app, Hl, Hr, Hfresh. simpl. by rewrite decide_True.
  - rewrite merge_greedy. apply Forall_forall. intros t Ht'.
    apply greedy_replace_elem in Ht' as [->|Hin]; [lia|].
    specialize (Hids t Hin). lia.
  - simpl. intros q [v Hq] Hadj. rewrite merge_greedy in Hadj.
    rewrite dict_get_app in Hq.
    assert (q.1 < 256 + k /\ q.2 < 256 + k
            /\ (is_Some (dict_get (merges self) q) \/ q = (a, b))) as (Hq1 & Hq2 & Hcase).
    { destruct (dict_get (merges self) q) as [v'|] eqn:Eq.
      - destruct (trained_expansion _ _ Ht _ _ Eq) as (H1 & H2 & _).
        assert (v' ∈ dict_values (merges self)) as Hv.
        { apply dict_get_Some_elem in Eq. unfold dict_values.
          apply list_elem_of_fmap. by exists (q, v'). }
        rewrite (trained_merge_values _ _ Ht), elem_of_seqZ in Hv.
        split; [lia|]. split; [lia|]. left. eauto.
      - simpl in Hq. destruct (decide ((a, b) = q)) as [<-|]; [|done].
        simpl. split; [lia|]. split; [lia|]. by right. }
    destruct (adjacent_after_merge _ _ _ _ Hadj) as [Hold Hne]; [lia | lia |].
    destruct Hcase as [Hs| ->]; [|done]. by apply (Hgone q).
Qed.

(** The loop runs to its end without an exception and keeps the invariant;
    it records at most [n] merges, and at least one exactly when it has a
    turn to take and two tokens to look at. *)
Lemma train_loop_training n i ids self :
  training i ids self ->
  exists ids' self' k,
    train_loop n i ids self = (Ok ids', self')
    /\ training k ids' self'
    /\ i <= k <= i + Z.of_nat n
    /\ (ids' = [] <-> ids = [])
    /\ (i < k <-> (0 < n)%nat /\ (2 <= length ids)%nat).
Proof.
  revert i ids self. induction n as [|n IH]; intros i ids self Hinv.
  - exists ids, self, i. simpl. split; [done|]. split; [done|]. split; [lia|].
    split; [done | lia].
  - destruct (decide (2 <= length ids)%nat) as [Hlen|Hlen].
    + destruct (max_pair_is_Some ids Hlen) as [p Hmax].
      rewrite (train_loop_turn _ _ _ _ Hmax).
      assert (p ∈ adjacent_pairs ids) as Hp.
      { destruct (max_pair_split _ _ Hmax) as (K1 & K2 & HK & _).
        apply (proj1 (stats_keys_elem _ _)). fold (_get_stats ids). rewrite HK.
        apply elem_of_app. right. apply list_elem_of_here. }
      destruct (record_merge_training _ _ _ _ Hinv Hp) as (l & r & _ & _ & Hrec & Hinv').
      destruct (IH _ _ _ Hinv') as (ids' & self' & k & Hrun & Hk & Hbound & Hnil & _).
      exists ids', self', k. split.
      { unfold bind. rewrite Hrec. exact Hrun. }
      split; [done|]. split; [lia|]. split; [|lia].
      rewrite Hnil, merge_greedy. apply greedy_replace_nil.
    + exists ids, self, i. split.
      { cbn [train_loop]. rewrite stats_empty by lia. done. }
      split; [done|]. split; [lia|]. split; [done | lia].
Qed.

(* ===================================================================== *)
(** ** The outcomes of [train] *)
(* ===================================================================== *)

Lemma utf8_encode_nil text bs : utf8_encode text = Some bs -> (bs = [] <-> text = []).
Proof.
  destruct text as [|c text]; simpl.
  - by intros [= <-].
  - destruct (utf8_encode_char c) as [w|] eqn:Ew; [|done].
    destruct (utf8_encode text) as [rest|]; [|done]. intros [= <-].
    split; [|done]. intros Happ. apply app_eq_nil in Happ as [-> _].
    unfold utf8_encode_char in Ew.
    repeat match type of Ew with (if ?c then _ else _) = _ => destruct c end; done.
Qed.

Lemma valid_text_encode text : valid_text text <-> is_Some (utf8_encode text).
Proof.
  unfold valid_text. induction text as [|c text IH]; simpl.
  - split; [eauto | constructor].
  - rewrite Forall_cons, IH. unfold utf8_encode_char.
    destruct (is_code_point c); destruct (is_surrogate c); simpl.
    + split; [intros [? _]; done | intros [? ?]; done].
    + destruct (utf8_encode text).
      * split; [|done].
        intros _. repeat match goal with |- context [if ?c then _ else _] => destruct c end; eauto.
      * split; [intros [_ [? ?]]; done|].
        repeat match goal with |- context [if ?c then _ else _] => destruct c end;
          intros [? ?]; done.
    + split; [intros [? _]; done | intros [? ?]; done].
    + split; [intros [? _]; done | intros [? ?]; done].
Qed.

(** [train] fails its size check, or fails to encode the text, or sets the
    tables and runs the loop to its end; then only the closing report can
    fail, which it does when there is no token. *)
Lemma train_run text vocab_size self :
  (vocab_size < 256 /\ train text vocab_size self = (Raise ValueError, self))
  \/ (256 <= vocab_size /\ utf8_encode text = None
      /\ train text vocab_size self = (Raise UnicodeEncodeError, self))
  \/ (256 <= vocab_size
      /\ exists bs ids' self' k,
           utf8_encode text = Some bs
           /\ train_loop (Z.to_nat (vocab_size - 256)) 0 bs (Tokenizer initial_vocab [])
              = (Ok ids', self')
           /\ training k ids' self'
           /\ 0 <= k <= vocab_size - 256
           /\ (ids' = [] <-> text = [])
           /\ (0 < k <-> 257 <= vocab_size /\ (2 <= length bs)%nat)
           /\ train text vocab_size self
              = (if bool_decide (length ids' = 0%nat)
                 then Raise ZeroDivisionError else Ok tt, self')).
Proof.
  unfold train. destruct (Z.ltb_spec vocab_size 256) as [Hlt|Hge]; [by left|].
  right. unfold bind, lift, encode_utf8, set_vocab, set_merges. cbn [vocab merges].
  destruct (utf8_encode text) as [bs|] eqn:Ebs; [|by left].
  right. split; [done|].
  assert (training 0 bs (Tokenizer initial_vocab [])) as Hinit.
  { split; [apply trained_initial|]. split.
    - apply utf8_encode_range in Ebs. eapply Forall_impl; [exact Ebs|].
      intros b Hb. simpl in Hb. lia.
    - intros p [v Hv]. done. }
  destruct (train_loop_training (Z.to_nat (vocab_size - 256)) _ _ _ Hinit)
    as (ids' & self' & k & Hrun & Hinv & Hk & Hnil & Hpos).
  exists bs, ids', self', k. split; [done|]. split; [done|]. split; [done|].
  split; [lia|]. split.
  { rewrite Hnil. by apply utf8_encode_nil. }
  split; [rewrite Hpos; lia|].
  rewrite Hrun. destruct (bool_decide (length ids' = 0%nat)); done.
Qed.

Lemma train_success text vocab_size self self' :
  train text vocab_size self = (Ok tt, self') ->
  256 <= vocab_size /\ text <> [] /\ valid_text text
  /\ exists k, trained k self' /\ 0 <= k <= vocab_size - 256
       /\ (0 < k <-> 257 <= vocab_size
                      /\ exists bs, utf8_encode text = Some bs /\ (2 <= length bs)%nat).
Proof.
  intros Htrain.
  destruct (train_run text vocab_size self)
    as [[_ H]|[(_ & _ & H)
              |(Hge & bs & ids' & s & k & Ebs & _ & Hinv & Hk & Hnil & Hpos & H)]];
    rewrite H in Htrain; try done.
  destruct (bool_decide (length ids' = 0%nat)) eqn:E; [done|].
  injection Htrain as <-. apply bool_decide_eq_false in E.
  split; [done|]. split.
  { intros Ht. apply Hnil in Ht. subst ids'. done. }
  split; [apply valid_text_encode; rewrite Ebs; eauto|].
  exists k. split; [apply Hinv|]. split; [done|]. rewrite Hpos.
  split; [intros [? ?]; eauto|]. intros [? (bs' & Hb & ?)].
  rewrite Ebs in Hb. injection Hb as <-. done.
Qed.

(** Training records a merge exactly when there is room for one and the
    text has two bytes to pair. *)
Lemma train_records_merge text vocab_size self self' :
  train text vocab_size self = (Ok tt, self') ->
  merges self' <> []
  <-> 257 <= vocab_size /\ exists bs, utf8_encode text = Some bs /\ (2 <= length bs)%nat.
Proof.
  intros Htrain.
  destruct (train_success _ _ _ _ Htrain) as (_ & _ & _ & k & Ht & Hk & Hpos).
  rewrite <- Hpos. pose proof (trained_merge_values _ _ Ht) as Hvals.
  assert (length (merges self') = Z.to_nat k) as Hlen.
  { rewrite <- (length_fmap snd). fold (dict_values (merges self')).
    rewrite Hvals. by rewrite length_seqZ. }
  destruct (merges self'); simpl in Hlen; split; intros H; try done; lia.
Qed.

(** C6. After a successful [train] the merge table holds [k] entries for
    some [k <= vocab_size - 256]; read in insertion order, which is the
    order of the training turns, their values are [256, 257, ..., 256+k-1]:
    the entry recorded at turn [i] has the value [256 + i], no value is used
    twice and no pair is recorded twice. *)
Theorem C6_merge_values_sequential
    (text : list Z) (vocab_size : Z) (self self' : tokenizer) :
  train text vocab_size self = (Ok tt, self') ->
  exists k : nat,
    Z.of_nat k <= vocab_size - 256
    /\ length (merges self') = k
    /\ dict_values (merges self') = seqZ 256 (Z.of_nat k)
    /\ NoDup (dict_values (merges self'))
    /\ NoDup (dict_keys (merges self'))
    /\ forall i : nat, (i < k)%nat ->
         exists p, merges self' !! i = Some (p, 256 + Z.of_nat i).
Proof.
  intros Htrain.
  destruct (train_success _ _ _ _ Htrain) as (_ & _ & _ & k & Ht & Hk & _).
  pose proof (trained_merge_values _ _ Ht) as Hvals.
  assert (length (merges self') = Z.to_nat k) as Hlen.
  { rewrite <- (length_fmap snd). fold (dict_values (merges self')).
    rewrite Hvals. by rewrite length_seqZ. }
  exists (Z.to_nat k). rewrite Z2Nat.id by lia.
  split; [lia|]. split; [done|]. split; [done|].
  split; [rewrite Hvals; apply NoDup_seqZ|]. split; [apply Ht|].
  intros i Hi. destruct (lookup_lt_is_Some_2 (merges self') i) as [[p v] Hpv]; [lia|].
  exists p. rewrite Hpv. do 2 f_equal.
  assert (dict_values (merges self') !! i = Some v) as Hv.
  { unfold dict_values. rewrite list_lookup_fmap, Hpv. done. }
  rewrite Hvals in Hv. apply lookup_seqZ in Hv. lia.
Qed.

Lemma C6_witness :
  exists k : nat,
    Z.of_nat k <= 258 - 256
    /\ length (merges (train (text_of "abcabcab") 258 fresh).2) = k
    /\ dict_values (merges (train (text_of "abcabcab") 258 fresh).2) = seqZ 256 (Z.of_nat k)
    /\ NoDup (dict_values (merges (train (text_of "abcabcab") 258 fresh).2))
    /\ NoDup (dict_keys (merges (train (text_of "abcabcab") 258 fresh).2))
    /\ forall i : nat, (i < k)%nat ->
         exists p, merges (train (text_of "abcabcab") 258 fresh).2 !! i
                   = Some (p, 256 + Z.of_nat i).
Proof.
  apply (C6_merge_values_sequential (text_of "abcabcab") 258 fresh).
  vm_compute. reflexivity.
Defined.

Example train_abcabcab :
  merges (train (text_of "abcabcab") 258 fresh).2 = [((97, 98), 256); ((256, 99), 257)].
Proof. vm_compute. reflexivity. Qed.

(* ===================================================================== *)
(** ** Training on no text, and training with no room for merges *)
(* ===================================================================== *)

(** C9, at the text that defeats it.  [train] of the empty text with
    [vocab_size = 256] does not succeed: it
    resets both tables and then raises [ZeroDivisionError] in its closing
    report, which divides by the number of tokens. *)
Theorem C9_train_empty_text_raises :
  train [] 256 fresh = (Raise ZeroDivisionError, Tokenizer initial_vocab []).
Proof. vm_compute. reflexivity. Qed.

(** The same at every vocabulary size and from every state. *)
Lemma train_empty_text vocab_size self :
  256 <= vocab_size ->
  train [] vocab_size self = (Raise ZeroDivisionError, Tokenizer initial_vocab []).
Proof.
  intros Hge. unfold train. destruct (Z.ltb_spec vocab_size 256); [lia|].
  unfold bind, lift, encode_utf8, set_vocab, set_merges. cbn [utf8_encode vocab merges].
  destruct (Z.to_nat (vocab_size - 256)); done.
Qed.

(** On a text that is not empty, [train(T, 256)] succeeds with an empty merge
    table, and [encode] then reports an untrained tokenizer. *)
Lemma train_256_then_encode text self T :
  valid_text text -> text <> [] ->
  train text 256 self = (Ok tt, Tokenizer initial_vocab [])
  /\ encode T (Tokenizer initial_vocab [])
     = (Raise RuntimeError, Tokenizer initial_vocab []).
Proof.
  intros [bs Ebs]%valid_text_encode Hne. split; [|done].
  unfold train. change (256 <? 256) with false. cbv iota.
  unfold bind, lift, encode_utf8, set_vocab, set_merges. rewrite Ebs.
  change (Z.to_nat (256 - 256)) with 0%nat. cbn [vocab merges train_loop ret].
  rewrite bool_decide_eq_false_2; [done|].
  intros Hlen. apply length_zero_iff_nil in Hlen. apply Hne.
  by apply (utf8_encode_nil text bs).
Qed.

(* ===================================================================== *)
(** ** Encoding and decoding with trained tables *)
(* ===================================================================== *)

(** The loop of [encode] leaves by itself: turns beyond [len(tokens)] are
    never taken. *)
Lemma encode_loop_enough mg fuel1 fuel2 tokens :
  (length tokens <= fuel1)%nat -> (length tokens <= fuel2)%nat ->
  encode_loop fuel1 mg tokens = encode_loop fuel2 mg tokens.
Proof.
  revert fuel2 tokens. induction fuel1 as [|fuel1 IH]; intros fuel2 tokens H1 H2.
  - destruct tokens; [|simpl in H1; lia]. destruct fuel2; done.
  - destruct fuel2 as [|fuel2].
    { destruct tokens; [|simpl in H2; lia]. done. }
    cbn [encode_loop]. destruct (bool_decide (2 <= length tokens)%nat) eqn:Hlen; [|done].
    apply bool_decide_eq_true in Hlen.
    destruct (min_pair mg (_get_stats tokens)) as [p|] eqn:Hmin; [|done].
    destruct (dict_get mg p) as [idx|]; [|done].
    assert (p ∈ adjacent_pairs tokens) as Hp.
    { apply (proj1 (stats_keys_elem _ _)). by apply (min_pair_split mg). }
    pose proof (greedy_replace_shorter p idx tokens Hp) as Hshort.
    rewrite <- merge_greedy in Hshort. apply IH; lia.
Qed.

(** C2. With at least two tokens the loop of [encode] picks a pair [p] that
    stands in the sequence.  If some pair of the sequence is in the merge
    table, [p] is in the table with a value no larger than that of any other
    pair of the sequence (counts play no part), and the loop goes on with
    [p] merged; if no pair of the sequence is in the table, the loop ends and
    the sequence is returned as it is. *)
Theorem C2_encode_selects_highest_priority
    (mg : list ((Z * Z) * Z)) (tokens : list Z) (fuel : nat) :
  (2 <= length tokens)%nat ->
  (length tokens <= fuel)%nat ->
  exists p : Z * Z,
    min_pair mg (_get_stats tokens) = Some p
    /\ p ∈ adjacent_pairs tokens
    /\ (forall q v, q ∈ adjacent_pairs tokens -> dict_get mg q = Some v ->
          exists vp, dict_get mg p = Some vp /\ vp <= v
            /\ encode_loop fuel mg tokens = encode_loop fuel mg (_merge tokens p vp))
    /\ ((forall q, q ∈ adjacent_pairs tokens -> dict_get mg q = None) ->
          encode_loop fuel mg tokens = Ok tokens).
Proof.
  intros Hlen Hfuel. destruct (min_pair_is_Some mg tokens Hlen) as [p Hmin].
  destruct (min_pair_split _ _ _ Hmin) as [Hpin Hall].
  apply (proj1 (stats_keys_elem _ _)) in Hpin.
  exists p. split; [done|]. split; [exact Hpin|].
  destruct fuel as [|fuel]; [lia|].
  assert (encode_loop (S fuel) mg tokens
          = match dict_get mg p with
            | None => Ok tokens
            | Some idx => encode_loop fuel mg (_merge tokens p idx)
            end) as Hstep.
  { cbn [encode_loop]. rewrite bool_decide_eq_true_2 by done. by rewrite Hmin. }
  split.
  - intros q v Hq Hv. apply (proj2 (stats_keys_elem _ _)) in Hq. specialize (Hall q Hq).
    rewrite Hv in Hall. destruct (dict_get mg p) as [vp|] eqn:Hp; simpl in Hall; [|done].
    exists vp. split; [done|]. split; [lia|]. rewrite Hstep.
    pose proof (greedy_replace_shorter p vp tokens Hpin) as Hshort.
    rewrite <- merge_greedy in Hshort. apply encode_loop_enough; lia.
  - intros Hnone. rewrite Hstep, (Hnone p Hpin). done.
Qed.

Lemma C2_witness :
  exists p : Z * Z,
    min_pair [((1, 2), 256); ((256, 3), 257)] (_get_stats [3; 1; 2; 3]) = Some p
    /\ p ∈ adjacent_pairs [3; 1; 2; 3]
    /\ (forall q v, q ∈ adjacent_pairs [3; 1; 2; 3] ->
          dict_get [((1, 2), 256); ((256, 3), 257)] q = Some v ->
          exists vp, dict_get [((1, 2), 256); ((256, 3), 257)] p = Some vp /\ vp <= v
            /\ encode_loop 4 [((1, 2), 256); ((256, 3), 257)] [3; 1; 2; 3]
               = encode_loop 4 [((1, 2), 256); ((256, 3), 257)] (_merge [3; 1; 2; 3] p vp))
    /\ ((forall q, q ∈ adjacent_pairs [3; 1; 2; 3] ->
           dict_get [((1, 2), 256); ((256, 3), 257)] q = None) ->
          encode_loop 4 [((1, 2), 256); ((256, 3), 257)] [3; 1; 2; 3] = Ok [3; 1; 2; 3]).
Proof.
  apply (C2_encode_selects_highest_priority
           [((1, 2), 256); ((256, 3), 257)] [3; 1; 2; 3] 4).
  - simpl. lia.
  - simpl. lia.
Defined.

Example encode_loop_run :
  encode_loop 4 [((1, 2), 256); ((256, 3), 257)] [3; 1; 2; 3] = Ok [3; 257].
Proof. reflexivity. Qed.

Lemma byte_to_of_Z z : 0 <= z < 256 -> byte_to_Z (byte_of_Z z) = z.
Proof.
  intros Hz. unfold byte_to_Z, byte_of_Z.
  destruct (Byte.of_N (Z.to_N z)) as [b|] eqn:E.
  - apply Byte.to_of_N in E. simpl. lia.
  - apply Byte.of_N_None_iff in E. lia.
Qed.

Lemma byte_of_to_Z b : byte_of_Z (byte_to_Z b) = b.
Proof.
  unfold byte_to_Z, byte_of_Z. rewrite N2Z.id, Byte.of_to_N. done.
Qed.

Lemma byte_to_Z_range b : 0 <= byte_to_Z b < 256.
Proof.
  unfold byte_to_Z. pose proof (Byte.to_N_bounded b). lia.
Qed.

Lemma join_vocab_cons v idx ids b :
  dict_get v idx = Some b ->
  join_vocab v (idx :: ids)
  = match join_vocab v ids with Ok rest => Ok (b ++ rest) | r => r end.
Proof. intros Hb. simpl. unfold subscript. by rewrite Hb. Qed.

(** Replacing a pair by an ID that expands to both expansions leaves the
    joined bytes as they were. *)
Lemma join_vocab_merge v a b idx l r ids :
  dict_get v a = Some l -> dict_get v b = Some r -> dict_get v idx = Some (l ++ r) ->
  join_vocab v (greedy_replace (a, b) idx ids) = join_vocab v ids.
Proof.
  intros Ha Hb Hidx.
  induction ids as [| x | x y ids IH1 IH2] using list_ind2; [done | done |].
  rewrite greedy_replace_cons2, pair_test.
  destruct (decide ((x, y) = (a, b))) as [[= -> ->]|Hne].
  - rewrite bool_decide_eq_true_2 by done.
    rewrite (join_vocab_cons v idx _ _ Hidx), IH1.
    rewrite (join_vocab_cons v a _ _ Ha), (join_vocab_cons v b _ _ Hb).
    destruct (join_vocab v ids); [|done..]. by rewrite app_assoc.
  - rewrite bool_decide_eq_false_2 by done.
    change (join_vocab v (x :: greedy_replace (a, b) idx (y :: ids)))
      with (match subscript v x with
            | Ok c => match join_vocab v (greedy_replace (a, b) idx (y :: ids)) with
                      | Ok rest => Ok (c ++ rest) | r0 => r0 end
            | Raise e => Raise e
            | Untyped => Untyped
            end).
    by rewrite IH2.
Qed.

Lemma join_vocab_bytes k self bs :
  trained k self -> Forall (fun b => 0 <= b < 256) bs ->
  join_vocab (vocab self) bs = Ok (byte_of_Z <$> bs).
Proof.
  intros Ht Hbs. induction Hbs as [|b bs Hb _ IH]; [done|].
  rewrite (join_vocab_cons _ _ _ _ (trained_bytes _ _ Ht b Hb)), IH. done.
Qed.

Lemma join_vocab_total v ids :
  Forall (fun t => is_Some (dict_get v t)) ids -> exists buf, join_vocab v ids = Ok buf.
Proof.
  induction 1 as [|t ids [b Hb] _ [buf IH]]; [by exists []|].
  exists (b ++ buf). by rewrite (join_vocab_cons _ _ _ _ Hb), IH.
Qed.

(** With trained tables the loop of [encode] returns; its result holds IDs
    of the vocabulary only and expands to the same bytes as its input. *)
Lemma encode_loop_trained k self fuel tokens :
  trained k self ->
  Forall (fun t => 0 <= t < 256 + k) tokens ->
  exists ids,
    encode_loop fuel (merges self) tokens = Ok ids
    /\ Forall (fun t => 0 <= t < 256 + k) ids
    /\ join_vocab (vocab self) ids = join_vocab (vocab self) tokens.
Proof.
  intros Ht. revert tokens. induction fuel as [|fuel IH]; intros tokens Htok.
  - exists tokens. done.
  - cbn [encode_loop]. destruct (bool_decide (2 <= length tokens)%nat) eqn:Hlen.
    2:{ exists tokens. done. }
    apply bool_decide_eq_true in Hlen.
    destruct (min_pair_is_Some (merges self) tokens Hlen) as [p Hmin]. rewrite Hmin.
    destruct (dict_get (merges self) p) as [idx|] eqn:Hp.
    2:{ exists tokens. done. }
    destruct (trained_expansion _ _ Ht _ _ Hp) as (_ & _ & l & r & Hl & Hr & Hidx).
    assert (256 <= idx < 256 + k) as Hrange.
    { assert (idx ∈ dict_values (merges self)) as Hv.
      { apply dict_get_Some_elem in Hp. unfold dict_values.
        apply list_elem_of_fmap. by exists (p, idx). }
      rewrite (trained_merge_values _ _ Ht), elem_of_seqZ in Hv. lia. }
    destruct (IH (_merge tokens p idx)) as (ids & Hrun & Hids & Hjoin).
    { rewrite merge_greedy. apply Forall_forall. intros t Hin.
      apply greedy_replace_elem in Hin as [->|Hin]; [lia|].
      rewrite Forall_forall in Htok. auto. }
    exists ids. split; [done|]. split; [done|]. rewrite Hjoin, merge_greedy.
    destruct p as [a b]. by apply (join_vocab_merge _ _ _ _ l r).
Qed.

Lemma encode_run self T :
  encode T self
  = match merges self with
    | [] => (Raise RuntimeError, self)
    | _ :: _ =>
        match utf8_encode T with
        | None => (Raise UnicodeEncodeError, self)
        | Some bs => (encode_loop (length bs) (merges self) bs, self)
        end
    end.
Proof.
  unfold encode, bind, get_merges, lift, encode_utf8.
  destruct (merges self); [done|]. destruct (utf8_encode T); done.
Qed.

Lemma decode_run self ids :
  decode ids self
  = match vocab self with
    | [] => (Raise RuntimeError, self)
    | _ :: _ =>
        match join_vocab (vocab self) ids with
        | Ok buf => (Ok (utf8_decode_replace (byte_to_Z <$> buf)), self)
        | Raise e => (Raise e, self)
        | Untyped => (Untyped, self)
        end
    end.
Proof.
  unfold decode, bind, get_vocab, lift, ret.
  destruct (vocab self); [done|]. destruct (join_vocab _ ids); done.
Qed.

Lemma trained_vocab_nonempty k self : trained k self -> vocab self <> [].
Proof.
  intros Ht Hnil. pose proof (trained_bytes _ _ Ht 0) as H0.
  rewrite Hnil in H0. simpl in H0. by specialize (H0 ltac:(lia)).
Qed.

(** C10. After a successful [train], whatever [encode] returns holds only
    IDs with a vocabulary entry, each a raw byte [0..255] or a value of the
    merge table, and [decode] of it returns a text: no [KeyError] for an
    unknown token. *)
Theorem C10_encode_output_in_vocabulary
    (text : list Z) (vocab_size : Z) (self self' self'' : tokenizer)
    (T ids : list Z) :
  train text vocab_size self = (Ok tt, self') ->
  encode T self' = (Ok ids, self'') ->
  Forall (fun t => is_Some (dict_get (vocab self') t)) ids
  /\ Forall (fun t => 0 <= t < 256 \/ t ∈ dict_values (merges self')) ids
  /\ exists s, decode ids self' = (Ok s, self').
Proof.
  intros Htrain Henc.
  destruct (train_success _ _ _ _ Htrain) as (_ & _ & _ & k & Ht & Hk & _).
  rewrite encode_run in Henc. destruct (merges self') as [|e m] eqn:Em; [done|].
  destruct (utf8_encode T) as [bs|] eqn:Ebs; [|done].
  destruct (encode_loop_trained k self' (length bs) bs Ht) as (ids' & Hrun & Hids & _).
  { apply utf8_encode_range in Ebs. eapply Forall_impl; [exact Ebs|].
    intros b Hb. simpl in Hb. lia. }
  rewrite Em in Hrun. rewrite Hrun in Henc. injection Henc as -> ->.
  assert (Forall (fun t => is_Some (dict_get (vocab self'') t)) ids) as Hin.
  { eapply Forall_impl; [exact Hids|]. intros t Hr. by eapply trained_in_vocab. }
  split; [done|]. split.
  - eapply Forall_impl; [exact Hids|]. intros t Hr. simpl in Hr.
    destruct (decide (t < 256)); [left; lia|]. right.
    rewrite <- Em, (trained_merge_values _ _ Ht). apply elem_of_seqZ. lia.
  - destruct (join_vocab_total _ _ Hin) as [buf Hbuf]. rewrite decode_run, Hbuf.
    pose proof (trained_vocab_nonempty _ _ Ht). destruct (vocab self''); [done|]. eauto.
Qed.

Lemma C10_witness :
  Forall (fun t => is_Some (dict_get (vocab (train (text_of "ababab") 257 fresh).2) t))
    [256; 99]
  /\ Forall (fun t => 0 <= t < 256
                      \/ t ∈ dict_values (merges (train (text_of "ababab") 257 fresh).2))
       [256; 99]
  /\ exists s, decode [256; 99] (train (text_of "ababab") 257 fresh).2
               = (Ok s, (train (text_of "ababab") 257 fresh).2).
Proof.
  apply (C10_encode_output_in_vocabulary (text_of "ababab") 257 fresh
           (train (text_of "ababab") 257 fresh).2
           (train (text_of "ababab") 257 fresh).2 (text_of "abc") [256; 99]).
  - vm_compute. reflexivity.
  - vm_compute. reflexivity.
Defined.

(** C1, as the code has it.  After a successful [train] that recorded at
    least one merge, [encode] accepts every valid text [T] and [decode]
    gives [T] back. *)
Theorem C1_roundtrip_after_training
    (text : list Z) (vocab_size : Z) (self self' : tokenizer) (T : list Z) :
  train text vocab_size self = (Ok tt, self') ->
  merges self' <> [] ->
  valid_text T ->
  exists ids, encode T self' = (Ok ids, self') /\ decode ids self' = (Ok T, self').
Proof.
  intros Htrain Hm [bs Ebs]%valid_text_encode.
  destruct (train_success _ _ _ _ Htrain) as (_ & _ & _ & k & Ht & Hk & _).
  pose proof (utf8_encode_range _ _ Ebs) as Hbs.
  destruct (encode_loop_trained k self' (length bs) bs Ht) as (ids & Hrun & Hids & Hjoin).
  { eapply Forall_impl; [exact Hbs|]. intros b Hb. simpl in Hb. lia. }
  exists ids. split.
  - rewrite encode_run, Ebs, Hrun. destruct (merges self'); done.
  - rewrite decode_run, Hjoin, (join_vocab_bytes k) by done.
    pose proof (trained_vocab_nonempty _ _ Ht). destruct (vocab self'); [done|].
    do 2 f_equal. rewrite <- list_fmap_compose.
    rewrite <- (utf8_decode_encode _ _ Ebs). f_equal.
    clear -Hbs. induction Hbs as [|b bs Hb _ IH]; [done|].
    simpl. rewrite byte_to_of_Z by done. by f_equal.
Qed.

Lemma C1_witness :
  exists ids,
    encode (text_of "abc") (train (text_of "ababab") 257 fresh).2
    = (Ok ids, (train (text_of "ababab") 257 fresh).2)
    /\ decode ids (train (text_of "ababab") 257 fresh).2
       = (Ok (text_of "abc"), (train (text_of "ababab") 257 fresh).2).
Proof.
  apply (C1_roundtrip_after_training (text_of "ababab") 257 fresh).
  - vm_compute. reflexivity.
  - vm_compute. discriminate.
  - repeat (apply Forall_cons_2; [reflexivity|]). apply Forall_nil_2.
Defined.

(** C1 as stated fails where training records no merge: [train("a", 256)]
    succeeds, and [encode("a")] then raises instead of returning IDs. *)
Lemma C1_counterexample :
  256 <= 256
  /\ valid_text (text_of "a")
  /\ train (text_of "a") 256 fresh = (Ok tt, Tokenizer initial_vocab [])
  /\ encode (text_of "a") (Tokenizer initial_vocab [])
     = (Raise RuntimeError, Tokenizer initial_vocab [])
  /\ ~ exists ids self' self'',
         encode (text_of "a") (Tokenizer initial_vocab []) = (Ok ids, self')
         /\ decode ids self' = (Ok (text_of "a"), self'').
Proof.
  split; [lia|]. split; [repeat (apply Forall_cons_2; [reflexivity|]); apply Forall_nil_2|].
  split; [vm_compute; reflexivity|]. split; [reflexivity|].
  intros (ids & s & s' & Henc & _). rewrite encode_run in Henc. cbn [merges] in Henc. done.
Qed.

(* ===================================================================== *)
(** ** Decimal and hexadecimal forms read back *)
(* ===================================================================== *)

Lemma code_chr z : 0 <= z < 256 -> code (chr z) = z.
Proof.
  intros Hz. unfold code, chr. rewrite N_ascii_embedding by lia. lia.
Qed.

Lemma digit_chr d :
  0 <= d < 10 -> is_digit (chr (48 + d)) = true /\ code (chr (48 + d)) - 48 = d.
Proof.
  intros Hd. unfold is_digit. rewrite code_chr by lia. split; [|lia].
  apply andb_true_iff. split; apply Z.leb_le; lia.
Qed.

Lemma digits_of_S fuel n acc :
  digits_of (S fuel) n acc
  = if n <? 10 then String (chr (48 + n mod 10)) acc
    else digits_of fuel (n / 10) (String (chr (48 + n mod 10)) acc).
Proof. reflexivity. Qed.

Lemma digits_value_digit acc d rest :
  0 <= d < 10 ->
  digits_value acc false (String (chr (48 + d)) rest) = digits_value (10 * acc + d) true rest
  /\ digits_value acc true (String (chr (48 + d)) rest) = digits_value (10 * acc + d) true rest.
Proof.
  intros Hd. cbn [digits_value]. destruct (digit_chr d Hd) as [-> ->]. done.
Qed.

Lemma digits_value_digits_of fuel n rest :
  0 <= n < 10 ^ Z.of_nat (S fuel) ->
  digits_value 0 false (digits_of (S fuel) n rest) = digits_value n true rest.
Proof.
  revert n rest. induction fuel as [|fuel IH]; intros n rest Hn.
  - rewrite digits_of_S. change (10 ^ Z.of_nat 1) with 10 in Hn.
    destruct (Z.ltb_spec n 10); [|lia].
    rewrite Z.mod_small by lia.
    rewrite (proj1 (digits_value_digit 0 n rest ltac:(lia))). f_equal.
  - rewrite digits_of_S. destruct (Z.ltb_spec n 10) as [Hlt|Hge].
    + rewrite Z.mod_small by lia.
      rewrite (proj1 (digits_value_digit 0 n rest ltac:(lia))). f_equal.
    + rewrite IH.
      * rewrite (proj2 (digits_value_digit (n / 10) (n mod 10) rest
                          ltac:(apply Z.mod_pos_bound; lia))).
        f_equal. pose proof (Z.div_mod n 10). lia.
      * split; [apply Z.div_pos; lia|].
        apply Z.div_lt_upper_bound; [lia|].
        rewrite (Nat2Z.inj_succ (S fuel)), Z.pow_succ_r in Hn by lia. lia.
Qed.

Lemma decimal_fuel n : 0 <= n -> n < 10 ^ Z.of_nat (S (Z.to_nat (Z.log2 n))).
Proof.
  intros Hn. rewrite Nat2Z.inj_succ, Z2Nat.id by apply Z.log2_nonneg.
  destruct (decide (n = 0)) as [->|Hne]; [done|].
  pose proof (Z.log2_spec n ltac:(lia)) as [_ Hup].
  eapply Z.lt_le_trans; [exact Hup|].
  apply Z.pow_le_mono_l. pose proof (Z.log2_nonneg n). lia.
Qed.

Lemma numeral_not_space c : numeral c -> is_space c = false.
Proof.
  intros [Hd| ->]; [|done]. unfold is_digit in Hd. unfold is_space.
  apply andb_true_iff in Hd as [H1%Z.leb_le H2%Z.leb_le].
  repeat match goal with
    | |- context [?a <=? ?b] => destruct (Z.leb_spec a b); try lia
    | |- context [?a =? ?b] => destruct (Z.eqb_spec a b); try lia
    end; done.
Qed.

Lemma numeral_not_comma c : numeral c -> c <> ","%char.
Proof. intros [Hd| ->]; [|done]. intros ->. done. Qed.

Lemma digits_of_numeral fuel n rest :
  0 <= n -> Forall numeral (list_ascii_of_string rest) ->
  Forall numeral (list_ascii_of_string (digits_of fuel n rest)).
Proof.
  revert n rest. induction fuel as [|fuel IH]; intros n rest Hn Hrest; [done|].
  rewrite digits_of_S.
  assert (Forall numeral (list_ascii_of_string (String (chr (48 + n mod 10)) rest))) as Hacc.
  { simpl. constructor; [|done]. left. apply digit_chr. apply Z.mod_pos_bound. lia. }
  destruct (n <? 10); [done|]. apply IH; [apply Z.div_pos; lia | done].
Qed.

Lemma py_str_numeral z : Forall numeral (list_ascii_of_string (py_str z)).
Proof.
  unfold py_str. destruct (Z.ltb_spec z 0).
  - cbn [list_ascii_of_string]. constructor; [by right|].
    apply digits_of_numeral; [lia | constructor].
  - apply digits_of_numeral; [lia | constructor].
Qed.

Lemma digits_of_head fuel n rest :
  0 <= n -> exists c s, digits_of (S fuel) n rest = String c s /\ is_digit c = true.
Proof.
  revert n rest. induction fuel as [|fuel IH]; intros n rest Hn.
  - rewrite digits_of_S. exists (chr (48 + n mod 10)), rest.
    split; [by destruct (n <? 10)|]. apply digit_chr, Z.mod_pos_bound. lia.
  - rewrite digits_of_S. destruct (n <? 10).
    + exists (chr (48 + n mod 10)), rest. split; [done|].
      apply digit_chr, Z.mod_pos_bound. lia.
    + apply (IH (n / 10)). apply Z.div_pos; lia.
Qed.

Lemma lstrip_plain c s : is_space c = false -> lstrip (String c s) = String c s.
Proof. intros Hc. simpl. by rewrite Hc. Qed.

Lemma rstrip_plain s :
  Forall (fun c => is_space c = false) (list_ascii_of_string s) -> rstrip s = s.
Proof.
  induction s as [|c s IH]; [done|]. simpl. intros [Hc Hs]%Forall_cons.
  rewrite IH by done. destruct s; [by rewrite Hc | done].
Qed.

Lemma strip_numeral s :
  Forall numeral (list_ascii_of_string s) -> rstrip (lstrip s) = s.
Proof.
  intros Hs. assert (lstrip s = s) as ->.
  { destruct s as [|c s]; [done|]. apply lstrip_plain.
    apply Forall_cons in Hs as [Hc _]. by apply numeral_not_space. }
  apply rstrip_plain. eapply Forall_impl; [exact Hs|]. apply numeral_not_space.
Qed.

Lemma sign_dispatch c s :
  is_digit c = true ->
  match String c s with
  | String "-" t => Z.opp <$> digits_value 0 false t
  | String "+" t => digits_value 0 false t
  | t => digits_value 0 false t
  end = digits_value 0 false (String c s).
Proof.
  destruct c as [[] [] [] [] [] [] [] []]; intros H; try reflexivity;
    vm_compute in H; discriminate H.
Qed.

(** [int(str(z)) == z] *)
Lemma py_int_py_str z : py_int (py_str z) = Some z.
Proof.
  unfold py_int. rewrite strip_numeral by apply py_str_numeral.
  unfold py_str. destruct (Z.ltb_spec z 0) as [Hneg|Hpos].
  - rewrite digits_value_digits_of by (split; [lia | apply decimal_fuel; lia]).
    simpl. f_equal. lia.
  - destruct (digits_of_head (Z.to_nat (Z.log2 z)) z EmptyString Hpos) as (c & s & Hcs & Hc).
    rewrite Hcs, (sign_dispatch c s Hc), <- Hcs.
    rewrite digits_value_digits_of by (split; [lia | apply decimal_fuel; lia]). done.
Qed.

Lemma py_str_inj z1 z2 : py_str z1 = py_str z2 -> z1 = z2.
Proof.
  intros H. apply (f_equal py_int) in H. rewrite !py_int_py_str in H. congruence.
Qed.

Lemma split_comma_plain s :
  Forall (fun c => c <> ","%char) (list_ascii_of_string s) -> split_comma s = [s].
Proof.
  induction s as [|c s IH]; [done|]. simpl. intros [Hc Hs]%Forall_cons.
  rewrite bool_decide_eq_false_2 by done. by rewrite IH.
Qed.

Lemma split_comma_app s t :
  Forall (fun c => c <> ","%char) (list_ascii_of_string s) ->
  split_comma (s +:+ String "," t) = s :: split_comma t.
Proof.
  induction s as [|c s IH]; [done|]. simpl. intros [Hc Hs]%Forall_cons.
  rewrite bool_decide_eq_false_2 by done. by rewrite IH.
Qed.

(** The key of a merge table entry reads back as the pair it was made of. *)
Lemma key_tuple_pair a b : key_tuple (py_str a +:+ "," +:+ py_str b) = Some [a; b].
Proof.
  unfold key_tuple. change ("," +:+ py_str b)%string with (String "," (py_str b)).
  rewrite split_comma_app, split_comma_plain.
  - simpl. rewrite !py_int_py_str. done.
  - eapply Forall_impl; [apply py_str_numeral | apply numeral_not_comma].
  - eapply Forall_impl; [apply py_str_numeral | apply numeral_not_comma].
Qed.

Lemma hex_byte x :
  is_ascii_space (hex_char (byte_to_Z x / 16)) = false
  /\ hex_val (hex_char (byte_to_Z x / 16)) = Some (byte_to_Z x / 16)
  /\ hex_val (hex_char (byte_to_Z x mod 16)) = Some (byte_to_Z x mod 16)
  /\ byte_of_Z (16 * (byte_to_Z x / 16) + byte_to_Z x mod 16) = x.
Proof. destruct x; vm_compute; done. Qed.

(** [bytes.fromhex(b.hex()) == b] *)
Lemma bytes_fromhex_hex b : bytes_fromhex (bytes_hex b) = Some b.
Proof.
  induction b as [|x b IH]; [done|].
  destruct (hex_byte x) as (Hs & Hh & Hl & Hx).
  cbn [bytes_hex bytes_fromhex]. by rewrite Hs, Hh, Hl, IH, Hx.
Qed.

(* ===================================================================== *)
(** ** Saving, then loading *)
(* ===================================================================== *)

Lemma vocab_of_items_saved (v acc : list (Z * list byte)) :
  vocab_of_items ((fun kv => (py_str kv.1, JStr (bytes_hex kv.2))) <$> v) acc
  = Ok (fold_left (fun d kv => dict_set d kv.1 kv.2) v acc).
Proof.
  revert acc. induction v as [|[k b] v IH]; intros acc; [done|].
  cbn [fmap list_fmap vocab_of_items fst snd fold_left].
  rewrite py_int_py_str, bytes_fromhex_hex. apply IH.
Qed.

Lemma merges_of_items_saved (m acc : list ((Z * Z) * Z)) :
  merges_of_items
    ((fun kv => (py_str kv.1.1 +:+ "," +:+ py_str kv.1.2, JInt kv.2)) <$> m) acc
  = Ok (fold_left (fun d kv => dict_set d kv.1 kv.2) m acc).
Proof.
  revert acc. induction m as [|[[a b] z] m IH]; intros acc; [done|].
  cbn [fmap list_fmap merges_of_items fst snd fold_left].
  rewrite key_tuple_pair. apply IH.
Qed.

Lemma merge_key_inj (p q : Z * Z) :
  py_str p.1 +:+ "," +:+ py_str p.2 = py_str q.1 +:+ "," +:+ py_str q.2 -> p = q.
Proof.
  intros H. apply (f_equal key_tuple) in H. rewrite !key_tuple_pair in H.
  destruct p, q. simpl in *. congruence.
Qed.

Lemma dict_keys_fmap_items {K V K' V'} (f : K -> K') (g : K * V -> V') (d : list (K * V)) :
  dict_keys ((fun kv => (f kv.1, g kv)) <$> d) = f <$> dict_keys d.
Proof. unfold dict_keys. induction d as [|[k v] d IH]; simpl; [done | by f_equal]. Qed.

Lemma NoDup_fmap_inj {A B} (f : A -> B) (l : list A) :
  (forall x y, f x = f y -> x = y) -> NoDup l -> NoDup (f <$> l).
Proof.
  intros Hinj. induction 1 as [|x l Hx Hnd IH]; simpl; constructor; [|done].
  intros (y & Hxy & Hy)%list_elem_of_fmap. apply Hinj in Hxy. by subst.
Qed.

(** The documents written by [save] hold one member per entry, in order. *)
Lemma vocab_serializable_items v :
  NoDup (dict_keys v) ->
  vocab_serializable v = (fun kv => (py_str kv.1, JStr (bytes_hex kv.2))) <$> v.
Proof.
  intros Hnd. unfold vocab_serializable. apply dict_of_items_NoDup.
  rewrite (dict_keys_fmap_items py_str (fun kv => JStr (bytes_hex kv.2))).
  apply NoDup_fmap_inj; [apply py_str_inj | done].
Qed.

Lemma merges_serializable_items m :
  NoDup (dict_keys m) ->
  merges_serializable m
  = (fun kv => (py_str kv.1.1 +:+ "," +:+ py_str kv.1.2, JInt kv.2)) <$> m.
Proof.
  intros Hnd. unfold merges_serializable. apply dict_of_items_NoDup.
  rewrite (dict_keys_fmap_items (fun p : Z * Z => py_str p.1 +:+ "," +:+ py_str p.2)
             (fun kv => JInt kv.2)).
  apply NoDup_fmap_inj; [apply merge_key_inj | done].
Qed.

Lemma load_vocab_document v :
  NoDup (dict_keys v) ->
  match json_items (JObj (vocab_serializable v)) with
  | Ok items => vocab_of_items items []
  | Raise e => Raise e
  | Untyped => Untyped
  end = Ok v.
Proof.
  intros Hnd. cbn [json_items]. rewrite vocab_serializable_items by done.
  rewrite dict_of_items_NoDup.
  - rewrite vocab_of_items_saved. f_equal. by apply (dict_of_items_NoDup v).
  - rewrite (dict_keys_fmap_items py_str (fun kv => JStr (bytes_hex kv.2))).
    apply NoDup_fmap_inj; [apply py_str_inj | done].
Qed.

Lemma load_merges_document m :
  NoDup (dict_keys m) ->
  match json_items (JObj (merges_serializable m)) with
  | Ok items => merges_of_items items []
  | Raise e => Raise e
  | Untyped => Untyped
  end = Ok m.
Proof.
  intros Hnd. cbn [json_items]. rewrite merges_serializable_items by done.
  rewrite dict_of_items_NoDup.
  - rewrite merges_of_items_saved. f_equal. by apply (dict_of_items_NoDup m).
  - rewrite (dict_keys_fmap_items (fun p : Z * Z => py_str p.1 +:+ "," +:+ py_str p.2)
               (fun kv => JInt kv.2)).
    apply NoDup_fmap_inj; [apply merge_key_inj | done].
Qed.

Lemma json_load_dump path doc disk disk' :
  dump_to path doc disk = (Ok tt, disk') -> json_load path disk' = Ok doc.
Proof.
  unfold dump_to, json_load. destruct (dict_get disk path) as [[| |j]|];
    intros [= <-]; by rewrite dict_get_set_eq.
Qed.

Lemma json_load_dump_other path path' doc disk disk' r :
  path <> path' -> dump_to path doc disk = (r, disk') ->
  json_load path' disk' = json_load path' disk.
Proof.
  intros Hne. unfold dump_to, json_load.
  destruct (dict_get disk path) as [[| |j]|]; intros [= _ <-]; try done;
    by rewrite dict_get_set_ne.
Qed.

(** C7. [load] of the two documents that [save] wrote gives back the
    vocabulary and the merge table exactly: the same IDs with the same
    bytes, the same pairs with the same merged IDs, in the same order,
    whatever the loading tokenizer held before. *)
Theorem C7_load_after_save
    (vocab_path merges_path : string) (disk disk' : list (string * file))
    (self self1 other : tokenizer) :
  NoDup (dict_keys (vocab self)) ->
  NoDup (dict_keys (merges self)) ->
  vocab_path <> merges_path ->
  save vocab_path merges_path disk self = (Ok tt, self1, disk') ->
  self1 = self /\ load vocab_path merges_path disk' other = (Ok tt, self).
Proof.
  intros Hv Hm Hne Hsave. unfold save in Hsave.
  destruct (dump_to vocab_path _ disk) as [r1 disk1] eqn:E1.
  destruct r1 as [[]| |].
  2,3: by injection Hsave.
  destruct (dump_to merges_path _ disk1) as [r2 disk2] eqn:E2.
  injection Hsave as -> <- <-. split; [done|].
  pose proof (json_load_dump _ _ _ _ E2) as Hlm.
  pose proof (json_load_dump _ _ _ _ E1) as Hlv.
  rewrite <- (json_load_dump_other merges_path vocab_path _ _ _ _ ltac:(done) E2) in Hlv.
  unfold load, bind, lift, set_vocab, set_merges. rewrite Hlv.
  pose proof (load_vocab_document _ Hv) as Hdv.
  destruct (json_items (JObj (vocab_serializable (vocab self)))) as [vi| |]; try done.
  rewrite Hdv. cbn [merges vocab]. rewrite Hlm.
  pose proof (load_merges_document _ Hm) as Hdm.
  destruct (json_items (JObj (merges_serializable (merges self)))) as [mi| |]; try done.
  rewrite Hdm. by destruct self.
Qed.

Lemma C7_witness :
  (save "vocab.json" "merges.json" [] (train (text_of "ababab") 257 fresh).2).1.2
  = (train (text_of "ababab") 257 fresh).2
  /\ load "vocab.json" "merges.json"
       (save "vocab.json" "merges.json" [] (train (text_of "ababab") 257 fresh).2).2
       fresh
     = (Ok tt, (train (text_of "ababab") 257 fresh).2).
Proof.
  apply (C7_load_after_save "vocab.json" "merges.json" []
           (save "vocab.json" "merges.json" [] (train (text_of "ababab") 257 fresh).2).2
           (train (text_of "ababab") 257 fresh).2
           (save "vocab.json" "merges.json" [] (train (text_of "ababab") 257 fresh).2).1.2
           fresh).
  - refine (bool_decide_eq_true_1 (NoDup _) _). vm_compute. reflexivity.
  - refine (bool_decide_eq_true_1 (NoDup _) _). vm_compute. reflexivity.
  - discriminate.
  - vm_compute. reflexivity.
Defined.

Example saved_merges_document :
  merges_serializable [((97, 98), 256); ((256, 99), 257)]
  = [("97,98"%string, JInt 256); ("256,99"%string, JInt 257)].
Proof. vm_compute. reflexivity. Qed.

(* ===================================================================== *)
(** ** What a failed call leaves behind *)
(* ===================================================================== *)

Lemma load_run vocab_path merges_path disk self :
  load vocab_path merges_path disk self
  = match json_load vocab_path disk with
    | Ok vocab_doc =>
        match json_items vocab_doc with
        | Ok vocab_items =>
            match vocab_of_items vocab_items [] with
            | Ok v =>
                match json_load merges_path disk with
                | Ok merges_doc =>
                    match json_items merges_doc with
                    | Ok merges_items =>
                        match merges_of_items merges_items [] with
                        | Ok m => (Ok tt, Tokenizer v m)
                        | Raise e => (Raise e, Tokenizer v (merges self))
                        | Untyped => (Untyped, Tokenizer v (merges self))
                        end
                    | Raise e => (Raise e, Tokenizer v (merges self))
                    | Untyped => (Untyped, Tokenizer v (merges self))
                    end
                | Raise e => (Raise e, Tokenizer v (merges self))
                | Untyped => (Untyped, Tokenizer v (merges self))
                end
            | Raise e => (Raise e, self)
            | Untyped => (Untyped, self)
            end
        | Raise e => (Raise e, self)
        | Untyped => (Untyped, self)
        end
    | Raise e => (Raise e, self)
    | Untyped => (Untyped, self)
    end.
Proof.
  unfold load, bind, lift, set_vocab, set_merges.
  destruct (json_load vocab_path disk) as [vd| |]; [|done..].
  destruct (json_items vd) as [vi| |]; [|done..].
  destruct (vocab_of_items vi []) as [v| |]; [|done..]. cbn [vocab merges].
  destruct (json_load merges_path disk) as [md| |]; [|done..].
  destruct (json_items md) as [mi| |]; [|done..].
  destruct (merges_of_items mi []) as [m| |]; done.
Qed.

Lemma encode_keeps_state T self : (encode T self).2 = self.
Proof.
  rewrite encode_run. destruct (merges self); [done|]. by destruct (utf8_encode T).
Qed.

Lemma decode_keeps_state ids self : (decode ids self).2 = self.
Proof.
  rewrite decode_run. destruct (vocab self); [done|]. by destruct (join_vocab _ ids).
Qed.

(** Which exceptions the conversion of the merges document raises: a
    [ValueError], exactly when [int] refuses a part of some key. *)
Lemma merges_untyped_raises {A} items e :
  merges_untyped (A:=A) items = Raise e
  <-> e = ValueError /\ exists k v, (k, v) ∈ items /\ key_tuple k = None.
Proof.
  induction items as [|[k v] items IH]; cbn [merges_untyped].
  - split; [done|]. intros (_ & k & v & Hin & _). by apply elem_of_nil in Hin.
  - destruct (key_tuple k) as [t|] eqn:Ek.
    + rewrite IH. split; intros (-> & k' & v' & Hin & Hk'); (split; [done|]);
        exists k', v'; (split; [|done]).
      * by apply list_elem_of_further.
      * apply elem_of_cons in Hin as [[= -> ->]|Hin]; [congruence | done].
    + split.
      * intros [= <-]. split; [done|]. exists k, v. split; [apply list_elem_of_here | done].
      * by intros (-> & _).
Qed.

Lemma merges_of_items_raises items acc e :
  merges_of_items items acc = Raise e
  <-> e = ValueError /\ exists k v, (k, v) ∈ items /\ key_tuple k = None.
Proof.
  revert acc. induction items as [|[k v] items IH]; intros acc; cbn [merges_of_items].
  - split; [done|]. intros (_ & k & v & Hin & _). by apply elem_of_nil in Hin.
  - assert ((e = ValueError /\ exists k' v', (k', v') ∈ items /\ key_tuple k' = None)
            -> e = ValueError
               /\ exists k' v', (k', v') ∈ (k, v) :: items /\ key_tuple k' = None) as Hfurther.
    { intros (-> & k' & v' & Hin & Hk'). split; [done|]. exists k', v'.
      split; [by apply list_elem_of_further | done]. }
    assert (is_Some (key_tuple k) ->
            (e = ValueError
             /\ exists k' v', (k', v') ∈ (k, v) :: items /\ key_tuple k' = None)
            -> e = ValueError /\ exists k' v', (k', v') ∈ items /\ key_tuple k' = None)
      as Hback.
    { intros [t Ht] (-> & k' & v' & Hin & Hk'). split; [done|]. exists k', v'.
      split; [|done]. apply elem_of_cons in Hin as [[= -> ->]|Hin]; [congruence | done]. }
    destruct (key_tuple k) as [t|] eqn:Ek.
    + assert (merges_untyped (A:=list (Z * Z * Z)) items = Raise e
              <-> e = ValueError
                  /\ exists k' v', (k', v') ∈ (k, v) :: items /\ key_tuple k' = None) as Hun.
      { rewrite merges_untyped_raises. split; [exact Hfurther | apply Hback; eauto]. }
      destruct t as [|a [|b [|c t]]]; try exact Hun.
      destruct v; try exact Hun.
      rewrite IH. split; [exact Hfurther | apply Hback; eauto].
    + split.
      * intros [= <-]. split; [done|]. exists k, v. split; [apply list_elem_of_here | done].
      * by intros (-> & _).
Qed.

(** [int] takes no separator character for white space, and a merges
    document with an entry that is no pair still fails at a later key that
    is no integer. *)
Example py_int_separator : py_int (String (chr 28) "3") = None.
Proof. vm_compute. reflexivity. Qed.

Example merges_of_items_later_key :
  merges_of_items [("1"%string, JInt 5); ("x,2"%string, JInt 6)] [] = Raise ValueError.
Proof. vm_compute. reflexivity. Qed.

(** C5, as the code has it.  A call that fails with an exception other than
    the [ZeroDivisionError] of [train]'s closing report leaves the merge
    table as it was.  It leaves the vocabulary as it was too, with one
    exception: after a [load] whose vocabulary document was read and
    converted, the vocabulary is the converted one, whatever it was
    before. *)
Theorem C5_failed_call_leaves_tables
    (c : call) (disk : list (string * file)) (self self' : tokenizer) (e : exn) :
  run c disk self = (Some e, self') ->
  e <> ZeroDivisionError ->
  merges self' = merges self
  /\ match c with
     | CallLoad vocab_path _ =>
         match json_load vocab_path disk with
         | Ok vocab_doc =>
             match json_items vocab_doc with
             | Ok vocab_items =>
                 match vocab_of_items vocab_items [] with
                 | Ok v => vocab self' = v
                 | _ => vocab self' = vocab self
                 end
             | _ => vocab self' = vocab self
             end
         | _ => vocab self' = vocab self
         end
     | _ => vocab self' = vocab self
     end.
Proof.
  intros Hrun He. destruct c as [text vs|text|ids|vp mp|vp mp]; cbn [run] in Hrun.
  - destruct (train_run text vs self)
      as [[_ H]|[(_ & _ & H)|(_ & bs & ids' & s & k & _ & _ & _ & _ & _ & _ & H)]];
      rewrite H in Hrun.
    + simpl in Hrun; by injection Hrun as _ <-.
    + simpl in Hrun; by injection Hrun as _ <-.
    + destruct (bool_decide (length ids' = 0%nat)); simpl in Hrun; [|done].
      simpl in Hrun. injection Hrun as <- _. done.
  - pose proof (encode_keeps_state text self) as Hs.
    destruct (encode text self) as [r s]. simpl in Hs. subst s.
    by injection Hrun as _ <-.
  - pose proof (decode_keeps_state ids self) as Hs.
    destruct (decode ids self) as [r s]. simpl in Hs. subst s.
    by injection Hrun as _ <-.
  - unfold save in Hrun.
    destruct (dump_to vp _ disk) as [[[]| |] d1].
    + destruct (dump_to mp _ d1) as [r2 d2]. simpl in Hrun; by injection Hrun as _ <-.
    + simpl in Hrun; by injection Hrun as _ <-.
    + simpl in Hrun; by injection Hrun as _ <-.
  - rewrite load_run in Hrun.
    destruct (json_load vp disk) as [vd| |] eqn:Evd.
    2,3: simpl in Hrun; by injection Hrun as _ <-.
    destruct (json_items vd) as [vi| |] eqn:Evi.
    2,3: simpl in Hrun; by injection Hrun as _ <-.
    destruct (vocab_of_items vi []) as [v| |] eqn:Ev.
    2,3: simpl in Hrun; by injection Hrun as _ <-.
    assert (self' = Tokenizer v (merges self)) as ->.
    { destruct (json_load mp disk) as [md| |]; [|simpl in Hrun; by injection Hrun..].
      destruct (json_items md) as [mi| |]; [|simpl in Hrun; by injection Hrun..].
      destruct (merges_of_items mi []) as [m| |]; [done|simpl in Hrun; by injection Hrun..]. }
    done.
Qed.

Lemma C5_witness :
  merges (Tokenizer [(0, [x00])] [((97, 98), 256)])
  = merges (Tokenizer [(97, [x61])] [((97, 98), 256)])
  /\ vocab (Tokenizer [(0, [x00])] [((97, 98), 256)]) = [(0, [x00])].
Proof.
  apply (C5_failed_call_leaves_tables (CallLoad "vocab.json" "merges.json")
           [("vocab.json"%string, Json (JObj [("0"%string, JStr "00")]))]
           (Tokenizer [(97, [x61])] [((97, 98), 256)])
           (Tokenizer [(0, [x00])] [((97, 98), 256)]) OSError).
  - vm_compute. reflexivity.
  - discriminate.
Defined.

(** C5 as stated fails for [load]: with a readable vocabulary document and
    no merge table document, the call raises and the vocabulary of the
    trained tokenizer has been replaced. *)
Lemma C5_counterexample :
  exists self self',
    train (text_of "ababab") 257 fresh = (Ok tt, self)
    /\ load "vocab.json" "merges.json"
         [("vocab.json"%string, Json (JObj [("0"%string, JStr "00")]))] self
       = (Raise OSError, self')
    /\ vocab self' = [(0, [x00])]
    /\ vocab self' <> vocab self.
Proof.
  exists (train (text_of "ababab") 257 fresh).2.
  exists (Tokenizer [(0, [x00])] [((97, 98), 256)]).
  split; [vm_compute; reflexivity|]. split; [vm_compute; reflexivity|].
  split; [reflexivity|].
  intros H. apply (f_equal length) in H. vm_compute in H. discriminate H.
Qed.

(** The failures of [train] that come before the tables are touched. *)
Lemma train_guard_leaves_state text vocab_size self :
  vocab_size < 256 -> train text vocab_size self = (Raise ValueError, self).
Proof. intros H. unfold train. by destruct (Z.ltb_spec vocab_size 256); [|lia]. Qed.

(* ===================================================================== *)
(** ** The decoder against the specification of lossy decoding *)
(* ===================================================================== *)

Ltac bytes_tests :=
  unfold well_formed_shape, second_of_three, second_of_four, is_continuation in *;
  split_tests; simpl in *; try discriminate; try lia; try reflexivity.

(** What the encoder writes has the shape of the table ... *)
Lemma encode_char_shape c w : utf8_encode_char c = Some w -> well_formed_shape w = true.
Proof.
  unfold utf8_encode_char, is_code_point, is_surrogate.
  intros H. split_tests; try done; injection H as <-;
    unfold well_formed_shape, second_of_three, second_of_four, is_continuation;
    Z.div_mod_to_equations; split_tests; lia || reflexivity.
Qed.

(** ... and every sequence of that shape is written by the encoder. *)
Lemma shape_well_formed w : well_formed_shape w = true -> well_formed w.
Proof.
  intros H. destruct w as [|b0 [|b1 [|b2 [|b3 [|b4 w]]]]]; try discriminate H.
  - exists b0. unfold utf8_encode_char, is_code_point, is_surrogate. bytes_tests.
  - exists (b0 * 64 + b1 - (0xC0 * 64 + 0x80)).
    unfold utf8_encode_char, is_code_point, is_surrogate.
    bytes_tests; do 2 f_equal; repeat f_equal; Z.div_mod_to_equations; lia.
  - exists (b0 * 4096 + b1 * 64 + b2 - (0xE0 * 4096 + 0x80 * 64 + 0x80)).
    unfold utf8_encode_char, is_code_point, is_surrogate.
    bytes_tests; do 2 f_equal; repeat f_equal; Z.div_mod_to_equations; lia.
  - exists (b0 * 262144 + b1 * 4096 + b2 * 64 + b3
            - (0xF0 * 262144 + 0x80 * 4096 + 0x80 * 64 + 0x80)).
    unfold utf8_encode_char, is_code_point, is_surrogate.
    bytes_tests; do 2 f_equal; repeat f_equal; Z.div_mod_to_equations; lia.
Qed.

Lemma well_formed_iff_shape w : well_formed w <-> well_formed_shape w = true.
Proof.
  split; [intros [c Hc]; by apply (encode_char_shape c) | apply shape_well_formed].
Qed.

(** No well-formed sequence stands at the head of [bs]: by shape. *)
Ltac no_well_formed :=
  let w := fresh "w" in let rest := fresh "rest" in
  let Heq := fresh "Heq" in let Hw := fresh "Hw" in
  intros w rest Heq Hw; apply well_formed_iff_shape in Hw;
  destruct w as [|? [|? [|? [|? [|? ?]]]]]; try discriminate Hw;
  simplify_eq/=; bytes_tests.

(** [p] begins no well-formed sequence: by shape. *)
Ltac no_start :=
  let s := fresh "s" in let Hw := fresh "Hw" in
  intros [s Hw]; apply well_formed_iff_shape in Hw;
  destruct s as [|? [|? [|? [|? ?]]]]; try discriminate Hw;
  simpl in Hw; bytes_tests.

(** [p] begins the well-formed sequence [p ++ s]. *)
Ltac start_with s :=
  exists s; apply well_formed_iff_shape; simpl; bytes_tests.

Ltac byte_bounds :=
  repeat match goal with
    | H : Forall _ (_ :: _) |- _ => apply Forall_cons in H as [? H]
    end.

(** The decoder cuts its input as the specification says. *)
Lemma utf8_decode_replace_lossy n bs :
  (length bs <= n)%nat -> Forall (fun b => 0 <= b < 256) bs ->
  lossy_decoding bs (utf8_decode_replace bs).
Proof.
  revert bs. induction n as [|n IH]; intros bs Hlen Hbs.
  { destruct bs; [constructor | simpl in Hlen; lia]. }
  destruct bs as [|ch r1]; [constructor|].
  assert (forall r, (length r <= n)%nat -> Forall (fun b => 0 <= b < 256) r ->
            lossy_decoding r (utf8_decode_replace r)) as IH' by auto.
  clear IH. simpl in Hlen. byte_bounds.
  cbn [utf8_decode_replace].
  destruct (Z.ltb_spec ch 0x80).
  { apply (lossy_char ch [ch] r1); [|apply IH'; [lia | done]].
    unfold utf8_encode_char, is_code_point, is_surrogate. bytes_tests. }
  destruct (Z.ltb_spec ch 0xC2).
  { apply (lossy_replace [ch] r1); [| |apply IH'; [lia | done]].
    - no_well_formed.
    - right. exists ch. split; [done|]. no_start. }
  destruct (Z.ltb_spec ch 0xE0).
  { destruct r1 as [|ch2 r2].
    { apply (lossy_replace [ch] []); [| |constructor].
      - no_well_formed.
      - left. split; [done|]. split; [start_with [0x80]|]. intros b r' Hr. done. }
    simpl in Hlen. byte_bounds.
    destruct (is_continuation ch2) eqn:Hc2.
    - apply (lossy_char _ [ch; ch2] r2); [|apply IH'; [lia | done]].
      unfold utf8_encode_char, is_code_point, is_surrogate.
      bytes_tests; do 2 f_equal; repeat f_equal; Z.div_mod_to_equations; lia.
    - apply (lossy_replace [ch] (ch2 :: r2));
        [| |apply IH'; [simpl; lia | by apply Forall_cons]].
      + no_well_formed.
      + left. split; [done|]. split; [start_with [0x80]|].
        intros b r' [= <- <-]. no_start. }
  destruct (Z.ltb_spec ch 0xF0).
  { destruct r1 as [|ch2 r2].
    { apply (lossy_replace [ch] []); [| |constructor].
      - no_well_formed.
      - left. split; [done|].
        split; [start_with [if ch =? 0xE0 then 0xA0 else 0x80; 0x80]|].
        intros b r' Hr. done. }
    simpl in Hlen. byte_bounds.
    destruct (second_of_three ch ch2) eqn:Hc2; cbn [negb].
    2:{ apply (lossy_replace [ch] (ch2 :: r2));
          [| |apply IH'; [simpl; lia | by apply Forall_cons]].
        - no_well_formed.
        - left. split; [done|].
          split; [start_with [if ch =? 0xE0 then 0xA0 else 0x80; 0x80]|].
          intros b r' [= <- <-]. no_start. }
    destruct r2 as [|ch3 r3].
    { apply (lossy_replace [ch; ch2] []); [| |constructor].
      - no_well_formed.
      - left. split; [done|]. split; [start_with [0x80]|]. intros b r' Hr. done. }
    simpl in Hlen. byte_bounds.
    destruct (is_continuation ch3) eqn:Hc3.
    - apply (lossy_char _ [ch; ch2; ch3] r3); [|apply IH'; [lia | done]].
      unfold utf8_encode_char, is_code_point, is_surrogate.
      bytes_tests; do 2 f_equal; repeat f_equal; Z.div_mod_to_equations; lia.
    - apply (lossy_replace [ch; ch2] (ch3 :: r3));
        [| |apply IH'; [simpl; lia | by apply Forall_cons]].
      + no_well_formed.
      + left. split; [done|]. split; [start_with [0x80]|].
        intros b r' [= <- <-]. no_start. }
  destruct (Z.ltb_spec ch 0xF5).
  2:{ apply (lossy_replace [ch] r1); [| |apply IH'; [lia | done]].
      - no_well_formed.
      - right. exists ch. split; [done|]. no_start. }
  destruct r1 as [|ch2 r2].
  { apply (lossy_replace [ch] []); [| |constructor].
    - no_well_formed.
    - left. split; [done|].
      split; [start_with [if ch =? 0xF0 then 0x90 else 0x80; 0x80; 0x80]|].
      intros b r' Hr. done. }
  simpl in Hlen. byte_bounds.
  destruct (second_of_four ch ch2) eqn:Hc2; cbn [negb].
  2:{ apply (lossy_replace [ch] (ch2 :: r2));
        [| |apply IH'; [simpl; lia | by apply Forall_cons]].
      - no_well_formed.
      - left. split; [done|].
        split; [start_with [if ch =? 0xF0 then 0x90 else 0x80; 0x80; 0x80]|].
        intros b r' [= <- <-]. no_start. }
  destruct r2 as [|ch3 r3].
  { apply (lossy_replace [ch; ch2] []); [| |constructor].
    - no_well_formed.
    - left. split; [done|]. split; [start_with [0x80; 0x80]|]. intros b r' Hr. done. }
  simpl in Hlen. byte_bounds.
  destruct (is_continuation ch3) eqn:Hc3; cbn [negb].
  2:{ apply (lossy_replace [ch; ch2] (ch3 :: r3));
        [| |apply IH'; [simpl; lia | by apply Forall_cons]].
      - no_well_formed.
      - left. split; [done|]. split; [start_with [0x80; 0x80]|].
        intros b r' [= <- <-]. no_start. }
  destruct r3 as [|ch4 r4].
  { apply (lossy_replace [ch; ch2; ch3] []); [| |constructor].
    - no_well_formed.
    - left. split; [done|]. split; [start_with [0x80]|]. intros b r' Hr. done. }
  simpl in Hlen. byte_bounds.
  destruct (is_continuation ch4) eqn:Hc4.
  - apply (lossy_char _ [ch; ch2; ch3; ch4] r4); [|apply IH'; [lia | done]].
    unfold utf8_encode_char, is_code_point, is_surrogate.
    bytes_tests; do 2 f_equal; repeat f_equal; Z.div_mod_to_equations; lia.
  - apply (lossy_replace [ch; ch2; ch3] (ch4 :: r4));
      [| |apply IH'; [simpl; lia | by apply Forall_cons]].
    + no_well_formed.
    + left. split; [done|]. split; [start_with [0x80]|].
      intros b r' [= <- <-]. no_start.
Qed.

(* ===================================================================== *)
(** ** Lossy decoding is determined by the bytes *)
(* ===================================================================== *)

Lemma well_formed_nonempty w : well_formed w -> w <> [].
Proof. intros Hw%well_formed_iff_shape ->. discriminate Hw. Qed.

(** No well-formed sequence begins another one. *)
Lemma well_formed_prefix_free w t : well_formed w -> well_formed (w ++ t) -> t = [].
Proof.
  intros Hw%well_formed_iff_shape Hwt%well_formed_iff_shape.
  destruct w as [|? [|? [|? [|? [|? ?]]]]]; try discriminate Hw;
    destruct t as [|? [|? [|? [|? ?]]]]; try reflexivity; try discriminate Hwt;
    simpl in Hwt; exfalso; bytes_tests.
Qed.

Lemma encode_char_inj c c' w :
  utf8_encode_char c = Some w -> utf8_encode_char c' = Some w -> c = c'.
Proof.
  intros H H'. apply (utf8_decode_encode_char _ _ []) in H, H'. congruence.
Qed.

Lemma starts_well_formed_prefix p q : starts_well_formed (p ++ q) -> starts_well_formed p.
Proof. intros [s Hs]. exists (q ++ s). by rewrite app_assoc. Qed.

Lemma maximal_subpart_nonempty m rest : maximal_subpart m rest -> m <> [].
Proof. intros [(? & _)|(b & -> & _)]; done. Qed.

(** The maximal invalid subsequence at the head of the input is unique. *)
Lemma maximal_subpart_unique m rest m' rest' :
  m ++ rest = m' ++ rest' ->
  maximal_subpart m rest -> maximal_subpart m' rest' -> m = m'.
Proof.
  assert (forall m rest m' rest' t,
            m' = m ++ t -> rest = t ++ rest' ->
            maximal_subpart m rest -> maximal_subpart m' rest' -> t = []) as Hlonger.
  { clear. intros m rest m' rest' t -> -> Hm Hm'.
    destruct t as [|x t]; [done|]. exfalso.
    destruct Hm as [(Hne & Hs & Hmax)|(b & -> & Hb)].
    - destruct Hm' as [(_ & Hs' & _)|(b' & Hb' & _)].
      + apply (Hmax x (t ++ rest') eq_refl).
        apply (starts_well_formed_prefix _ t). by rewrite <- app_assoc.
      + destruct m; [done|]. destruct m; simpl in Hb'; discriminate Hb'.
    - destruct Hm' as [(_ & Hs' & _)|(b' & Hb' & _)].
      + apply Hb. by apply (starts_well_formed_prefix _ (x :: t)).
      + simpl in Hb'. discriminate Hb'. }
  intros Heq Hm Hm'.
  apply app_eq_inv in Heq as [(t & -> & ->)|(t & -> & ->)].
  - rewrite (Hlonger _ _ _ _ t eq_refl eq_refl Hm' Hm). by rewrite app_nil_r.
  - rewrite (Hlonger _ _ _ _ t eq_refl eq_refl Hm Hm'). by rewrite app_nil_r.
Qed.

Lemma lossy_decoding_inv bs out :
  lossy_decoding bs out ->
  (bs = [] /\ out = [])
  \/ (exists c w rest out', bs = w ++ rest /\ out = c :: out'
         /\ utf8_encode_char c = Some w /\ lossy_decoding rest out')
  \/ (exists m rest out', bs = m ++ rest /\ out = REPLACEMENT :: out'
         /\ ill_formed_at bs /\ maximal_subpart m rest /\ lossy_decoding rest out').
Proof.
  destruct 1 as [|c w rest out' Hc Hrest|m rest out' Hill Hmax Hrest].
  - by left.
  - right. left. by exists c, w, rest, out'.
  - right. right. by exists m, rest, out'.
Qed.

Lemma lossy_decoding_unique bs out1 out2 :
  lossy_decoding bs out1 -> lossy_decoding bs out2 -> out1 = out2.
Proof.
  intros H1. revert out2.
  induction H1 as [|c w rest out Hc Hrest IH|m rest out Hill Hmax Hrest IH];
    intros out2 H2;
    apply lossy_decoding_inv in H2
      as [[Heq ->]|[(c' & w' & rest' & out' & Heq & -> & Hc' & Hrest')
                   |(m' & rest' & out' & Heq & -> & Hill' & Hmax' & Hrest')]].
  - done.
  - symmetry in Heq. apply app_eq_nil in Heq as [-> _].
    exfalso. by apply (well_formed_nonempty []); [exists c'|].
  - symmetry in Heq. apply app_eq_nil in Heq as [-> _].
    exfalso. by apply (maximal_subpart_nonempty [] rest').
  - apply app_eq_nil in Heq as [-> _].
    exfalso. by apply (well_formed_nonempty []); [exists c|].
  - assert (w' = w) as ->.
    { apply app_eq_inv in Heq as [(t & -> & ->)|(t & -> & ->)].
      - rewrite (well_formed_prefix_free w' t); [by rewrite app_nil_r|by exists c'|by exists c].
      - rewrite (well_formed_prefix_free w t); [by rewrite app_nil_r|by exists c|by exists c']. }
    apply app_inv_head in Heq as ->.
    rewrite (encode_char_inj c c' w Hc Hc'). f_equal. auto.
  - exfalso. apply (Hill' w rest eq_refl). by exists c.
  - apply app_eq_nil in Heq as [-> _].
    exfalso. by apply (maximal_subpart_nonempty [] rest).
  - exfalso. apply (Hill w' rest' Heq). by exists c'.
  - assert (m' = m) as -> by (by apply (maximal_subpart_unique m' rest' m rest)).
    apply app_inv_head in Heq as ->. f_equal. auto.
Qed.

(* ===================================================================== *)
(** ** [decode] *)
(* ===================================================================== *)

Lemma join_vocab_concat (v : list (Z * list byte)) ids chunks :
  Forall2 (fun t b => dict_get v t = Some b) ids chunks ->
  join_vocab v ids = Ok (concat chunks).
Proof.
  induction 1 as [|t b ids chunks Hb _ IH]; [done|].
  by rewrite (join_vocab_cons _ _ _ _ Hb), IH.
Qed.

Lemma vocab_chunks (v : list (Z * list byte)) ids :
  Forall (fun t => is_Some (dict_get v t)) ids ->
  exists chunks, Forall2 (fun t b => dict_get v t = Some b) ids chunks.
Proof.
  induction 1 as [|t ids [b Hb] _ [chunks IH]]; [by exists []|].
  exists (b :: chunks). by constructor.
Qed.

(** C8, as the code has it.  On a tokenizer whose vocabulary is not empty,
    [decode] of IDs that all have an entry joins their expansions in order
    and returns the lossy decoding of the joined bytes: the code point of
    each well-formed sequence and exactly one U+FFFD for each maximal
    invalid subsequence.  That decoding exists for every byte buffer and is
    the only one, so this step cannot fail. *)
Theorem C8_decode_is_lossy_decoding (self : tokenizer) (ids : list Z) :
  vocab self <> [] ->
  Forall (fun t => is_Some (dict_get (vocab self) t)) ids ->
  exists (chunks : list (list byte)) (s : list Z),
    Forall2 (fun t b => dict_get (vocab self) t = Some b) ids chunks
    /\ decode ids self = (Ok s, self)
    /\ s = utf8_decode_replace (byte_to_Z <$> concat chunks)
    /\ lossy_decoding (byte_to_Z <$> concat chunks) s
    /\ forall s', lossy_decoding (byte_to_Z <$> concat chunks) s' -> s' = s.
Proof.
  intros Hv Hids. destruct (vocab_chunks _ _ Hids) as [chunks Hchunks].
  exists chunks, (utf8_decode_replace (byte_to_Z <$> concat chunks)).
  assert (lossy_decoding (byte_to_Z <$> concat chunks)
            (utf8_decode_replace (byte_to_Z <$> concat chunks))) as Hlossy.
  { apply (utf8_decode_replace_lossy (length (byte_to_Z <$> concat chunks))); [done|].
    apply Forall_fmap, Forall_forall. intros b _. apply byte_to_Z_range. }
  split; [done|]. split.
  { rewrite decode_run, (join_vocab_concat _ _ _ Hchunks). by destruct (vocab self). }
  split; [done|]. split; [done|].
  intros s' Hs'. by apply (lossy_decoding_unique _ _ _ Hs' Hlossy).
Qed.

Lemma C8_witness :
  exists (chunks : list (list byte)) (s : list Z),
    Forall2 (fun t b => dict_get [(0, [xe2; x82]); (1, [xac; xff])] t = Some b) [0; 1; 0] chunks
    /\ decode [0; 1; 0] (Tokenizer [(0, [xe2; x82]); (1, [xac; xff])] [])
       = (Ok s, Tokenizer [(0, [xe2; x82]); (1, [xac; xff])] [])
    /\ s = utf8_decode_replace (byte_to_Z <$> concat chunks)
    /\ lossy_decoding (byte_to_Z <$> concat chunks) s
    /\ forall s', lossy_decoding (byte_to_Z <$> concat chunks) s' -> s' = s.
Proof.
  apply (C8_decode_is_lossy_decoding (Tokenizer [(0, [xe2; x82]); (1, [xac; xff])] []) [0; 1; 0]).
  - discriminate.
  - repeat (apply Forall_cons_2; [eexists; reflexivity|]). apply Forall_nil_2.
Defined.

(** The bytes E2 82 AC FF E2 82: a euro sign, a byte that begins nothing,
    and a sequence cut short by the end of the input. *)
Example decode_lossy_run :
  decode [0; 1; 0] (Tokenizer [(0, [xe2; x82]); (1, [xac; xff])] [])
  = (Ok [0x20AC; 0xFFFD; 0xFFFD], Tokenizer [(0, [xe2; x82]); (1, [xac; xff])] []).
Proof. vm_compute. reflexivity. Qed.

(** C8 as stated fails on a tokenizer that was never trained: the empty
    sequence has no ID without an entry, and [decode] raises. *)
Lemma C8_counterexample :
  Forall (fun t => is_Some (dict_get (vocab fresh) t)) []
  /\ decode [] fresh = (Raise RuntimeError, fresh).
Proof. split; [apply Forall_nil_2 | reflexivity]. Qed.

(* ===================================================================== *)
(** ** More on [_get_stats] and [_merge] *)
(* ===================================================================== *)

Lemma total_app l1 l2 : total (l1 ++ l2) = total l1 + total l2.
Proof. unfold total. induction l1 as [|x l1 IH]; simpl; lia. Qed.

Lemma total_values_set (d : list ((Z * Z) * Z)) k v :
  total (dict_values (dict_set d k v))
  = total (dict_values d) - default 0 (dict_get d k) + v.
Proof.
  induction d as [|[k' v'] d IH]; [unfold dict_values, total; simpl; lia|].
  cbn [dict_set dict_get]. destruct (decide (k' = k)).
  - unfold dict_values, total. simpl. lia.
  - change (dict_values ((k', v') :: dict_set d k v)) with (v' :: dict_values (dict_set d k v)).
    change (dict_values ((k', v') :: d)) with (v' :: dict_values d).
    unfold total in *. simpl. lia.
Qed.

Lemma dict_set_keys_NoDup {K V} `{EqDecision K} (d : list (K * V)) k v :
  NoDup (dict_keys d) -> NoDup (dict_keys (dict_set d k v)).
Proof.
  intros Hnd. destruct (dict_get d k) as [old|] eqn:E.
  - rewrite dict_set_keys_present by eauto. done.
  - rewrite dict_set_fresh by done. unfold dict_keys in *. rewrite fmap_app.
    apply NoDup_app. split; [done|]. split; [|apply NoDup_singleton].
    intros x Hx [= ->]%list_elem_of_singleton. by apply dict_get_None in E.
Qed.

Lemma stats_keys_NoDup l : NoDup (dict_keys (fold_left count_pair l [])).
Proof.
  induction l as [|p l IH] using rev_ind; [apply NoDup_nil_2|].
  rewrite stats_snoc. by apply dict_set_keys_NoDup.
Qed.

Lemma stats_total l :
  total (dict_values (fold_left count_pair l [])) = Z.of_nat (length l).
Proof.
  induction l as [|p l IH] using rev_ind; [done|].
  rewrite stats_snoc. unfold count_pair at 1.
  rewrite total_values_set, IH, length_app. simpl. lia.
Qed.

(** X1. The statistics list every adjacent pair of the sequence once, with
    the number of its occurrences (at least one); the counts add up to the
    number of adjacent positions, [len(ids) - 1]; a sequence of fewer than
    two tokens has no statistics. *)
Theorem X1_get_stats_counts (ids : list Z) :
  NoDup (dict_keys (_get_stats ids))
  /\ (forall q, q ∈ dict_keys (_get_stats ids) <-> q ∈ adjacent_pairs ids)
  /\ (forall q c, dict_get (_get_stats ids) q = Some c ->
        c = occurrences q (adjacent_pairs ids) /\ 1 <= c)
  /\ total (dict_values (_get_stats ids)) = Z.of_nat (length ids - 1)
  /\ ((length ids < 2)%nat <-> _get_stats ids = []).
Proof.
  split; [apply stats_keys_NoDup|]. split; [intros q; apply stats_keys_elem|].
  split.
  { intros q c Hq. unfold _get_stats in Hq. rewrite stats_lookup in Hq.
    destruct (decide (q ∈ adjacent_pairs ids)) as [Hin|]; [|done].
    injection Hq as <-. split; [done|]. apply occurrences_pos in Hin. lia. }
  split.
  { unfold _get_stats. by rewrite stats_total, adjacent_pairs_length. }
  split; [apply stats_empty|].
  intros Hnil. destruct (decide (length ids < 2)%nat) as [|Hge]; [done|].
  exfalso. apply (stats_nonempty ids); [lia | done].
Qed.

Lemma greedy_replace_absent pair idx ids :
  pair ∉ adjacent_pairs ids -> greedy_replace pair idx ids = ids.
Proof.
  induction ids as [| a | a b l IH1 IH2] using list_ind2; [done | done |].
  rewrite adjacent_pairs_cons, greedy_replace_cons2, pair_test.
  intros [Hne Hrest]%not_elem_of_cons.
  rewrite bool_decide_eq_false_2 by done. by rewrite IH2.
Qed.

Lemma greedy_replace_half pair idx ids :
  (length ids <= 2 * length (greedy_replace pair idx ids))%nat.
Proof.
  induction ids as [| a | a b l IH1 IH2] using list_ind2; [simpl; lia | simpl; lia |].
  rewrite greedy_replace_cons2.
  destruct (bool_decide (a = pair.1) && bool_decide (b = pair.2)); simpl in *; lia.
Qed.

(** X2. [_merge] returns the sequence unchanged when the pair does not stand
    in it, and a strictly shorter one when it does; the result is never
    longer than the input and never shorter than half of it. *)
Theorem X2_merge_length (ids : list Z) (pair : Z * Z) (idx : Z) :
  (pair ∉ adjacent_pairs ids -> _merge ids pair idx = ids)
  /\ (pair ∈ adjacent_pairs ids ->
        (length (_merge ids pair idx) < length ids)%nat)
  /\ (length (_merge ids pair idx) <= length ids)%nat
  /\ (length ids <= 2 * length (_merge ids pair idx))%nat.
Proof.
  rewrite merge_greedy. split; [apply greedy_replace_absent|].
  split; [apply greedy_replace_shorter|].
  split; [apply greedy_replace_length | apply greedy_replace_half].
Qed.

Lemma X2_witness :
  (length (_merge [1; 2; 1; 2]%Z (1, 2)%Z 9%Z) < length [1; 2; 1; 2]%Z)%nat.
Proof.
  apply (proj1 (proj2 (X2_merge_length [1; 2; 1; 2]%Z (1, 2)%Z 9%Z))).
  refine (bool_decide_eq_true_1 (_ ∈ _) _). vm_compute. reflexivity.
Defined.

(** X3. When the replacement ID is neither member of the pair, no occurrence
    of the pair is left after [_merge]: a second pass changes nothing.  Every
    token of the result is the replacement ID or a token of the input. *)
Theorem X3_merge_removes_pair (ids : list Z) (pair : Z * Z) (idx : Z) :
  idx <> pair.1 -> idx <> pair.2 ->
  (pair ∉ adjacent_pairs (_merge ids pair idx))
  /\ _merge (_merge ids pair idx) pair idx = _merge ids pair idx
  /\ (forall t, t ∈ _merge ids pair idx -> t = idx \/ t ∈ ids).
Proof.
  intros H1 H2.
  assert (pair ∉ adjacent_pairs (_merge ids pair idx)) as Hgone.
  { rewrite merge_greedy. intros Hin.
    destruct (adjacent_after_merge _ _ _ _ Hin) as [_ Hne]; congruence. }
  split; [done|]. split.
  - rewrite (merge_greedy (_merge ids pair idx)). by apply greedy_replace_absent.
  - intros t. rewrite merge_greedy. apply greedy_replace_elem.
Qed.

Lemma X3_witness :
  ((1, 1) ∉ adjacent_pairs (_merge [1; 1; 1; 2; 1; 1] (1, 1) 9))
  /\ _merge (_merge [1; 1; 1; 2; 1; 1] (1, 1) 9) (1, 1) 9
     = _merge [1; 1; 1; 2; 1; 1] (1, 1) 9
  /\ (forall t, t ∈ _merge [1; 1; 1; 2; 1; 1] (1, 1) 9 ->
        t = 9 \/ t ∈ [1; 1; 1; 2; 1; 1]).
Proof.
  apply (X3_merge_removes_pair [1; 1; 1; 2; 1; 1] (1, 1) 9); simpl; lia.
Defined.

(** A replacement ID that is a member of the pair can bring the pair back. *)
Example merge_reused_id : _merge [1; 2; 2] (1, 2) 1 = [1; 2].
Proof. reflexivity. Qed.

(** X4. Where the vocabulary entry of the replacement ID is the entry of the
    left member followed by the entry of the right member, [decode] gives
    the same outcome for the merged sequence as for the sequence itself. *)
Theorem X4_decode_after_merge
    (self : tokenizer) (ids : list Z) (a b idx : Z) (l r : list byte) :
  dict_get (vocab self) a = Some l ->
  dict_get (vocab self) b = Some r ->
  dict_get (vocab self) idx = Some (l ++ r) ->
  decode (_merge ids (a, b) idx) self = decode ids self.
Proof.
  intros Ha Hb Hidx. rewrite !decode_run, merge_greedy.
  by rewrite (join_vocab_merge _ _ _ _ l r).
Qed.

Lemma X4_witness :
  decode (_merge [97; 98; 99; 97; 98] (97, 98) 256)
    (Tokenizer [(97, [x61]); (98, [x62]); (99, [x63]); (256, [x61; x62])] [])
  = decode [97; 98; 99; 97; 98]
      (Tokenizer [(97, [x61]); (98, [x62]); (99, [x63]); (256, [x61; x62])] []).
Proof.
  apply (X4_decode_after_merge
           (Tokenizer [(97, [x61]); (98, [x62]); (99, [x63]); (256, [x61; x62])] [])
           [97; 98; 99; 97; 98] 97 98 256 [x61] [x62]); reflexivity.
Defined.

(* ===================================================================== *)
(** ** More on the training loop *)
(* ===================================================================== *)

(** With no pair of the sequence in the merge table the loop of [encode]
    returns the sequence at once. *)
Lemma encode_loop_no_pair mg fuel tokens :
  (forall p, p ∈ adjacent_pairs tokens -> dict_get mg p = None) ->
  encode_loop fuel mg tokens = Ok tokens.
Proof.
  intros Hnone. destruct fuel as [|fuel]; [done|]. cbn [encode_loop].
  destruct (bool_decide (2 <= length tokens)%nat) eqn:Hlen; [|done].
  apply bool_decide_eq_true in Hlen.
  destruct (min_pair_is_Some mg tokens Hlen) as [p Hmin]. rewrite Hmin.
  destruct (min_pair_split _ _ _ Hmin) as [Hpin _].
  apply (proj1 (stats_keys_elem _ _)) in Hpin. by rewrite (Hnone p Hpin).
Qed.

Lemma dict_values_elem_key {K V} `{EqDecision K} (d : list (K * V)) v :
  NoDup (dict_keys d) -> v ∈ dict_values d -> exists k, dict_get d k = Some v.
Proof.
  intros Hnd (kv & -> & Hin)%list_elem_of_fmap. destruct kv as [k v].
  exists k. by apply dict_elem_get.
Qed.

Lemma dict_get_values {K V} `{EqDecision K} (d : list (K * V)) k v :
  dict_get d k = Some v -> v ∈ dict_values d.
Proof.
  intros Hg%dict_get_Some_elem. unfold dict_values.
  apply list_elem_of_fmap. by exists (k, v).
Qed.

Lemma dict_values_app {K V} (d e : list (K * V)) :
  dict_values (d ++ e) = dict_values d ++ dict_values e.
Proof. unfold dict_values. apply fmap_app. Qed.

Lemma dict_values_length {K V} (d : list (K * V)) : length (dict_values d) = length d.
Proof. unfold dict_values. apply length_fmap. Qed.

(** The first turn of [encode] with the tables of a later state of training:
    the pair recorded at turn [i] is the one to merge, because the pairs
    recorded before no longer stand in the sequence and the pairs recorded
    after have larger values. *)
Lemma encode_loop_follows_training i k ids self self' p ext fuel :
  training i ids self -> trained k self' ->
  p ∈ adjacent_pairs ids ->
  merges self' = merges self ++ (p, 256 + i) :: ext ->
  encode_loop (S fuel) (merges self') ids
  = encode_loop fuel (merges self') (_merge ids p (256 + i)).
Proof.
  intros (Ht & Hids & Hgone) Ht' Hp Hm.
  pose proof (trained_nonneg _ _ Ht) as Hi.
  assert (dict_values ((p, 256 + i) :: ext) = seqZ (256 + i) (k - i) /\ i < k) as [Hvals Hik].
  { pose proof (trained_merge_values _ _ Ht') as Hv. rewrite Hm in Hv.
    rewrite dict_values_app, (trained_merge_values _ _ Ht) in Hv.
    assert (i < k) as Hlt.
    { apply (f_equal length) in Hv.
      rewrite length_app, !length_seqZ, dict_values_length in Hv. simpl in Hv.
      pose proof (trained_nonneg _ _ Ht'). lia. }
    split; [|done].
    replace k with (i + (k - i)) in Hv at 1 by lia.
    rewrite seqZ_app in Hv by lia. by apply app_inv_head in Hv. }
  assert (forall q, q ∈ adjacent_pairs ids ->
            dict_get (merges self') q = dict_get ((p, 256 + i) :: ext) q) as Hlook.
  { intros q Hq. rewrite Hm, dict_get_app.
    destruct (dict_get (merges self) q) eqn:E; [|done].
    exfalso. apply (Hgone q); eauto. }
  assert (dict_get (merges self') p = Some (256 + i)) as Hgp.
  { rewrite (Hlook p Hp). simpl. by rewrite decide_True. }
  assert (2 <= length ids)%nat as Hlen.
  { pose proof (adjacent_pairs_length ids) as Hl.
    destruct (adjacent_pairs ids); [by apply elem_of_nil in Hp | simpl in Hl; lia]. }
  destruct (min_pair_is_Some (merges self') ids Hlen) as [r Hmin].
  destruct (min_pair_split _ _ _ Hmin) as [Hrin Hall].
  pose proof (Hall p (proj2 (stats_keys_elem _ _) Hp)) as Hle.
  apply (proj1 (stats_keys_elem _ _)) in Hrin.
  rewrite Hgp in Hle. destruct (dict_get (merges self') r) as [vr|] eqn:Hgr; [|done].
  simpl in Hle. rewrite (Hlook r Hrin) in Hgr.
  assert (r = p) as ->.
  { pose proof (dict_get_values _ _ _ Hgr) as Hin. rewrite Hvals, elem_of_seqZ in Hin.
    assert (vr = 256 + i) as -> by lia.
    simpl in Hgr. destruct (decide (p = r)) as [|Hne]; [done|]. exfalso.
    apply dict_get_values in Hgr.
    change (dict_values ((p, 256 + i) :: ext)) with ((256 + i) :: dict_values ext) in Hvals.
    assert (NoDup ((256 + i) :: dict_values ext)) as Hnd
      by (rewrite Hvals; apply NoDup_seqZ).
    apply NoDup_cons in Hnd as [Hnot _]. done. }
  cbn [encode_loop]. rewrite bool_decide_eq_true_2 by done. by rewrite Hmin, Hgp.
Qed.

(** The loop of [train], turn by turn: both tables only grow at their end,
    one entry per turn; every turn shortens the sequence; the loop stops
    before its last turn only when fewer than two tokens are left; and the
    loop of [encode], run on the sequence the training loop started from
    with the final merge table, arrives at the sequence the training loop
    ended with. *)
Lemma train_loop_progress n i ids self :
  training i ids self ->
  exists ids' self' k ext vext,
    train_loop n i ids self = (Ok ids', self')
    /\ training k ids' self'
    /\ merges self' = merges self ++ ext
    /\ vocab self' = vocab self ++ vext
    /\ k = i + Z.of_nat (length ext)
    /\ length vext = length ext
    /\ (length ids' + length ext <= length ids)%nat
    /\ (length ext = n \/ (length ids' < 2)%nat)
    /\ (length ext <= n)%nat
    /\ (ids' = [] <-> ids = [])
    /\ forall fuel, (length ids <= fuel)%nat ->
         encode_loop fuel (merges self') ids = Ok ids'.
Proof.
  revert i ids self. induction n as [|n IH]; intros i ids self Hinv.
  - exists ids, self, i, [], []. rewrite !app_nil_r. simpl.
    split; [done|]. split; [done|]. split; [done|]. split; [done|].
    split; [lia|]. split; [done|]. split; [lia|]. split; [by left|]. split; [lia|].
    split; [done|].
    intros fuel _. apply encode_loop_no_pair. intros p Hp.
    destruct Hinv as (_ & _ & Hgone).
    destruct (dict_get (merges self) p) eqn:E; [|done]. exfalso. apply (Hgone p); eauto.
  - destruct (decide (2 <= length ids)%nat) as [Hlen|Hlen].
    + destruct (max_pair_is_Some ids Hlen) as [p Hmax].
      rewrite (train_loop_turn _ _ _ _ Hmax).
      assert (p ∈ adjacent_pairs ids) as Hp.
      { destruct (max_pair_split _ _ Hmax) as (K1 & K2 & HK & _).
        apply (proj1 (stats_keys_elem _ _)). fold (_get_stats ids). rewrite HK.
        apply elem_of_app. right. apply list_elem_of_here. }
      destruct (record_merge_training _ _ _ _ Hinv Hp) as (l & r & _ & _ & Hrec & Hinv').
      destruct (IH _ _ _ Hinv')
        as (ids' & self' & k & ext & vext & Hrun & Hk & Hm & Hv & Hke & Hlv & Hll & Hstop
            & Hmost & Hnil & Henc).
      cbn [merges vocab] in Hm, Hv.
      exists ids', self', k, ((p, 256 + i) :: ext), ((256 + i, l ++ r) :: vext).
      split; [unfold bind; rewrite Hrec; exact Hrun|]. split; [done|].
      split; [by rewrite Hm, <- app_assoc|]. split; [by rewrite Hv, <- app_assoc|].
      pose proof (greedy_replace_shorter p (256 + i) ids Hp) as Hshort.
      rewrite <- merge_greedy in Hshort.
      split; [simpl; lia|]. split; [simpl; lia|]. split; [simpl; lia|].
      split; [destruct Hstop; [left; simpl; lia | by right]|].
      split; [simpl; lia|].
      split; [rewrite Hnil, merge_greedy; apply greedy_replace_nil|].
      intros fuel Hfuel. destruct fuel as [|fuel]; [lia|].
      rewrite (encode_loop_follows_training i k ids self self' p ext fuel Hinv).
      * apply Henc. lia.
      * apply Hk.
      * done.
      * by rewrite Hm, <- app_assoc.
    + exists ids, self, i, [], []. rewrite !app_nil_r.
      split; [cbn [train_loop]; by rewrite stats_empty by lia|].
      split; [done|]. split; [done|]. split; [done|]. simpl.
      split; [lia|]. split; [done|]. split; [lia|]. split; [right; lia|]. split; [lia|].
      split; [done|].
      intros fuel _. apply encode_loop_no_pair. intros p Hp.
      pose proof (adjacent_pairs_length ids) as Hl.
      destruct (adjacent_pairs ids); [by apply elem_of_nil in Hp | simpl in Hl; lia].
Qed.

(** What a successful [train] has done. *)
Lemma train_report text vocab_size self self' :
  train text vocab_size self = (Ok tt, self') ->
  exists bs ids' k,
    utf8_encode text = Some bs
    /\ train_loop (Z.to_nat (vocab_size - 256)) 0 bs (Tokenizer initial_vocab [])
       = (Ok ids', self')
    /\ 256 <= vocab_size
    /\ training k ids' self'
    /\ k = Z.of_nat (length (merges self'))
    /\ length (vocab self') = (256 + length (merges self'))%nat
    /\ (length ids' + length (merges self') <= length bs)%nat
    /\ (length (merges self') = Z.to_nat (vocab_size - 256) \/ (length ids' < 2)%nat)
    /\ (length (merges self') <= Z.to_nat (vocab_size - 256))%nat
    /\ ids' <> []
    /\ forall fuel, (length bs <= fuel)%nat ->
         encode_loop fuel (merges self') bs = Ok ids'.
Proof.
  intros Htrain. unfold train in Htrain.
  destruct (Z.ltb_spec vocab_size 256) as [Hlt|Hge]; [done|].
  unfold bind, lift, encode_utf8, set_vocab, set_merges in Htrain.
  cbn [vocab merges] in Htrain.
  destruct (utf8_encode text) as [bs|] eqn:Ebs; [|done].
  assert (training 0 bs (Tokenizer initial_vocab [])) as Hinit.
  { split; [apply trained_initial|]. split.
    - apply utf8_encode_range in Ebs. eapply Forall_impl; [exact Ebs|].
      intros b Hb. simpl in Hb. lia.
    - intros p [v Hv]. done. }
  destruct (train_loop_progress (Z.to_nat (vocab_size - 256)) _ _ _ Hinit)
    as (ids' & s & k & ext & vext & Hrun & Hk & Hm & Hv & Hke & Hlv & Hll & Hstop
        & Hmost & Hnil & Henc).
  rewrite Hrun in Htrain. cbn [merges vocab] in Hm, Hv. simpl in Hm.
  destruct (bool_decide (length ids' = 0%nat)) eqn:E; [done|].
  injection Htrain as <-. apply bool_decide_eq_false in E.
  exists bs, ids', k. rewrite Hm.
  split; [done|]. split; [done|]. split; [done|]. split; [done|].
  split; [lia|]. split.
  { rewrite Hv, length_app, Hlv.
    assert (length initial_vocab = 256%nat) as -> by (vm_compute; reflexivity). done. }
  split; [done|]. split; [done|]. split; [done|]. split; [by destruct ids'|].
  rewrite <- Hm. exact Henc.
Qed.

(* ===================================================================== *)
(** ** The tables a training run leaves *)
(* ===================================================================== *)

(** X5. After a successful [train] the vocabulary has 256 entries more than
    the merge table and at most [vocab_size] entries; it has exactly
    [vocab_size] entries unless the training sequence shrank to a single
    token first; there are fewer merges than bytes in the text; and
    [__repr__] reports these two sizes. *)
Theorem X5_vocabulary_growth
    (text : list Z) (vocab_size : Z) (self self' : tokenizer) :
  train text vocab_size self = (Ok tt, self') ->
  exists bs ids',
    utf8_encode text = Some bs
    /\ train_loop (Z.to_nat (vocab_size - 256)) 0 bs (Tokenizer initial_vocab [])
       = (Ok ids', self')
    /\ length (vocab self') = (256 + length (merges self'))%nat
    /\ Z.of_nat (length (vocab self')) <= vocab_size
    /\ (Z.of_nat (length (vocab self')) = vocab_size \/ length ids' = 1%nat)
    /\ (length (merges self') < length bs)%nat
    /\ repr self'
       = "BPETokenizer(vocab_size="
         +:+ py_str (256 + Z.of_nat (length (merges self')))
         +:+ ", num_merges=" +:+ py_str (Z.of_nat (length (merges self'))) +:+ ")".
Proof.
  intros Htrain.
  destruct (train_report _ _ _ _ Htrain)
    as (bs & ids' & k & Ebs & Hrun & Hge & Hinv & Hk & Hlv & Hll & Hstop & Hmost & Hne & _).
  exists bs, ids'. split; [done|]. split; [done|]. split; [done|].
  assert (0 < length ids')%nat by (destruct ids'; [done | simpl; lia]).
  split; [lia|]. split; [destruct Hstop; [left | right]; lia|]. split; [lia|].
  unfold repr. rewrite Hlv, Nat2Z.inj_add. done.
Qed.

Lemma X5_witness :
  exists bs ids',
    utf8_encode (text_of "aaaa") = Some bs
    /\ train_loop (Z.to_nat (300 - 256)) 0 bs (Tokenizer initial_vocab [])
       = (Ok ids', (train (text_of "aaaa") 300 fresh).2)
    /\ length (vocab (train (text_of "aaaa") 300 fresh).2)
       = (256 + length (merges (train (text_of "aaaa") 300 fresh).2))%nat
    /\ Z.of_nat (length (vocab (train (text_of "aaaa") 300 fresh).2)) <= 300
    /\ (Z.of_nat (length (vocab (train (text_of "aaaa") 300 fresh).2)) = 300
        \/ length ids' = 1%nat)
    /\ (length (merges (train (text_of "aaaa") 300 fresh).2) < length bs)%nat
    /\ repr (train (text_of "aaaa") 300 fresh).2
       = "BPETokenizer(vocab_size="
         +:+ py_str (256 + Z.of_nat (length (merges (train (text_of "aaaa") 300 fresh).2)))
         +:+ ", num_merges="
         +:+ py_str (Z.of_nat (length (merges (train (text_of "aaaa") 300 fresh).2)))
         +:+ ")".
Proof.
  apply (X5_vocabulary_growth (text_of "aaaa") 300 fresh).
  vm_compute. reflexivity.
Defined.

(** Four bytes leave room for two merges only, whatever [vocab_size] asks. *)
Example repr_after_training :
  repr (train (text_of "aaaa") 300 fresh).2
  = "BPETokenizer(vocab_size=258, num_merges=2)"%string.
Proof. vm_compute. reflexivity. Qed.

(** The entry of a raw byte is that one byte; the entry of a merged ID has at
    least two bytes. *)
Lemma trained_entry_length k self t bs :
  trained k self -> dict_get (vocab self) t = Some bs ->
  (t < 256 -> length bs = 1%nat) /\ (256 <= t -> (2 <= length bs)%nat).
Proof.
  intros Ht. revert bs.
  induction t as [t IH] using (well_founded_induction (Z.lt_wf 0)).
  intros bs Hbs.
  assert (0 <= t < 256 + k) as Hr.
  { assert (t ∈ dict_keys (vocab self)) as Hin by (apply dict_get_is_Some; eauto).
    rewrite (trained_vocab_keys _ _ Ht), elem_of_seqZ in Hin. lia. }
  split.
  - intros Hlt. rewrite (trained_bytes _ _ Ht t) in Hbs by lia. by injection Hbs as <-.
  - intros Hge.
    destruct (dict_values_elem_key (merges self) t (trained_merge_keys _ _ Ht))
      as [p Hp].
    { rewrite (trained_merge_values _ _ Ht), elem_of_seqZ. lia. }
    destruct (trained_expansion _ _ Ht _ _ Hp) as (H1 & H2 & l & r & Hl & Hrr & Hlr).
    rewrite Hlr in Hbs. injection Hbs as <-. rewrite length_app.
    destruct (IH p.1 ltac:(lia) l Hl) as [Ha Hb].
    destruct (IH p.2 ltac:(lia) r Hrr) as [Hc Hd].
    destruct (decide (p.1 < 256)); destruct (decide (p.2 < 256)); lia.
Qed.

(** X6. After a successful [train] the tables refer to each other as they
    should: the raw bytes [0..255] expand to themselves; every merge maps two
    IDs that are smaller than the ID it gives, and that ID expands to the
    expansion of the left one followed by the expansion of the right one;
    every vocabulary ID from 256 on is the value of a merge; and no expansion
    is empty, those of merged IDs having at least two bytes. *)
Theorem X6_trained_tables_integrity
    (text : list Z) (vocab_size : Z) (self self' : tokenizer) :
  train text vocab_size self = (Ok tt, self') ->
  (forall b, 0 <= b < 256 -> dict_get (vocab self') b = Some [byte_of_Z b])
  /\ (forall p v, dict_get (merges self') p = Some v ->
        256 <= v /\ 0 <= p.1 < v /\ 0 <= p.2 < v
        /\ exists l r, dict_get (vocab self') p.1 = Some l
             /\ dict_get (vocab self') p.2 = Some r
             /\ dict_get (vocab self') v = Some (l ++ r))
  /\ (forall t, is_Some (dict_get (vocab self') t) ->
        0 <= t < 256 \/ exists p, dict_get (merges self') p = Some t)
  /\ (forall t bs, dict_get (vocab self') t = Some bs ->
        (t < 256 -> length bs = 1%nat) /\ (256 <= t -> (2 <= length bs)%nat)).
Proof.
  intros Htrain.
  destruct (train_success _ _ _ _ Htrain) as (_ & _ & _ & k & Ht & Hk & _).
  split; [apply Ht|]. split.
  { intros p v Hp. destruct (trained_expansion _ _ Ht _ _ Hp) as (H1 & H2 & Hex).
    split; [|done]. apply dict_get_values in Hp.
    rewrite (trained_merge_values _ _ Ht), elem_of_seqZ in Hp. lia. }
  split.
  { intros t Hin%dict_get_is_Some.
    rewrite (trained_vocab_keys _ _ Ht), elem_of_seqZ in Hin.
    destruct (decide (t < 256)); [left; lia|]. right.
    apply (dict_values_elem_key (merges self') t (trained_merge_keys _ _ Ht)).
    rewrite (trained_merge_values _ _ Ht), elem_of_seqZ. lia. }
  intros t bs. by apply (trained_entry_length k).
Qed.

Lemma X6_witness :
  (forall b, 0 <= b < 256 ->
     dict_get (vocab (train (text_of "abcabcab") 258 fresh).2) b = Some [byte_of_Z b])
  /\ (forall p v, dict_get (merges (train (text_of "abcabcab") 258 fresh).2) p = Some v ->
        256 <= v /\ 0 <= p.1 < v /\ 0 <= p.2 < v
        /\ exists l r,
             dict_get (vocab (train (text_of "abcabcab") 258 fresh).2) p.1 = Some l
             /\ dict_get (vocab (train (text_of "abcabcab") 258 fresh).2) p.2 = Some r
             /\ dict_get (vocab (train (text_of "abcabcab") 258 fresh).2) v = Some (l ++ r))
  /\ (forall t, is_Some (dict_get (vocab (train (text_of "abcabcab") 258 fresh).2) t) ->
        0 <= t < 256
        \/ exists p, dict_get (merges (train (text_of "abcabcab") 258 fresh).2) p = Some t)
  /\ (forall t bs, dict_get (vocab (train (text_of "abcabcab") 258 fresh).2) t = Some bs ->
        (t < 256 -> length bs = 1%nat) /\ (256 <= t -> (2 <= length bs)%nat)).
Proof.
  apply (X6_trained_tables_integrity (text_of "abcabcab") 258 fresh).
  vm_compute. reflexivity.
Defined.

(** X7. [encode] of the text a tokenizer was trained on gives the token
    sequence the training loop ended with: the encoder replays the recorded
    merges in their order and then finds nothing more to merge. *)
Theorem X7_encode_training_text
    (text : list Z) (vocab_size : Z) (self self' : tokenizer) :
  train text vocab_size self = (Ok tt, self') ->
  merges self' <> [] ->
  exists bs ids',
    utf8_encode text = Some bs
    /\ train_loop (Z.to_nat (vocab_size - 256)) 0 bs (Tokenizer initial_vocab [])
       = (Ok ids', self')
    /\ encode text self' = (Ok ids', self')
    /\ (length ids' + length (merges self') <= length bs)%nat.
Proof.
  intros Htrain Hm.
  destruct (train_report _ _ _ _ Htrain)
    as (bs & ids' & k & Ebs & Hrun & Hge & Hinv & Hk & Hlv & Hll & Hstop & Hmost & Hne & Henc).
  exists bs, ids'. split; [done|]. split; [done|]. split; [|done].
  rewrite encode_run, Ebs, (Henc (length bs)) by done. by destruct (merges self').
Qed.

Lemma X7_witness :
  exists bs ids',
    utf8_encode (text_of "abcabcab") = Some bs
    /\ train_loop (Z.to_nat (258 - 256)) 0 bs (Tokenizer initial_vocab [])
       = (Ok ids', (train (text_of "abcabcab") 258 fresh).2)
    /\ encode (text_of "abcabcab") (train (text_of "abcabcab") 258 fresh).2
       = (Ok ids', (train (text_of "abcabcab") 258 fresh).2)
    /\ (length ids' + length (merges (train (text_of "abcabcab") 258 fresh).2)
        <= length bs)%nat.
Proof.
  apply (X7_encode_training_text (text_of "abcabcab") 258 fresh).
  - vm_compute. reflexivity.
  - vm_compute. discriminate.
Defined.

Example encode_training_text_run :
  encode (text_of "abcabcab") (train (text_of "abcabcab") 258 fresh).2
  = (Ok [257; 257; 256], (train (text_of "abcabcab") 258 fresh).2).
Proof. vm_compute. reflexivity. Qed.

(* ===================================================================== *)
(** ** [encode] and [decode] with any tables *)
(* ===================================================================== *)

(** [min] is never asked for the least of nothing: the loop of [encode]
    always returns. *)
Lemma encode_loop_total mg fuel tokens : exists ids, encode_loop fuel mg tokens = Ok ids.
Proof.
  revert tokens. induction fuel as [|fuel IH]; intros tokens; [by exists tokens|].
  cbn [encode_loop]. destruct (bool_decide (2 <= length tokens)%nat) eqn:Hlen;
    [|by exists tokens].
  apply bool_decide_eq_true in Hlen.
  destruct (min_pair_is_Some mg tokens Hlen) as [p Hmin]. rewrite Hmin.
  destruct (dict_get mg p) as [idx|]; [apply IH | by exists tokens].
Qed.

Lemma encode_loop_fully_merged mg fuel tokens ids :
  (length tokens <= fuel)%nat ->
  encode_loop fuel mg tokens = Ok ids ->
  forall p, p ∈ adjacent_pairs ids -> dict_get mg p = None.
Proof.
  revert tokens. induction fuel as [|fuel IH]; intros tokens Hfuel Hrun.
  { destruct tokens; [|simpl in Hfuel; lia]. injection Hrun as <-.
    intros p Hp. by apply elem_of_nil in Hp. }
  cbn [encode_loop] in Hrun.
  destruct (bool_decide (2 <= length tokens)%nat) eqn:Hlen.
  2:{ injection Hrun as <-. apply bool_decide_eq_false in Hlen. intros p Hp.
      pose proof (adjacent_pairs_length tokens) as Hl.
      destruct (adjacent_pairs tokens); [by apply elem_of_nil in Hp | simpl in Hl; lia]. }
  apply bool_decide_eq_true in Hlen.
  destruct (min_pair mg (_get_stats tokens)) as [r|] eqn:Hmin; [|done].
  destruct (min_pair_split _ _ _ Hmin) as [Hrin Hall].
  destruct (dict_get mg r) as [idx|] eqn:Hr.
  - apply (IH (_merge tokens r idx)); [|done].
    apply (proj1 (stats_keys_elem _ _)) in Hrin.
    pose proof (greedy_replace_shorter r idx tokens Hrin) as Hshort.
    rewrite <- merge_greedy in Hshort. lia.
  - injection Hrun as <-. intros p Hp.
    specialize (Hall p (proj2 (stats_keys_elem _ _) Hp)).
    by destruct (dict_get mg p).
Qed.

Lemma encode_loop_length mg fuel tokens ids :
  encode_loop fuel mg tokens = Ok ids ->
  (length ids <= length tokens)%nat
  /\ (ids = [] <-> tokens = [])
  /\ Forall (fun t => t ∈ tokens \/ t ∈ dict_values mg) ids.
Proof.
  revert tokens. induction fuel as [|fuel IH]; intros tokens Hrun.
  { injection Hrun as <-. split; [done|]. split; [done|].
    apply Forall_forall. auto. }
  cbn [encode_loop] in Hrun.
  destruct (bool_decide (2 <= length tokens)%nat).
  2:{ injection Hrun as <-. split; [done|]. split; [done|]. apply Forall_forall. auto. }
  destruct (min_pair mg (_get_stats tokens)) as [r|]; [|done].
  destruct (dict_get mg r) as [idx|] eqn:Hr.
  2:{ injection Hrun as <-. split; [done|]. split; [done|]. apply Forall_forall. auto. }
  destruct (IH _ Hrun) as (Hlen & Hnil & Hall). rewrite merge_greedy in Hlen, Hnil, Hall.
  pose proof (greedy_replace_length r idx tokens). split; [lia|].
  split; [by rewrite Hnil, greedy_replace_nil|].
  eapply Forall_impl; [exact Hall|]. intros t [Ht|Ht]; [|by right]. simpl in Ht.
  apply greedy_replace_elem in Ht as [->|Ht]; [right | by left].
  by apply (dict_get_values _ r).
Qed.

(** X8. [encode] has three outcomes and no other: [RuntimeError] when the
    merge table is empty, whatever the text; [UnicodeEncodeError] when the
    table is not empty and the text holds a surrogate; and a list of IDs
    otherwise.  The tokenizer is left as it was in all three. *)
Theorem X8_encode_outcome (self : tokenizer) (T : list Z) :
  (merges self = [] /\ encode T self = (Raise RuntimeError, self))
  \/ (merges self <> [] /\ ~ valid_text T
      /\ encode T self = (Raise UnicodeEncodeError, self))
  \/ (merges self <> [] /\ valid_text T
      /\ exists ids, encode T self = (Ok ids, self)).
Proof.
  rewrite encode_run. destruct (merges self) as [|e m] eqn:Em; [by left|]. right.
  destruct (utf8_encode T) as [bs|] eqn:Ebs.
  - right. split; [done|]. split; [apply valid_text_encode; rewrite Ebs; eauto|].
    destruct (encode_loop_total (e :: m) (length bs) bs) as [ids Hids].
    exists ids. by rewrite Hids.
  - left. split; [done|]. split; [|done].
    intros [bs Hbs]%valid_text_encode. congruence.
Qed.

(** X9. Whatever [encode] returns is merged to the end: no two neighbouring
    IDs of the result are a pair of the merge table. *)
Theorem X9_encode_output_fully_merged
    (self self' : tokenizer) (T ids : list Z) :
  encode T self = (Ok ids, self') ->
  forall p, p ∈ adjacent_pairs ids -> dict_get (merges self) p = None.
Proof.
  rewrite encode_run. destruct (merges self) as [|e m] eqn:Em; [done|].
  destruct (utf8_encode T) as [bs|]; [|done]. intros [= Hrun _].
  by apply (encode_loop_fully_merged (e :: m) (length bs) bs).
Qed.

Lemma X9_witness :
  dict_get (merges (Tokenizer [] [((97, 98), 256); ((256, 99), 257)])) (257, 99) = None.
Proof.
  apply (X9_encode_output_fully_merged
           (Tokenizer [] [((97, 98), 256); ((256, 99), 257)])
           (Tokenizer [] [((97, 98), 256); ((256, 99), 257)])
           (text_of "abcc") [257; 99]).
  - vm_compute. reflexivity.
  - refine (bool_decide_eq_true_1 (_ ∈ _) _). vm_compute. reflexivity.
Defined.

(** X10. The IDs [encode] returns are never more than the UTF-8 bytes of the
    text, and there are none only for the empty text; each of them is a byte
    of the text or a value of the merge table. *)
Theorem X10_encode_output_length
    (self self' : tokenizer) (T ids : list Z) :
  encode T self = (Ok ids, self') ->
  exists bs,
    utf8_encode T = Some bs
    /\ (length ids <= length bs)%nat
    /\ (ids = [] <-> T = [])
    /\ Forall (fun t => t ∈ bs \/ t ∈ dict_values (merges self)) ids.
Proof.
  rewrite encode_run. destruct (merges self) as [|e m] eqn:Em; [done|].
  destruct (utf8_encode T) as [bs|] eqn:Ebs; [|done]. intros [= Hrun _].
  destruct (encode_loop_length _ _ _ _ Hrun) as (Hlen & Hnil & Hall).
  exists bs. split; [done|]. split; [done|]. split; [|done].
  rewrite Hnil. by apply utf8_encode_nil.
Qed.

Lemma X10_witness :
  exists bs,
    utf8_encode (text_of "abcc") = Some bs
    /\ (length [257; 99] <= length bs)%nat
    /\ ([257; 99] = [] <-> text_of "abcc" = [])
    /\ Forall (fun t => t ∈ bs
                \/ t ∈ dict_values (merges (Tokenizer [] [((97, 98), 256); ((256, 99), 257)])))
         [257; 99].
Proof.
  apply (X10_encode_output_length
           (Tokenizer [] [((97, 98), 256); ((256, 99), 257)])
           (Tokenizer [] [((97, 98), 256); ((256, 99), 257)])
           (text_of "abcc") [257; 99]).
  vm_compute. reflexivity.
Defined.

(** X11. When no two neighbouring bytes of the text are a pair of the merge
    table (in particular when the text has fewer than two bytes), [encode]
    returns the UTF-8 bytes themselves. *)
Theorem X11_encode_without_merges_applies
    (self : tokenizer) (T bs : list Z) :
  merges self <> [] ->
  utf8_encode T = Some bs ->
  (forall p, p ∈ adjacent_pairs bs -> dict_get (merges self) p = None) ->
  encode T self = (Ok bs, self).
Proof.
  intros Hm Ebs Hnone. rewrite encode_run, Ebs, encode_loop_no_pair by done.
  by destruct (merges self).
Qed.

Lemma X11_witness :
  encode (text_of "ba") (Tokenizer [] [((97, 98), 256)])
  = (Ok [98; 97], Tokenizer [] [((97, 98), 256)]).
Proof.
  apply (X11_encode_without_merges_applies (Tokenizer [] [((97, 98), 256)])
           (text_of "ba") [98; 97]).
  - discriminate.
  - reflexivity.
  - intros p [->|Hp]%elem_of_cons; [reflexivity | by apply elem_of_nil in Hp].
Defined.

Lemma join_vocab_missing (v : list (Z * list byte)) ids :
  (exists t, t ∈ ids /\ dict_get v t = None) -> join_vocab v ids = Raise KeyError.
Proof.
  induction ids as [|x ids IH]; intros (t & Hin & Ht).
  - by apply elem_of_nil in Hin.
  - simpl. unfold subscript. destruct (dict_get v x) as [b|] eqn:Hx; [|done].
    rewrite IH; [done|]. apply elem_of_cons in Hin as [->|Hin]; [congruence | eauto].
Qed.

(** X12. [decode] has three outcomes and no other: [RuntimeError] when the
    vocabulary is empty, whatever the IDs; [KeyError] when the vocabulary is
    not empty and some ID has no entry; and a text otherwise.  The tokenizer
    is left as it was in all three. *)
Theorem X12_decode_outcome (self : tokenizer) (ids : list Z) :
  (vocab self = [] /\ decode ids self = (Raise RuntimeError, self))
  \/ (vocab self <> []
      /\ (exists t, t ∈ ids /\ dict_get (vocab self) t = None)
      /\ decode ids self = (Raise KeyError, self))
  \/ (vocab self <> []
      /\ Forall (fun t => is_Some (dict_get (vocab self) t)) ids
      /\ exists s, decode ids self = (Ok s, self)).
Proof.
  rewrite decode_run. destruct (vocab self) as [|e v] eqn:Ev; [by left|]. right.
  destruct (decide (Forall (fun t => is_Some (dict_get (e :: v) t)) ids)) as [Hall|Hnot].
  - right. split; [done|]. split; [done|].
    destruct (join_vocab_total _ _ Hall) as [buf Hbuf]. rewrite Hbuf. eauto.
  - left. split; [done|].
    apply not_Forall_Exists in Hnot; [|intros t; apply _].
    apply Exists_exists in Hnot as (t & Hin & Ht).
    assert (dict_get (e :: v) t = None) as Hnone.
    { destruct (dict_get (e :: v) t) eqn:E; [exfalso; apply Ht; eauto | done]. }
    split; [by exists t|]. rewrite join_vocab_missing; [done | by exists t].
Qed.

(* ===================================================================== *)
(** ** Tables that fit together *)
(* ===================================================================== *)

Lemma dict_get_cons_ne {K V} `{EqDecision K} (d : list (K * V)) k' v k :
  k' <> k -> dict_get ((k', v) :: d) k = dict_get d k.
Proof. intros Hne. simpl. by rewrite decide_False. Qed.

Lemma dict_get_cons_eq {K V} `{EqDecision K} (d : list (K * V)) k v :
  dict_get ((k, v) :: d) k = Some v.
Proof. simpl. by rewrite decide_True. Qed.

Lemma trained_consistent k self : trained k self -> consistent self.
Proof.
  intros Ht. split; [apply Ht|]. intros p v l r Hp Hl Hr.
  destruct (trained_expansion _ _ Ht _ _ Hp) as (_ & _ & l' & r' & Hl' & Hr' & Hv).
  congruence.
Qed.

(** With consistent tables the loop of [encode] keeps to IDs that have an
    entry and keeps the bytes the IDs stand for. *)
Lemma encode_loop_consistent self fuel tokens :
  consistent self ->
  Forall (fun t => is_Some (dict_get (vocab self) t)) tokens ->
  exists ids,
    encode_loop fuel (merges self) tokens = Ok ids
    /\ Forall (fun t => is_Some (dict_get (vocab self) t)) ids
    /\ join_vocab (vocab self) ids = join_vocab (vocab self) tokens.
Proof.
  intros [Hbytes Hexp]. revert tokens. induction fuel as [|fuel IH]; intros tokens Htok.
  - by exists tokens.
  - cbn [encode_loop]. destruct (bool_decide (2 <= length tokens)%nat) eqn:Hlen;
      [|by exists tokens].
    apply bool_decide_eq_true in Hlen.
    destruct (min_pair_is_Some (merges self) tokens Hlen) as [[a b] Hmin]. rewrite Hmin.
    destruct (dict_get (merges self) (a, b)) as [idx|] eqn:Hp; [|by exists tokens].
    destruct (min_pair_split _ _ _ Hmin) as [Hin _].
    apply (proj1 (stats_keys_elem _ _)), adjacent_pairs_elem in Hin as [Ha Hb].
    rewrite Forall_forall in Htok.
    destruct (Htok a Ha) as [l Hl]. destruct (Htok b Hb) as [r Hr].
    pose proof (Hexp (a, b) idx l r Hp Hl Hr) as Hidx.
    destruct (IH (_merge tokens (a, b) idx)) as (ids & Hrun & Hids & Hjoin).
    { rewrite merge_greedy. apply Forall_forall. intros t Ht.
      apply greedy_replace_elem in Ht as [->|Ht]; [eauto | auto]. }
    exists ids. split; [done|]. split; [done|].
    rewrite Hjoin, merge_greedy. by apply (join_vocab_merge _ _ _ _ l r).
Qed.

Lemma consistent_roundtrip self T bs :
  consistent self -> merges self <> [] -> utf8_encode T = Some bs ->
  exists ids,
    encode T self = (Ok ids, self)
    /\ join_vocab (vocab self) ids = Ok (byte_of_Z <$> bs)
    /\ decode ids self = (Ok T, self).
Proof.
  intros Hc Hm Ebs. pose proof (utf8_encode_range _ _ Ebs) as Hbs.
  assert (join_vocab (vocab self) bs = Ok (byte_of_Z <$> bs)) as Hraw.
  { destruct Hc as [Hbytes _]. clear -Hbs Hbytes.
    induction Hbs as [|b bs Hb _ IH]; [done|].
    by rewrite (join_vocab_cons _ _ _ _ (Hbytes b Hb)), IH. }
  destruct (encode_loop_consistent self (length bs) bs Hc) as (ids & Hrun & Hids & Hjoin).
  { eapply Forall_impl; [exact Hbs|]. intros b Hb. simpl in Hb.
    destruct Hc as [Hbytes _]. rewrite Hbytes by done. eauto. }
  exists ids. rewrite Hraw in Hjoin. split.
  { rewrite encode_run, Ebs, Hrun. by destruct (merges self). }
  split; [done|]. rewrite decode_run, Hjoin.
  assert (vocab self <> []) as Hv.
  { destruct Hc as [Hbytes _]. intros Hnil. specialize (Hbytes 0 ltac:(lia)).
    by rewrite Hnil in Hbytes. }
  destruct (vocab self); [done|]. do 2 f_equal. rewrite <- list_fmap_compose.
  rewrite <- (utf8_decode_encode _ _ Ebs). f_equal.
  clear -Hbs. induction Hbs as [|b bs Hb _ IH]; [done|].
  simpl. rewrite byte_to_of_Z by done. by f_equal.
Qed.

(** X13. The round trip does not depend on how the tables were obtained.
    For every tokenizer, built by the constructor from given tables, loaded
    or trained, whose tables fit together (raw bytes expand to themselves, a
    merged ID expands to its two parts) and whose merge table is not empty,
    [decode(encode(T))] is [T] for every valid text [T]. *)
Theorem X13_roundtrip_with_consistent_tables
    (v : list (Z * list byte)) (m : list ((Z * Z) * Z)) (T : list Z) :
  consistent (init (Some v) (Some m)) ->
  m <> [] ->
  valid_text T ->
  exists ids,
    encode T (init (Some v) (Some m)) = (Ok ids, init (Some v) (Some m))
    /\ decode ids (init (Some v) (Some m)) = (Ok T, init (Some v) (Some m)).
Proof.
  intros Hc Hm [bs Ebs]%valid_text_encode.
  destruct (consistent_roundtrip _ T bs Hc Hm Ebs) as (ids & Henc & _ & Hdec).
  by exists ids.
Qed.

Lemma X13_witness :
  exists ids,
    encode (text_of "ab")
      (init (Some ((256, [x61; x62]) :: initial_vocab)) (Some [((97, 98), 256)]))
    = (Ok ids, init (Some ((256, [x61; x62]) :: initial_vocab)) (Some [((97, 98), 256)]))
    /\ decode ids
         (init (Some ((256, [x61; x62]) :: initial_vocab)) (Some [((97, 98), 256)]))
       = (Ok (text_of "ab"),
          init (Some ((256, [x61; x62]) :: initial_vocab)) (Some [((97, 98), 256)])).
Proof.
  apply (X13_roundtrip_with_consistent_tables
           ((256, [x61; x62]) :: initial_vocab) [((97, 98), 256)] (text_of "ab")).
  - split; cbn [init from_option id vocab merges].
    + intros b Hb. rewrite dict_get_cons_ne by lia.
      apply (trained_bytes _ _ trained_initial b Hb).
    + intros p v l r Hp Hl Hr.
      destruct (decide ((97, 98) = p)) as [<-|Hne].
      2:{ rewrite dict_get_cons_ne in Hp by done. done. }
      rewrite dict_get_cons_eq in Hp. injection Hp as <-.
      cbn [fst snd] in Hl, Hr. rewrite dict_get_cons_ne in Hl, Hr by lia.
      pose proof (trained_bytes _ _ trained_initial 97 ltac:(lia)) as H97.
      pose proof (trained_bytes _ _ trained_initial 98 ltac:(lia)) as H98.
      cbn [vocab] in H97, H98. rewrite H97 in Hl. rewrite H98 in Hr.
      injection Hl as <-. injection Hr as <-. apply dict_get_cons_eq.
  - discriminate.
  - repeat (apply Forall_cons_2; [reflexivity|]). apply Forall_nil_2.
Defined.

(** X14. With room for as many merges as the text has bytes but one,
    training merges a text of two or more bytes into a single token:
    [encode] of that text then returns one ID, whose vocabulary entry is the
    whole UTF-8 encoding of the text and which [decode] turns back into the
    text. *)
Theorem X14_training_with_room_collapses
    (text : list Z) (vocab_size : Z) (self self' : tokenizer) (bs : list Z) :
  train text vocab_size self = (Ok tt, self') ->
  utf8_encode text = Some bs ->
  (2 <= length bs)%nat ->
  Z.of_nat (length bs) - 1 <= vocab_size - 256 ->
  exists t,
    encode text self' = (Ok [t], self')
    /\ dict_get (vocab self') t = Some (byte_of_Z <$> bs)
    /\ decode [t] self' = (Ok text, self').
Proof.
  intros Htrain Ebs Hlen Hroom.
  destruct (train_report _ _ _ _ Htrain)
    as (bs' & ids' & k & Ebs' & Hrun & Hge & Hinv & Hk & Hlv & Hll & Hstop & Hmost & Hne & Henc).
  rewrite Ebs in Ebs'. injection Ebs' as <-.
  assert (merges self' <> []) as Hm.
  { apply (train_records_merge _ _ _ _ Htrain). split; [lia|]. eauto. }
  assert (length ids' = 1%nat) as Hone.
  { assert (0 < length ids')%nat by (destruct ids'; [done | simpl; lia]).
    destruct Hstop; lia. }
  destruct ids' as [|t [|? ?]]; try discriminate Hone.
  destruct (consistent_roundtrip self' text bs
              (trained_consistent _ _ (proj1 Hinv)) Hm Ebs) as (ids & Hen & Hjoin & Hdec).
  assert (ids = [t]) as ->.
  { rewrite encode_run, Ebs, (Henc (length bs)) in Hen by done.
    destruct (merges self'); [done|]. by injection Hen. }
  exists t. split; [done|]. split; [|done].
  simpl in Hjoin. unfold subscript in Hjoin.
  destruct (dict_get (vocab self') t) as [b|]; [|done].
  injection Hjoin as Hb. by rewrite app_nil_r in Hb; subst.
Qed.

Lemma X14_witness :
  exists t,
    encode (text_of "abab") (train (text_of "abab") 259 fresh).2
    = (Ok [t], (train (text_of "abab") 259 fresh).2)
    /\ dict_get (vocab (train (text_of "abab") 259 fresh).2) t
       = Some (byte_of_Z <$> [97; 98; 97; 98])
    /\ decode [t] (train (text_of "abab") 259 fresh).2
       = (Ok (text_of "abab"), (train (text_of "abab") 259 fresh).2).
Proof.
  apply (X14_training_with_room_collapses (text_of "abab") 259 fresh).
  - vm_compute. reflexivity.
  - reflexivity.
  - simpl. lia.
  - simpl. lia.
Defined.

(* ===================================================================== *)
(** ** What [save] writes *)
(* ===================================================================== *)

Lemma dump_to_denied path doc disk :
  dict_get disk path = Some Denied -> dump_to path doc disk = (Raise OSError, disk).
Proof. intros H. unfold dump_to. by rewrite H. Qed.

Lemma dump_to_written path doc disk :
  dict_get disk path <> Some Denied ->
  dump_to path doc disk = (Ok tt, dict_set disk path (Json doc)).
Proof.
  intros H. unfold dump_to. destruct (dict_get disk path) as [[| |j]|]; done.
Qed.

(** X15. [save] never changes the tokenizer, and it writes the vocabulary
    file first.  If that file cannot be opened nothing is written; if only
    the merges file cannot be opened, the call fails after the vocabulary
    file has been written; otherwise both files hold their documents and no
    other path is touched.  Given the same path twice, [save] succeeds and
    leaves the merge table document there. *)
Theorem X15_save_disk_effects
    (vocab_path merges_path : string) (disk : list (string * file)) (self : tokenizer) :
  (dict_get disk vocab_path = Some Denied ->
     save vocab_path merges_path disk self = (Raise OSError, self, disk))
  /\ (dict_get disk vocab_path <> Some Denied -> vocab_path <> merges_path ->
      dict_get disk merges_path = Some Denied ->
        save vocab_path merges_path disk self
        = (Raise OSError, self,
           dict_set disk vocab_path (Json (JObj (vocab_serializable (vocab self))))))
  /\ (dict_get disk vocab_path <> Some Denied -> vocab_path <> merges_path ->
      dict_get disk merges_path <> Some Denied ->
        exists disk',
          save vocab_path merges_path disk self = (Ok tt, self, disk')
          /\ dict_get disk' vocab_path
             = Some (Json (JObj (vocab_serializable (vocab self))))
          /\ dict_get disk' merges_path
             = Some (Json (JObj (merges_serializable (merges self))))
          /\ forall path, path <> vocab_path -> path <> merges_path ->
               dict_get disk' path = dict_get disk path)
  /\ (dict_get disk vocab_path <> Some Denied ->
        exists disk',
          save vocab_path vocab_path disk self = (Ok tt, self, disk')
          /\ dict_get disk' vocab_path
             = Some (Json (JObj (merges_serializable (merges self))))).
Proof.
  split; [|split; [|split]].
  - intros Hv. unfold save. by rewrite dump_to_denied.
  - intros Hv Hne Hm. unfold save. rewrite dump_to_written by done.
    rewrite dump_to_denied; [done|]. by rewrite dict_get_set_ne.
  - intros Hv Hne Hm. unfold save. rewrite dump_to_written by done.
    rewrite dump_to_written by (by rewrite dict_get_set_ne).
    eexists. split; [done|]. split; [|split].
    + rewrite dict_get_set_ne by done. apply dict_get_set_eq.
    + apply dict_get_set_eq.
    + intros path H1 H2. by rewrite !dict_get_set_ne.
  - intros Hv. unfold save. rewrite dump_to_written by done.
    rewrite dump_to_written by (by rewrite dict_get_set_eq).
    eexists. split; [done|]. apply dict_get_set_eq.
Qed.

Lemma X15_witness :
  exists disk',
    save "vocab.json" "merges.json" [("notes.txt"%string, Garbage)]
      (Tokenizer [(97, [x61])] [((97, 98), 256)])
    = (Ok tt, Tokenizer [(97, [x61])] [((97, 98), 256)], disk')
    /\ dict_get disk' "vocab.json"%string
       = Some (Json (JObj (vocab_serializable
                             (vocab (Tokenizer [(97, [x61])] [((97, 98), 256)])))))
    /\ dict_get disk' "merges.json"%string
       = Some (Json (JObj (merges_serializable
                             (merges (Tokenizer [(97, [x61])] [((97, 98), 256)])))))
    /\ forall path, path <> "vocab.json"%string -> path <> "merges.json"%string ->
         dict_get disk' path = dict_get [("notes.txt"%string, Garbage)] path.
Proof.
  apply (proj1 (proj2 (proj2 (X15_save_disk_effects "vocab.json" "merges.json"
                                [("notes.txt"%string, Garbage)]
                                (Tokenizer [(97, [x61])] [((97, 98), 256)]))))).
  - discriminate.
  - discriminate.
  - discriminate.
Defined.

(** X16. The documents [save] writes lose nothing: the vocabulary document
    has one member per ID, keyed by the decimal form of the ID and holding
    the hexadecimal form of its bytes, and the merges document one member per
    pair, keyed by the two decimal forms with a comma between them; no two
    entries get the same key, and the order of the tables is kept. *)
Theorem X16_documents_keep_every_entry (self : tokenizer) :
  NoDup (dict_keys (vocab self)) ->
  NoDup (dict_keys (merges self)) ->
  vocab_serializable (vocab self)
  = (fun kv => (py_str kv.1, JStr (bytes_hex kv.2))) <$> vocab self
  /\ merges_serializable (merges self)
     = (fun kv => (py_str kv.1.1 +:+ "," +:+ py_str kv.1.2, JInt kv.2)) <$> merges self
  /\ NoDup (dict_keys (vocab_serializable (vocab self)))
  /\ NoDup (dict_keys (merges_serializable (merges self))).
Proof.
  intros Hv Hm. split; [by apply vocab_serializable_items|].
  split; [by apply merges_serializable_items|]. split.
  - rewrite vocab_serializable_items by done.
    rewrite (dict_keys_fmap_items py_str (fun kv => JStr (bytes_hex kv.2))).
    apply NoDup_fmap_inj; [apply py_str_inj | done].
  - rewrite merges_serializable_items by done.
    rewrite (dict_keys_fmap_items (fun p : Z * Z => py_str p.1 +:+ "," +:+ py_str p.2)
               (fun kv => JInt kv.2)).
    apply NoDup_fmap_inj; [apply merge_key_inj | done].
Qed.

Lemma X16_witness :
  vocab_serializable (vocab (Tokenizer [(97, [x61]); (256, [x61; x62])] [((97, 98), 256)]))
  = (fun kv => (py_str kv.1, JStr (bytes_hex kv.2)))
      <$> vocab (Tokenizer [(97, [x61]); (256, [x61; x62])] [((97, 98), 256)])
  /\ merges_serializable
       (merges (Tokenizer [(97, [x61]); (256, [x61; x62])] [((97, 98), 256)]))
     = (fun kv => (py_str kv.1.1 +:+ "," +:+ py_str kv.1.2, JInt kv.2))
         <$> merges (Tokenizer [(97, [x61]); (256, [x61; x62])] [((97, 98), 256)])
  /\ NoDup (dict_keys (vocab_serializable
              (vocab (Tokenizer [(97, [x61]); (256, [x61; x62])] [((97, 98), 256)]))))
  /\ NoDup (dict_keys (merges_serializable
              (merges (Tokenizer [(97, [x61]); (256, [x61; x62])] [((97, 98), 256)])))).
Proof.
  apply (X16_documents_keep_every_entry
           (Tokenizer [(97, [x61]); (256, [x61; x62])] [((97, 98), 256)])).
  - refine (bool_decide_eq_true_1 (NoDup _) _). vm_compute. reflexivity.
  - refine (bool_decide_eq_true_1 (NoDup _) _). vm_compute. reflexivity.
Defined.

Example saved_vocab_document :
  vocab_serializable [(97, [x61]); (256, [x61; x62])]
  = [("97"%string, JStr "61"); ("256"%string, JStr "6162")].
Proof. vm_compute. reflexivity. Qed.

(* ===================================================================== *)
(** ** The scripts *)
(* ===================================================================== *)

(** [load] reads back what is on the disk at the two paths when those are
    the documents of a tokenizer. *)
Lemma load_saved_documents vocab_path merges_path disk self other :
  NoDup (dict_keys (vocab self)) ->
  NoDup (dict_keys (merges self)) ->
  json_load vocab_path disk = Ok (JObj (vocab_serializable (vocab self))) ->
  json_load merges_path disk = Ok (JObj (merges_serializable (merges self))) ->
  load vocab_path merges_path disk other = (Ok tt, self).
Proof.
  intros Hv Hm Hlv Hlm. rewrite load_run, Hlv.
  pose proof (load_vocab_document _ Hv) as Hdv.
  destruct (json_items (JObj (vocab_serializable (vocab self)))) as [vi| |]; try done.
  rewrite Hdv, Hlm. pose proof (load_merges_document _ Hm) as Hdm.
  destruct (json_items (JObj (merges_serializable (merges self)))) as [mi| |]; try done.
  rewrite Hdm. by destruct self.
Qed.

Lemma trained_keys_NoDup k self :
  trained k self -> NoDup (dict_keys (vocab self)) /\ NoDup (dict_keys (merges self)).
Proof.
  intros Ht. split; [|apply Ht]. rewrite (trained_vocab_keys _ _ Ht). apply NoDup_seqZ.
Qed.

Lemma train_succeeds text vocab_size self :
  256 <= vocab_size -> valid_text text -> text <> [] ->
  exists self', train text vocab_size self = (Ok tt, self').
Proof.
  intros Hge [bs Ebs]%valid_text_encode Hne.
  destruct (train_run text vocab_size self)
    as [[? _]|[(_ & Hnone & _)
              |(_ & bs' & ids' & s & k & _ & _ & _ & _ & Hnil & _ & H)]];
    [lia | congruence |].
  exists s. rewrite H. rewrite bool_decide_eq_false_2; [done|].
  intros Hl%length_zero_iff_nil. by apply Hnil in Hl.
Qed.

(** What a completed run of the script has put on the disk, and with what
    tokenizer. *)
Lemma main_block_trained sample_text test_text disk out disk' :
  main_block sample_text test_text disk = (Ok out, disk') ->
  exists k self,
    trained k self /\ merges self <> []
    /\ json_load "vocab.json" disk' = Ok (JObj (vocab_serializable (vocab self)))
    /\ json_load "merges.json" disk' = Ok (JObj (merges_serializable (merges self))).
Proof.
  unfold main_block. intros Hrun.
  destruct (train sample_text 276 (init None None)) as [[[]| |] s1] eqn:Etrain;
    try (by destruct out).
  destruct (encode test_text s1) as [[encoded| |] s2] eqn:Eenc; try done.
  destruct (decode encoded s2) as [[decoded| |] s3] eqn:Edec; try done.
  destruct (save "vocab.json" "merges.json" disk s3) as [[[[]| |] s4] d1] eqn:Esave;
    try done.
  destruct (train_success _ _ _ _ Etrain) as (_ & _ & _ & k & Ht & _).
  pose proof (encode_keeps_state test_text s1) as H2. rewrite Eenc in H2. simpl in H2.
  pose proof (decode_keeps_state encoded s2) as H3. rewrite Edec in H3. simpl in H3.
  subst s2 s3.
  assert (merges s1 <> []) as Hm.
  { rewrite encode_run in Eenc. by destruct (merges s1). }
  assert (disk' = d1) as ->.
  { repeat match type of Hrun with
      | context [match ?x with _ => _ end] => destruct x
      end; congruence. }
  exists k, s1. split; [done|]. split; [done|].
  unfold save in Esave.
  destruct (dump_to "vocab.json" _ disk) as [[[]| |] da] eqn:E1; try done.
  destruct (dump_to "merges.json" _ da) as [r2 db] eqn:E2.
  injection Esave as -> _ <-. split.
  - rewrite (json_load_dump_other "merges.json" "vocab.json" _ _ _ _ ltac:(done) E2).
    by apply (json_load_dump _ _ _ _ E1).
  - by apply (json_load_dump _ _ _ _ E2).
Qed.

(** X17. The script at the end of [bpe_tokenizer.py], for any sample text
    of at least two bytes and any test text, both valid, on a disk where
    the two files can be written: it runs to its end, both comparisons it
    prints are [True], the decoded text is the test text, and the two files
    hold the documents of the trained tokenizer. *)
Theorem X17_main_block_matches
    (sample_text test_text bs : list Z) (disk : list (string * file)) :
  utf8_encode sample_text = Some bs ->
  (2 <= length bs)%nat ->
  valid_text test_text ->
  dict_get disk "vocab.json"%string <> Some Denied ->
  dict_get disk "merges.json"%string <> Some Denied ->
  exists encoded disk' self,
    main_block sample_text test_text disk = (Ok (encoded, test_text, true, true), disk')
    /\ train sample_text 276 (init None None) = (Ok tt, self)
    /\ json_load "vocab.json" disk' = Ok (JObj (vocab_serializable (vocab self)))
    /\ json_load "merges.json" disk' = Ok (JObj (merges_serializable (merges self))).
Proof.
  intros Ebs Hlen [tb Etb]%valid_text_encode Hv Hm.
  destruct (train_succeeds sample_text 276 (init None None)) as [self Htrain]; [lia | | |].
  { apply valid_text_encode. rewrite Ebs. eauto. }
  { intros ->. simpl in Ebs. injection Ebs as <-. simpl in Hlen. lia. }
  destruct (train_success _ _ _ _ Htrain) as (_ & _ & _ & k & Ht & _).
  assert (merges self <> []) as Hmerges.
  { apply (train_records_merge _ _ _ _ Htrain). split; [lia | eauto]. }
  destruct (consistent_roundtrip self test_text tb (trained_consistent _ _ Ht) Hmerges Etb)
    as (encoded & Henc & _ & Hdec).
  destruct (trained_keys_NoDup _ _ Ht) as [Hnv Hnm].
  pose (disk' := dict_set (dict_set disk "vocab.json"%string
                             (Json (JObj (vocab_serializable (vocab self)))))
                   "merges.json"%string (Json (JObj (merges_serializable (merges self))))).
  assert (save "vocab.json" "merges.json" disk self = (Ok tt, self, disk')) as Hsave.
  { unfold save. rewrite dump_to_written by done.
    rewrite dump_to_written by (by rewrite dict_get_set_ne). done. }
  assert (json_load "vocab.json" disk' = Ok (JObj (vocab_serializable (vocab self)))) as Hlv.
  { unfold json_load, disk'. rewrite dict_get_set_ne by done. by rewrite dict_get_set_eq. }
  assert (json_load "merges.json" disk' = Ok (JObj (merges_serializable (merges self))))
    as Hlm.
  { unfold json_load, disk'. by rewrite dict_get_set_eq. }
  exists encoded, disk', self. split; [|done].
  unfold main_block. rewrite Htrain, Henc, Hdec, Hsave.
  rewrite (load_saved_documents _ _ _ self (init None None) Hnv Hnm Hlv Hlm).
  rewrite Henc, Hdec. by rewrite bool_decide_eq_true_2.
Qed.

Lemma X17_witness :
  exists encoded disk' self,
    main_block (text_of "ababab") (text_of "abc") []
    = (Ok (encoded, text_of "abc", true, true), disk')
    /\ train (text_of "ababab") 276 (init None None) = (Ok tt, self)
    /\ json_load "vocab.json" disk' = Ok (JObj (vocab_serializable (vocab self)))
    /\ json_load "merges.json" disk' = Ok (JObj (merges_serializable (merges self))).
Proof.
  apply (X17_main_block_matches (text_of "ababab") (text_of "abc") [97; 98; 97; 98; 97; 98] []).
  - reflexivity.
  - simpl. lia.
  - repeat (apply Forall_cons_2; [reflexivity|]). apply Forall_nil_2.
  - discriminate.
  - discriminate.
Defined.

Lemma encode_decode_each_consistent self texts :
  consistent self -> merges self <> [] -> Forall valid_text texts ->
  exists rows,
    encode_decode_each texts self = (Ok rows, self)
    /\ Forall2 (fun text row => row.1.2 = text /\ row.2 = true) texts rows.
Proof.
  intros Hc Hm. induction 1 as [|text texts [bs Ebs]%valid_text_encode _ [rows [Hrows Hall]]].
  - exists []. split; [done | constructor].
  - destruct (consistent_roundtrip self text bs Hc Hm Ebs) as (ids & Henc & _ & Hdec).
    exists ((ids, text, true) :: rows). split.
    + cbn [encode_decode_each]. unfold bind. rewrite Henc, Hdec, Hrows.
      unfold ret. by rewrite bool_decide_eq_true_2.
    + constructor; [done | done].
Qed.

(** X18. After the script of [bpe_tokenizer.py] has run to its end,
    [example_load_and_use] on the disk it leaves succeeds for any valid test
    texts: for each of them the decoded text is the text and the comparison
    it prints is [True]. *)
Theorem X18_example_load_and_use_matches
    (sample_text test_text : list Z) (disk disk' : list (string * file))
    (out : list Z * list Z * bool * bool) (test_texts : list (list Z)) :
  main_block sample_text test_text disk = (Ok out, disk') ->
  Forall valid_text test_texts ->
  exists rows,
    example_load_and_use test_texts disk' = Ok rows
    /\ Forall2 (fun text row => row.1.2 = text /\ row.2 = true) test_texts rows.
Proof.
  intros Hrun Hvalid.
  destruct (main_block_trained _ _ _ _ _ Hrun) as (k & self & Ht & Hm & Hlv & Hlm).
  destruct (trained_keys_NoDup _ _ Ht) as [Hnv Hnm].
  destruct (encode_decode_each_consistent self test_texts
              (trained_consistent _ _ Ht) Hm Hvalid) as (rows & Hrows & Hall).
  exists rows. split; [|done].
  unfold example_load_and_use, bind.
  rewrite (load_saved_documents _ _ _ self (init None None) Hnv Hnm Hlv Hlm).
  by rewrite Hrows.
Qed.

Lemma X18_witness :
  exists rows,
    example_load_and_use [text_of "ab"; text_of "cab"]
      (main_block (text_of "ababab") (text_of "abc") []).2
    = Ok rows
    /\ Forall2 (fun text row => row.1.2 = text /\ row.2 = true)
         [text_of "ab"; text_of "cab"] rows.
Proof.
  apply (X18_example_load_and_use_matches (text_of "ababab") (text_of "abc") []
           (main_block (text_of "ababab") (text_of "abc") []).2
           ([256; 99], text_of "abc", true, true)).
  - vm_compute. reflexivity.
  - repeat (apply Forall_cons_2;
            [repeat (apply Forall_cons_2; [reflexivity|]); apply Forall_nil_2|]).
    apply Forall_nil_2.
Defined.

Lemma encode_measures self text :
  merges self <> [] -> valid_text text ->
  exists bs ids,
    utf8_encode text = Some bs
    /\ encode text self = (Ok ids, self)
    /\ (length ids <= length bs)%nat
    /\ (ids = [] <-> text = []).
Proof.
  intros Hm [bs Ebs]%valid_text_encode. rewrite encode_run.
  destruct (merges self) as [|e m] eqn:Em; [done|]. rewrite Ebs.
  destruct (encode_loop_total (e :: m) (length bs) bs) as [ids Hids].
  destruct (encode_loop_length _ _ _ _ Hids) as (Hlen & Hnil & _).
  exists bs, ids. rewrite Hids. split; [done|]. split; [done|]. split; [done|].
  rewrite Hnil. by apply utf8_encode_nil.
Qed.

Lemma measure_each_rows self texts :
  merges self <> [] -> Forall valid_text texts ->
  exists rows,
    measure_each texts self = (Ok rows, self)
    /\ Forall2 (fun text row =>
                  0 <= row.1.2 <= row.1.1
                  /\ (row.2 = true <-> text <> [])
                  /\ (row.2 = true -> 0 < row.1.2)
                  /\ (row.2 = false -> row.1.1 = 0)) texts rows.
Proof.
  intros Hm. induction 1 as [|text texts Hvalid _ [rows [Hrows Hall]]].
  - exists []. split; [done | constructor].
  - destruct (encode_measures self text Hm Hvalid) as (bs & ids & Ebs & Henc & Hlen & Hnil).
    exists ((Z.of_nat (length bs), Z.of_nat (length ids), 0 <? Z.of_nat (length ids)) :: rows).
    split.
    + cbn [measure_each]. unfold bind, lift, encode_utf8. rewrite Ebs, Henc, Hrows. done.
    + constructor; [|done]. cbn [fst snd].
      assert (length ids = 0%nat <-> text = []) as Hz.
      { rewrite <- Hnil. split; [apply length_zero_iff_nil | by intros ->]. }
      assert (length bs = 0%nat <-> text = []) as Hzb.
      { rewrite <- (utf8_encode_nil _ _ Ebs).
        split; [apply length_zero_iff_nil | by intros ->]. }
      split; [lia|]. split.
      { rewrite Z.ltb_lt. split.
        - intros Hpos ->. assert (length ids = 0%nat) as H0 by (by apply Hz). lia.
        - intros Hne. destruct (decide (length ids = 0%nat)) as [H0|]; [by apply Hz in H0 | lia]. }
      split; [by rewrite Z.ltb_lt|].
      rewrite Z.ltb_ge. intros Hle.
      assert (length ids = 0%nat) as H0 by lia. apply Hz, Hzb in H0. lia.
Qed.

(** X19. After the script of [bpe_tokenizer.py] has run to its end,
    [example_compare_compression] on the disk it leaves succeeds for any
    valid texts.  For each of them the tokens are not more than the UTF-8
    bytes; the ratio is computed by the division exactly when the text is
    not empty, and then the divisor is positive; the ratio is set to [0]
    only for a text of no bytes. *)
Theorem X19_example_compare_compression_rows
    (sample_text test_text : list Z) (disk disk' : list (string * file))
    (out : list Z * list Z * bool * bool) (texts : list (list Z)) :
  main_block sample_text test_text disk = (Ok out, disk') ->
  Forall valid_text texts ->
  exists rows,
    example_compare_compression texts disk' = Ok rows
    /\ Forall2 (fun text row =>
                  0 <= row.1.2 <= row.1.1
                  /\ (row.2 = true <-> text <> [])
                  /\ (row.2 = true -> 0 < row.1.2)
                  /\ (row.2 = false -> row.1.1 = 0)) texts rows.
Proof.
  intros Hrun Hvalid.
  destruct (main_block_trained _ _ _ _ _ Hrun) as (k & self & Ht & Hm & Hlv & Hlm).
  destruct (trained_keys_NoDup _ _ Ht) as [Hnv Hnm].
  destruct (measure_each_rows self texts Hm Hvalid) as (rows & Hrows & Hall).
  exists rows. split; [|done].
  unfold example_compare_compression, bind.
  rewrite (load_saved_documents _ _ _ self (init None None) Hnv Hnm Hlv Hlm).
  by rewrite Hrows.
Qed.

Lemma X19_witness :
  exists rows,
    example_compare_compression [text_of "ab"; []]
      (main_block (text_of "ababab") (text_of "abc") []).2
    = Ok rows
    /\ Forall2 (fun text row =>
                  0 <= row.1.2 <= row.1.1
                  /\ (row.2 = true <-> text <> [])
                  /\ (row.2 = true -> 0 < row.1.2)
                  /\ (row.2 = false -> row.1.1 = 0)) [text_of "ab"; []] rows.
Proof.
  apply (X19_example_compare_compression_rows (text_of "ababab") (text_of "abc") []
           (main_block (text_of "ababab") (text_of "abc") []).2
           ([256; 99], text_of "abc", true, true)).
  - vm_compute. reflexivity.
  - apply Forall_cons_2;
      [repeat (apply Forall_cons_2; [reflexivity|]); apply Forall_nil_2|].
    apply Forall_cons_2; [apply Forall_nil_2|]. apply Forall_nil_2.
Defined.

(** X20. [example_train_and_save] writes [my_vocab.json] and
    [my_merges.json], and [example_load_and_use] reads [vocab.json]: on a
    disk without [vocab.json] the first example, whatever its training text
    and however it ends, leaves the second one to fail at [open], for any
    test texts. *)
Theorem X20_examples_use_different_files
    (training_text : list Z) (test_texts : list (list Z)) (disk : list (string * file)) :
  dict_get disk "vocab.json"%string = None ->
  example_load_and_use test_texts (example_train_and_save training_text disk).2
  = Raise OSError.
Proof.
  intros Hnone.
  assert (dict_get (example_train_and_save training_text disk).2 "vocab.json"%string = None)
    as Hafter.
  { unfold example_train_and_save.
    destruct (train training_text 280 (init None None)) as [[[]| |] s]; try done.
    destruct (save "my_vocab.json" "my_merges.json" disk s) as [[r s'] d] eqn:Esave.
    cbn [snd]. unfold save in Esave.
    destruct (dump_to "my_vocab.json" _ disk) as [r1 d1] eqn:E1.
    assert (dict_get d1 "vocab.json"%string = None) as H1.
    { pose proof (json_load_dump_other "my_vocab.json" "vocab.json" _ _ _ _
                    ltac:(done) E1) as H.
      unfold dump_to in E1. destruct (dict_get disk "my_vocab.json"%string) as [[| |j]|];
        injection E1 as _ <-; try done; by rewrite dict_get_set_ne. }
    destruct r1 as [[]| |]; try (injection Esave as _ _ <-; done).
    destruct (dump_to "my_merges.json" _ d1) as [r2 d2] eqn:E2.
    injection Esave as _ _ <-.
    unfold dump_to in E2. destruct (dict_get d1 "my_merges.json"%string) as [[| |j]|];
      injection E2 as _ <-; try done; by rewrite dict_get_set_ne. }
  unfold example_load_and_use, bind. rewrite load_run. unfold json_load.
  by rewrite Hafter.
Qed.

Lemma X20_witness :
  example_load_and_use [text_of "ab"] (example_train_and_save (text_of "abab") []).2
  = Raise OSError.
Proof.
  apply (X20_examples_use_different_files (text_of "abab") [text_of "ab"] []).
  reflexivity.
Defined.

(* ===================================================================== *)
(** ** Decoding in parts *)
(* ===================================================================== *)

Lemma join_vocab_app (v : list (Z * list byte)) ids1 ids2 b1 b2 :
  join_vocab v ids1 = Ok b1 -> join_vocab v ids2 = Ok b2 ->
  join_vocab v (ids1 ++ ids2) = Ok (b1 ++ b2).
Proof.
  revert b1. induction ids1 as [|t ids1 IH]; intros b1 H1 H2.
  - injection H1 as <-. done.
  - cbn [app join_vocab] in *. destruct (subscript v t) as [b| |]; [|done..].
    destruct (join_vocab v ids1) as [rest| |]; [|done..]. injection H1 as <-.
    rewrite (IH rest eq_refl H2). by rewrite app_assoc.
Qed.

Lemma utf8_decode_replace_encoded text bs rest :
  utf8_encode text = Some bs ->
  utf8_decode_replace (bs ++ rest) = text ++ utf8_decode_replace rest.
Proof.
  revert bs. induction text as [|c text IH]; intros bs; simpl.
  - by intros [= <-].
  - destruct (utf8_encode_char c) as [w|] eqn:Ew; [|done].
    destruct (utf8_encode text) as [more|]; [|done]. intros [= <-].
    rewrite <- app_assoc. rewrite (utf8_decode_encode_char c) by done. f_equal. auto.
Qed.

(** X21. Decoding can be done in parts when the first part ends between two
    characters: if the bytes of [ids1] are the UTF-8 form of [text1], then
    decoding [ids1 ++ ids2] gives [text1] followed by what [ids2] decodes
    to, whatever that is. *)
Theorem X21_decode_concatenation
    (self self' : tokenizer) (ids1 ids2 text1 text2 : list Z) (b1 : list byte) :
  join_vocab (vocab self) ids1 = Ok b1 ->
  utf8_encode text1 = Some (byte_to_Z <$> b1) ->
  decode ids2 self = (Ok text2, self') ->
  decode ids1 self = (Ok text1, self)
  /\ decode (ids1 ++ ids2) self = (Ok (text1 ++ text2), self).
Proof.
  intros H1 Htext H2. rewrite !decode_run in *.
  destruct (vocab self) as [|e v] eqn:Ev; [done|].
  destruct (join_vocab (e :: v) ids2) as [b2| |] eqn:E2; [|done..].
  injection H2 as <- _. rewrite H1. split.
  - by rewrite (utf8_decode_encode _ _ Htext).
  - rewrite (join_vocab_app _ _ _ _ _ H1 E2), fmap_app.
    by rewrite (utf8_decode_replace_encoded _ _ _ Htext).
Qed.

Lemma X21_witness :
  decode [97] (Tokenizer [(97, [x61]); (98, [x62])] [])
  = (Ok [97], Tokenizer [(97, [x61]); (98, [x62])] [])
  /\ decode ([97] ++ [98]) (Tokenizer [(97, [x61]); (98, [x62])] [])
     = (Ok ([97] ++ [98]), Tokenizer [(97, [x61]); (98, [x62])] []).
Proof.
  apply (X21_decode_concatenation (Tokenizer [(97, [x61]); (98, [x62])] [])
           (Tokenizer [(97, [x61]); (98, [x62])] []) [97] [98] [97] [98] [x61]).
  - reflexivity.
  - reflexivity.
  - reflexivity.
Defined.

(** Without that condition the parts do not add up: the two bytes of U+00E9
    decode to one character together and to two replacement characters
    apart. *)
Example decode_split_character :
  (decode [195; 169] (Tokenizer initial_vocab [])).1 = Ok [233]
  /\ (decode [195] (Tokenizer initial_vocab [])).1 = Ok [REPLACEMENT]
  /\ (decode [169] (Tokenizer initial_vocab [])).1 = Ok [REPLACEMENT].
Proof. vm_compute. done. Qed.
